(** * blocs atlas: the rectangle packer and the atlas compositor

    A shallow embedding of [blocs__add_texture], [blocs__pack_atlas],
    [blocs__set_pixels] and [blocs__generate_atlas] (c/main.c) and of their
    C++ twins [atlas::add_texture], [atlas::pack], [image::set_pixels] and
    [atlas::generate_bitmap] (main.cpp), with the properties of the packing
    and of the blit stated and proved over it; then of what [main] puts
    around them: the command line, the walk of the input directory, the
    file names, the demo boxes, the description of the atlas and the
    clean-up. *)

From Stdlib Require Import ZArith Lia Bool List.
From Stdlib Require Import Sorting.Sorted Sorting.Permutation.
From Stdlib Require Import Floats.SpecFloat Strings.Byte.
From Stdlib Require DecimalString Strings.String.
From stdpp Require Import base list list_numbers.

Local Open Scope Z_scope.

(** ** Machine integers

    [int32_t] and [int] values are integers of [Z]; every arithmetic
    operation of the source is followed by the two's complement wrap-around
    of its width. *)

Module Int32.
Definition min_signed : Z := - 2 ^ 31.
Definition max_signed : Z := 2 ^ 31 - 1.

Definition wrap (z : Z) : Z := (z + 2 ^ 31) mod 2 ^ 32 - 2 ^ 31.

Definition add (a b : Z) : Z := wrap (a + b).
Definition sub (a b : Z) : Z := wrap (a - b).
Definition mul (a b : Z) : Z := wrap (a * b).
Definition neg (a : Z) : Z := wrap (- a).

Definition in_range (z : Z) : Prop := min_signed <= z <= max_signed.
End Int32.

Module UInt32.
Definition max_unsigned : Z := 2 ^ 32 - 1.
Definition wrap (z : Z) : Z := z mod 2 ^ 32.
Definition add (a b : Z) : Z := wrap (a + b).
End UInt32.

(** [#define CHANNELS 4] *)
Definition CHANNELS : Z := 4.

(** ** Doubles

    [double] is IEEE 754 binary64, taken from the specification of floating
    point arithmetic of the standard library ([SpecFloat], precision 53,
    [emax] 1024).  The packer converts two [int]s to [double], multiplies one
    of them by the literal [0.85] and compares. *)

Module Double.
Definition prec : Z := 53.
Definition emax : Z := 1024.

(** conversion of an [int] to [double] (exact: every [int] has less than
    53 significant bits) *)
Definition of_int (z : Z) : spec_float := binary_normalize prec emax z 0 false.

Definition mul (a b : spec_float) : spec_float := SFmul prec emax a b.
Definition leb (a b : spec_float) : bool := SFleb a b.

(** the literal [0.85]: the binary64 number nearest to 85/100, that is
    [0x3FEB333333333333] = 7656119366529843 * 2^-53 *)
Definition lit_0_85 : spec_float := S754_finite false 7656119366529843 (-53).
End Double.

(** ** Data *)

(** [typedef struct blocs__rect { int32_t x, y, w, h; }] *)
Record blocs__rect : Type := Rect {
  rect_x : Z;
  rect_y : Z;
  rect_w : Z;
  rect_h : Z
}.

(** [typedef struct blocs__texture { blocs__rect rect; int32_t name_index;
    uint32_t buffer_index; }].  The C++ [texture] has the same [rect] and
    [buffer_index]; the packer and the compositor read nothing else. *)
Record blocs__texture : Type := Texture {
  tex_rect : blocs__rect;
  name_index : Z;
  buffer_index : Z
}.

#[global] Instance blocs__rect_eq_dec : EqDecision blocs__rect.
Proof. solve_decision. Defined.

#[global] Instance blocs__texture_eq_dec : EqDecision blocs__texture.
Proof. solve_decision. Defined.

(** The two programs of the repository: the C99 one (c/main.c) and the C++17
    one (main.cpp).  They run the same algorithm and differ in the places
    marked below. *)
Inductive lang : Type := C99 | Cpp17.

(** Messages of [blocs__assert] / [log_assert]; a failed assertion prints
    the message and calls [abort()]. *)
Inductive failure : Type :=
| OversizedTexture        (* "max size needed (..) larger than atlas size (..)" *)
| InsufficientSpace       (* "total area needed (..) cannot fit in atlas size (..)" *)
| TextureLargerThanMax    (* "texture larger (..) than maximum size (..)" *)
| CouldNotReadTexture     (* "could not read texture data" *)
| PixelDataTooLarge       (* "pixel data (..) too large for atlas (..)" *)
| PixelsLargerThanImage.  (* "new pixels (..) cannot be larger than image (..)" *)

(** How a run ends: it returns, it aborts on a failed assertion, or it
    leaves the behaviour the language defines (an access outside an
    array). *)
Inductive status : Type :=
| Completed
| Aborted (e : failure)
| Undefined.

(** ** Sorting

    [int blocs__compare_area(const void* a, const void* b)] *)
Definition blocs__compare_area (a b : blocs__texture) : Z :=
  Int32.sub (rect_h (tex_rect b)) (rect_h (tex_rect a)).

(** the lambda given to [std::sort]: [a.rect.h > b.rect.h] *)
Definition taller (a b : blocs__texture) : bool :=
  rect_h (tex_rect a) >? rect_h (tex_rect b).

(** [in_order l a b]: [a] may stand before [b] in an array sorted with the
    comparison of program [l]. *)
Definition in_order (l : lang) (a b : blocs__texture) : bool :=
  match l with
  | C99 => blocs__compare_area a b <=? 0
  | Cpp17 => negb (taller b a)
  end.

(** [qsort] and [std::sort] are library functions: the program is given
    one. *)
Class LibrarySort (l : lang) : Type := {
  sort_textures : list blocs__texture -> list blocs__texture
}.

(** What the C and C++ standards promise of them is all that is assumed:
    the array is rearranged (a permutation) and comes out ordered by the
    comparison.  The order of elements that compare equal is left open by
    both standards. *)
Definition sort_contract (l : lang) (S : LibrarySort l) : Prop :=
  (forall ts, Permutation ts (sort_textures ts)) /\
  (forall ts, Sorted (fun a b => in_order l a b = true) (sort_textures ts)).

(** Two sorts meeting that contract, both by insertion: the first one leaves
    equal elements in their order, the second one swaps them. *)
Section Insertion.
Context {A : Type} (le : A -> A -> bool).

Fixpoint insert_after_equals (a : A) (xs : list A) : list A :=
  match xs with
  | [] => [a]
  | x :: xs' => if le x a then x :: insert_after_equals a xs' else a :: x :: xs'
  end.

Fixpoint insert_before_equals (a : A) (xs : list A) : list A :=
  match xs with
  | [] => [a]
  | x :: xs' => if le a x then a :: x :: xs' else x :: insert_before_equals a xs'
  end.

Definition stable_sort (xs : list A) : list A :=
  foldr insert_before_equals [] xs.

Definition reversing_sort (xs : list A) : list A :=
  foldr insert_after_equals [] xs.
End Insertion.

(** a library sort that keeps the order of equal elements *)
Definition stable_library_sort (l : lang) : LibrarySort l :=
  {| sort_textures := stable_sort (in_order l) |}.

(** a library sort that reverses the order of equal elements *)
Definition reversing_library_sort (l : lang) : LibrarySort l :=
  {| sort_textures := reversing_sort (in_order l) |}.

(** ** The packer: [blocs__pack_atlas] / [atlas::pack] *)

(** the [max] macro of the C header ([_a > _b ? _a : _b]) and [std::max] *)
Definition max_int (a b : Z) : Z := if a >? b then a else b.

(** [int padding = expand * 2 + border;] *)
Definition padding_of (expand border : Z) : Z :=
  Int32.add (Int32.mul expand 2) border.

(** the locals [area], [max_w], [max_h] of the first loop *)
Record totals : Type := Totals {
  area : Z;
  max_w : Z;
  max_h : Z
}.

(** one turn of the first loop *)
Definition measure (padding : Z) (acc : totals) (t : blocs__texture) : totals :=
  let rect := tex_rect t in
  {| area := Int32.add (area acc)
               (Int32.mul (Int32.add (rect_w rect) padding)
                          (Int32.add (rect_h rect) padding));
     max_w := max_int (max_w acc) (Int32.add (rect_w rect) padding);
     max_h := max_int (max_h acc) (Int32.add (rect_h rect) padding) |}.

Definition measure_all (padding : Z) (textures : list blocs__texture) : totals :=
  fold_left (measure padding) textures {| area := 0; max_w := 0; max_h := 0 |}.

(** [max_w <= size && max_h <= size] *)
Definition max_size_ok (tot : totals) (size : Z) : bool :=
  (max_w tot <=? size) && (max_h tot <=? size).

(** [area <= size * size * suboptimal_coefficient]: the product [size * size]
    is an [int] product, converted to [double] for the multiplication by
    [0.85]; [area] is converted to [double] for the comparison. *)
Definition area_ok (tot : totals) (size : Z) : bool :=
  Double.leb (Double.of_int (area tot))
             (Double.mul (Double.of_int (Int32.mul size size)) Double.lit_0_85).

(** the assertion at the head of the placement loop: [<=] in C, [<] in C++ *)
Definition size_assertion (l : lang) (size : Z) (rect : blocs__rect) : bool :=
  match l with
  | C99 => (rect_w rect <=? size) && (rect_h rect <=? size)
  | Cpp17 => (rect_w rect <? size) && (rect_h rect <? size)
  end.

(** The free spaces: [blocs__rect spaces[len]; int n] in C (the live part
    [spaces[0..n-1]] is the list), [std::vector<rect> spaces] in C++.
    [capacity l len] is the number of slots there are to write to. *)
Definition capacity (l : lang) (len : nat) : option nat :=
  match l with
  | C99 => Some len
  | Cpp17 => None
  end.

Definition has_room (cap : option nat) (n : nat) : bool :=
  match cap with
  | Some c => (n <? c)%nat
  | None => true
  end.

(** [for (int j = n - 1; j >= 0; j--)]: the scan of the free spaces from the
    last one down, [n] being the number of indices still to visit; the
    answer is the index and the copy [space] of the first space that is not
    skipped by [if (w > space.w || h > space.h) continue;]. *)
Fixpoint scan_spaces (spaces : list blocs__rect) (w h : Z) (n : nat)
  : option (nat * blocs__rect) :=
  match n with
  | O => None
  | S j =>
      match spaces !! j with
      | Some space =>
          if (w >? rect_w space) || (h >? rect_h space)
          then scan_spaces spaces w h j
          else Some (j, space)
      | None => None
      end
  end.

(** [spaces[j].x += w; spaces[j].w -= w;] *)
Definition cut_left (w : Z) (s : blocs__rect) : blocs__rect :=
  {| rect_x := Int32.add (rect_x s) w; rect_y := rect_y s;
     rect_w := Int32.sub (rect_w s) w; rect_h := rect_h s |}.

(** [spaces[j].y += h; spaces[j].h -= h;] *)
Definition cut_top (h : Z) (s : blocs__rect) : blocs__rect :=
  {| rect_x := rect_x s; rect_y := Int32.add (rect_y s) h;
     rect_w := rect_w s; rect_h := Int32.sub (rect_h s) h |}.

(** [blocs__rect new_space = { space.x + w, space.y, space.w - w, h };] *)
Definition new_space (space : blocs__rect) (w h : Z) : blocs__rect :=
  {| rect_x := Int32.add (rect_x space) w; rect_y := rect_y space;
     rect_w := Int32.sub (rect_w space) w; rect_h := h |}.

(** The four cases that follow the placement of a [w] x [h] box in
    [spaces[j]], of which [space] is the copy.  [None]: the new space is
    written past the last slot of the array. *)
Definition update_spaces (cap : option nat) (spaces : list blocs__rect)
    (j : nat) (space : blocs__rect) (w h : Z) : option (list blocs__rect) :=
  if (w =? rect_w space) && (h =? rect_h space) then
    (* last = spaces[--n]; if (j < n) spaces[j] = last; *)
    let n := pred (length spaces) in
    match spaces !! n with
    | Some last_space =>
        Some (if (j <? n)%nat then <[j := last_space]> (take n spaces)
              else take n spaces)
    | None => None
    end
  else if h =? rect_h space then
    Some (alter (cut_left w) j spaces)
  else if w =? rect_w space then
    Some (alter (cut_top h) j spaces)
  else if has_room cap (length spaces) then
    (* spaces[n++] = new_space; spaces[j].y += h; spaces[j].h -= h; *)
    Some (alter (cut_top h) j (spaces ++ [new_space space w h]))
  else None.

(** [textures[i].rect.x = space.x + expand; textures[i].rect.y = space.y + expand;] *)
Definition move_to (expand : Z) (space : blocs__rect) (t : blocs__texture)
  : blocs__texture :=
  {| tex_rect := {| rect_x := Int32.add (rect_x space) expand;
                    rect_y := Int32.add (rect_y space) expand;
                    rect_w := rect_w (tex_rect t);
                    rect_h := rect_h (tex_rect t) |};
     name_index := name_index t;
     buffer_index := buffer_index t |}.

(** The state a run of the placement loop ends in: how it ended, the texture
    array, each texture with a mark telling whether the scan reached the
    placement for it (the mark is not in the program: it records that the
    [break] was taken), and the free spaces. *)
Record run : Type := Run {
  run_status : status;
  run_textures : list (blocs__texture * bool);
  run_spaces : list blocs__rect
}.

Definition unplaced (ts : list blocs__texture) : list (blocs__texture * bool) :=
  map (fun t => (t, false)) ts.

Definition run_cons (t : blocs__texture * bool) (r : run) : run :=
  {| run_status := run_status r;
     run_textures := t :: run_textures r;
     run_spaces := run_spaces r |}.

Section PlacementLoop.
Variables (l : lang) (size expand padding : Z) (len : nat).

(** [for (int i = 0; i < len; i++) { ... }] over the textures still to
    visit *)
Fixpoint pack_loop (spaces : list blocs__rect) (todo : list blocs__texture)
  : run :=
  match todo with
  | [] => {| run_status := Completed; run_textures := []; run_spaces := spaces |}
  | t :: rest =>
      let rect := tex_rect t in
      if negb (size_assertion l size rect) then
        {| run_status := Aborted TextureLargerThanMax;
           run_textures := unplaced todo; run_spaces := spaces |}
      else
        let w := Int32.add (rect_w rect) padding in
        let h := Int32.add (rect_h rect) padding in
        match scan_spaces spaces w h (length spaces) with
        | None => run_cons (t, false) (pack_loop spaces rest)
        | Some (j, space) =>
            let t' := move_to expand space t in
            match update_spaces (capacity l len) spaces j space w h with
            | Some spaces' => run_cons (t', true) (pack_loop spaces' rest)
            | None =>
                {| run_status := Undefined;
                   run_textures := (t', true) :: unplaced rest;
                   run_spaces := spaces |}
            end
        end
  end.
End PlacementLoop.

(** [blocs__rect start_space = { 0, 0, size, size };] *)
Definition start_space (size : Z) : blocs__rect :=
  {| rect_x := 0; rect_y := 0; rect_w := size; rect_h := size |}.

(** The whole of [blocs__pack_atlas(textures, len, size, expand, border)] and
    of [atlas::pack()], with [len] the length of [textures]. *)
Definition pack_run (l : lang) {S : LibrarySort l}
    (textures : list blocs__texture) (size expand border : Z) : run :=
  let padding := padding_of expand border in
  let tot := measure_all padding textures in
  if negb (max_size_ok tot size) then
    {| run_status := Aborted OversizedTexture;
       run_textures := unplaced textures; run_spaces := [] |}
  else if negb (area_ok tot size) then
    {| run_status := Aborted InsufficientSpace;
       run_textures := unplaced textures; run_spaces := [] |}
  else if negb (has_room (capacity l (length textures)) 0) then
    (* spaces[0] = start_space; in an array of no slot *)
    {| run_status := Undefined;
       run_textures := unplaced textures; run_spaces := [] |}
  else
    pack_loop l size expand padding (length textures)
              [start_space size] (sort_textures textures).

(** what the caller sees: how the call ended and the texture array *)
Definition pack (l : lang) {S : LibrarySort l}
    (textures : list blocs__texture) (size expand border : Z)
  : status * list blocs__texture :=
  let r := pack_run l textures size expand border in
  (run_status r, map fst (run_textures r)).

Definition blocs__pack_atlas {S : LibrarySort C99} := pack C99.
Definition atlas_pack {S : LibrarySort Cpp17} := pack Cpp17.

(** ** Geometry of the packing *)

(** the pixel [(px, py)] lies in the rectangle [r] *)
Definition covers (r : blocs__rect) (px py : Z) : Prop :=
  rect_x r <= px < rect_x r + rect_w r /\ rect_y r <= py < rect_y r + rect_h r.

(** two rectangles intersect when a pixel lies in both *)
Definition disjoint (a b : blocs__rect) : Prop :=
  forall px py, ~ (covers a px py /\ covers b px py).

Definition intersects (a b : blocs__rect) : bool :=
  (Z.max (rect_x a) (rect_x b) <? Z.min (rect_x a + rect_w a) (rect_x b + rect_w b))
  && (Z.max (rect_y a) (rect_y b) <? Z.min (rect_y a + rect_h a) (rect_y b + rect_h b)).

(** the rectangle lies in the square atlas of side [size] *)
Definition inside (size : Z) (r : blocs__rect) : Prop :=
  0 <= rect_x r /\ 0 <= rect_y r /\ 0 <= rect_w r /\ 0 <= rect_h r /\
  rect_x r + rect_w r <= size /\ rect_y r + rect_h r <= size.

(** The padded footprint of a placed texture: the rectangle of size
    [(w + 2*expand + border) x (h + 2*expand + border)] whose corner is the
    corner of the free space the texture was put in, [(x - expand, y - expand)]. *)
Definition footprint (expand border : Z) (t : blocs__texture) : blocs__rect :=
  let r := tex_rect t in
  {| rect_x := rect_x r - expand;
     rect_y := rect_y r - expand;
     rect_w := rect_w r + (2 * expand + border);
     rect_h := rect_h r + (2 * expand + border) |}.

(** some free space of the list covers the pixel *)
Definition region (spaces : list blocs__rect) (px py : Z) : Prop :=
  exists s, In s spaces /\ covers s px py.

Fixpoint all_disjoint (rs : list blocs__rect) : Prop :=
  match rs with
  | [] => True
  | r :: rs' => Forall (disjoint r) rs' /\ all_disjoint rs'
  end.

(** what is left of [space] once a [w] x [h] box sits in its corner *)
Definition remainder (space : blocs__rect) (w h : Z) : list blocs__rect :=
  if (w =? rect_w space) && (h =? rect_h space) then []
  else if h =? rect_h space then [cut_left w space]
  else if w =? rect_w space then [cut_top h space]
  else [cut_top h space; new_space space w h].

(** the box put in the corner of [space] *)
Definition corner_box (space : blocs__rect) (w h : Z) : blocs__rect :=
  {| rect_x := rect_x space; rect_y := rect_y space; rect_w := w; rect_h := h |}.

(** Inputs on which the [int] arithmetic of the packer does not overflow:
    the configuration holds pixel counts, and so do the textures. *)
Definition config_ok (size expand border : Z) : Prop :=
  0 <= expand /\ 0 <= border /\ 0 <= size <= Int32.max_signed /\
  2 * expand + border <= Int32.max_signed.

Definition texture_ok (expand border : Z) (t : blocs__texture) : Prop :=
  0 <= rect_w (tex_rect t) /\ 0 <= rect_h (tex_rect t) /\
  rect_w (tex_rect t) + (2 * expand + border) <= Int32.max_signed /\
  rect_h (tex_rect t) + (2 * expand + border) <= Int32.max_signed.

(** the padded area [(w + padding) * (h + padding)] summed over the textures *)
Definition padded_area (expand border : Z) (textures : list blocs__texture) : Z :=
  foldr (fun t acc =>
           (rect_w (tex_rect t) + (2 * expand + border)) *
           (rect_h (tex_rect t) + (2 * expand + border)) + acc) 0 textures.

(** every texture of the run was placed *)
Definition all_placed (r : run) : Prop :=
  Forall (fun tb => snd tb = true) (run_textures r).

(** The free spaces lie in the atlas and no two of them share a pixel. *)
Definition spaces_inv (size : Z) (spaces : list blocs__rect) : Prop :=
  Forall (inside size) spaces /\ all_disjoint spaces.

(** [a] lies in [b], pixel by pixel *)
Definition within (a b : blocs__rect) : Prop :=
  forall px py, covers a px py -> covers b px py.

(** no texture marked as placed shares a pixel of its padded footprint with
    another one *)
Fixpoint placed_apart (expand border : Z) (ts : list (blocs__texture * bool))
  : Prop :=
  match ts with
  | [] => True
  | tb :: ts' =>
      (snd tb = true ->
       Forall (fun tb' => snd tb' = true ->
                 disjoint (footprint expand border (fst tb))
                          (footprint expand border (fst tb'))) ts')
      /\ placed_apart expand border ts'
  end.

(** a texture as [blocs__add_texture] makes it: at (0, 0), [w] by [h] *)
Definition fresh_texture (w h name offset : Z) : blocs__texture :=
  {| tex_rect := {| rect_x := 0; rect_y := 0; rect_w := w; rect_h := h |};
     name_index := name; buffer_index := offset |}.


(** what [pack] never changes of a texture: its size, its name and its
    place in the staging buffer *)
Definition identity (t : blocs__texture) : Z * Z * Z * Z :=
  (rect_w (tex_rect t), rect_h (tex_rect t), name_index t, buffer_index t).

(** the textures in the order the placement loop visits them *)
Definition placement_order (r : run) : list blocs__texture :=
  map fst (run_textures r).

(** heights from tallest to shortest *)
Definition tallest_first (ts : list blocs__texture) : Prop :=
  Sorted (fun ha hb => hb <= ha) (map (fun t => rect_h (tex_rect t)) ts).

(** ** Memory

    A buffer ([uint8_t*] with the block it points into) is the list of its
    bytes; an index outside the block leaves the behaviour the language
    defines. *)

Definition load (m : list byte) (i : Z) : option byte :=
  if 0 <=? i then m !! Z.to_nat i else None.

Definition store (m : list byte) (i : Z) (v : byte) : option (list byte) :=
  if (0 <=? i) && (i <? Z.of_nat (length m))
  then Some (<[Z.to_nat i := v]> m)
  else None.

(** sequencing: the rest of the code runs when the first part returned *)
Definition and_then {A : Type} (r : status * A) (k : A -> status * A)
  : status * A :=
  match r with
  | (Completed, a) => k a
  | _ => r
  end.

Fixpoint run_steps {A B : Type} (f : B -> A -> status * A) (xs : list B) (a : A)
  : status * A :=
  match xs with
  | [] => (Completed, a)
  | x :: xs' => and_then (f x a) (run_steps f xs')
  end.

(** [dst[di] = src[si];] *)
Definition copy_byte (src : list byte) (si di : Z) (dst : list byte)
  : status * list byte :=
  match load src si with
  | Some v =>
      match store dst di v with
      | Some dst' => (Completed, dst')
      | None => (Undefined, dst)
      end
  | None => (Undefined, dst)
  end.

(** [memcpy(dst + d, src + s, n)], byte after byte; a negative [int] count
    is a huge [size_t] one. *)
Definition memcpy (src : list byte) (s d n : Z) (dst : list byte)
  : status * list byte :=
  if n <? 0 then (Undefined, dst)
  else run_steps (fun k => copy_byte src (s + k) (d + k)) (seqZ 0 n) dst.

(** [for (int i = lo; i < hi; i += step) body], the test written out; the
    loops of the program end within [hi - lo] turns unless the counter
    overflows. *)
Fixpoint for_lt {A : Type} (fuel : nat) (i hi step : Z)
    (body : Z -> A -> status * A) (a : A) : status * A :=
  if i <? hi then
    match fuel with
    | O => (Undefined, a)
    | S fuel' =>
        and_then (body i a) (for_lt fuel' (Int32.add i step) hi step body)
    end
  else (Completed, a).

Definition for_loop {A : Type} (lo hi step : Z)
    (body : Z -> A -> status * A) (a : A) : status * A :=
  for_lt (Z.to_nat (hi - lo)) lo hi step body a.

(** [typedef struct blocs__image { int32_t w; int32_t h; uint8_t* data; }];
    [None] is the null pointer. *)
Record blocs__image : Type := Image {
  img_w : Z;
  img_h : Z;
  img_data : option (list byte)
}.

(** [blocs__clear_pixels]: [data = malloc(w * h * CHANNELS); memset(data, 0, ..)] *)
Definition blocs__clear_pixels (image : blocs__image) : blocs__image :=
  {| img_w := img_w image; img_h := img_h image;
     img_data :=
       Some (replicate
               (Z.to_nat (Int32.mul (Int32.mul (img_w image) (img_h image)) CHANNELS))
               Byte.x00) |}.

(** ** Registration: [blocs__add_texture] / [atlas::add_texture] *)

(** the texture array, the staging buffer and [buffer_index] *)
Record staging : Type := Staging {
  st_textures : list blocs__texture;
  st_buffer : list byte;
  st_buffer_index : Z
}.

(** [uint32_t buffer_length = image.w * image.h * CHANNELS;] *)
Definition buffer_length (image : blocs__image) : Z :=
  UInt32.wrap (Int32.mul (Int32.mul (img_w image) (img_h image)) CHANNELS).

(** [textures[index] = texture] in C, [m_textures.push_back(..)] in C++ *)
Definition put_texture (l : lang) (textures : list blocs__texture) (index : Z)
    (t : blocs__texture) : option (list blocs__texture) :=
  match l with
  | C99 =>
      if (0 <=? index) && (index <? Z.of_nat (length textures))
      then Some (<[Z.to_nat index := t]> textures)
      else None
  | Cpp17 => Some (textures ++ [t])
  end.

(** [blocs__add_texture(textures, index, buffer, &buffer_index, image,
    name_index)]; the C++ method checks the size of the image as well, which
    the C program does in [main] (see [register]). *)
Definition add_texture (l : lang) (size : Z) (st : staging) (index : Z)
    (image : blocs__image) (name : Z) : status * staging :=
  match img_data image with
  | None => (Aborted CouldNotReadTexture, st)
  | Some data =>
      if match l with
         | C99 => false
         | Cpp17 => negb ((img_w image <? size) && (img_h image <? size))
         end
      then (Aborted PixelDataTooLarge, st)
      else
        let texture :=
          {| tex_rect := {| rect_x := 0; rect_y := 0;
                            rect_w := img_w image; rect_h := img_h image |};
             name_index := name;
             buffer_index := st_buffer_index st |} in
        match put_texture l (st_textures st) index texture with
        | None => (Undefined, st)
        | Some textures' =>
            match memcpy data 0 (st_buffer_index st) (buffer_length image)
                         (st_buffer st) with
            | (Completed, buffer') =>
                (Completed,
                 {| st_textures := textures'; st_buffer := buffer';
                    st_buffer_index :=
                      UInt32.add (st_buffer_index st) (buffer_length image) |})
            | (s, _) => (s, st)
            end
        end
  end.

Definition blocs__add_texture := add_texture C99 0.
Definition atlas_add_texture := add_texture Cpp17.

(** The loop of [main] that registers the images, [i] being its counter:
    [blocs__assert(image.w <= atlas_size && image.h <= atlas_size, ..);
     blocs__add_texture(textures, i, buffer, &buffer_index, image, i);] *)
Fixpoint register (l : lang) (size : Z) (images : list blocs__image) (i : Z)
    (st : staging) : status * staging :=
  match images with
  | [] => (Completed, st)
  | image :: rest =>
      if match l with
         | C99 => negb ((img_w image <=? size) && (img_h image <=? size))
         | Cpp17 => false
         end
      then (Aborted PixelDataTooLarge, st)
      else and_then (add_texture l size st i image i)
                    (register l size rest (Int32.add i 1))
  end.

(** the offsets the images get, the first one being [offset] *)
Fixpoint offsets_from (offset : Z) (images : list blocs__image) : list Z :=
  match images with
  | [] => []
  | image :: rest =>
      offset :: offsets_from (offset + img_w image * img_h image * 4) rest
  end.

(** ** The compositor: [blocs__set_pixels] and [blocs__generate_atlas] *)

(** [blocs__set_pixels(image, data, dst)], with [data] the pointer
    [buffer + offset] *)
Definition blocs__set_pixels (image : blocs__image) (buffer : list byte)
    (offset : Z) (dst : blocs__rect) : status * blocs__image :=
  if negb ((Int32.add (rect_x dst) (rect_w dst) <=? img_w image)
           && (Int32.add (rect_y dst) (rect_h dst) <=? img_h image))
  then (Aborted PixelsLargerThanImage, image)
  else
    match img_data image with
    | None => (Undefined, image)
    | Some data =>
        let (s, data') :=
          for_loop 0 (rect_h dst) 1
            (fun y =>
               let from := Int32.mul y (rect_w dst) in
               let to := Int32.add (rect_x dst)
                           (Int32.mul (Int32.add (rect_y dst) y) (img_w image)) in
               memcpy buffer (offset + Int32.mul from CHANNELS)
                      (Int32.mul to CHANNELS)
                      (Int32.mul (rect_w dst) CHANNELS))
            data in
        (s, {| img_w := img_w image; img_h := img_h image;
               img_data := Some data' |})
    end.

(** [v < 0 ? 0 : v > hi ? hi : v] *)
Definition clamp_to_edge (v hi : Z) : Z :=
  if v <? 0 then 0 else if v >? hi then hi else v.

(** the body of the two loops of the branch [expand > 0]: the four bytes of
    one pixel; [x] and [y] count bytes, not pixels *)
Definition copy_pixel (buffer : list byte) (offset : Z) (rect : blocs__rect)
    (atlas_w : Z) (y x : Z) (dst : list byte) : status * list byte :=
  let src_x := clamp_to_edge x (Int32.mul (Int32.sub (rect_w rect) 1) CHANNELS) in
  let src_y := clamp_to_edge y (Int32.mul (Int32.sub (rect_h rect) 1) CHANNELS) in
  let d := Int32.add (Int32.add (Int32.mul (rect_x rect) CHANNELS) x)
             (Int32.mul (Int32.add (Int32.mul (rect_y rect) CHANNELS) y) atlas_w) in
  let s := Int32.add src_x (Int32.mul src_y (rect_w rect)) in
  run_steps (fun c => copy_byte buffer (offset + Int32.add s c) (Int32.add d c))
            [0; 1; 2; 3] dst.

(** the branch [expand > 0] for one texture *)
Definition expand_pixels (image : blocs__image) (buffer : list byte)
    (offset : Z) (rect : blocs__rect) (expand : Z) : status * blocs__image :=
  match img_data image with
  | None => (Undefined, image)
  | Some data =>
      let (s, data') :=
        for_loop (Int32.mul (Int32.neg expand) CHANNELS)
                 (Int32.mul (Int32.add (rect_h rect) expand) CHANNELS) CHANNELS
          (fun y =>
             for_loop (Int32.mul (Int32.neg expand) CHANNELS)
                      (Int32.mul (Int32.add (rect_w rect) expand) CHANNELS) CHANNELS
                      (copy_pixel buffer offset rect (img_w image) y))
          data in
      (s, {| img_w := img_w image; img_h := img_h image;
             img_data := Some data' |})
  end.

(** [blocs__generate_atlas(textures, len, buffer, atlas_bmp, expand)] and the
    loop of [atlas::generate_bitmap()].  The C++ loop has the same two
    branches; before the call of [set_pixels] it also reads the first four
    bytes of the texture in the staging buffer for a log line, which writes
    nothing to the atlas and is left out here. *)
Definition blocs__generate_atlas (textures : list blocs__texture)
    (buffer : list byte) (atlas_bmp : blocs__image) (expand : Z)
  : status * blocs__image :=
  run_steps
    (fun texture image =>
       if expand >? 0
       then expand_pixels image buffer (buffer_index texture) (tex_rect texture) expand
       else blocs__set_pixels image buffer (buffer_index texture) (tex_rect texture))
    textures atlas_bmp.

(** what [main] does after the packing: an atlas of [size] x [size]
    transparent pixels, then the blits *)
Definition compose (textures : list blocs__texture) (buffer : list byte)
    (size expand : Z) : status * blocs__image :=
  blocs__generate_atlas textures buffer
    (blocs__clear_pixels {| img_w := size; img_h := size; img_data := None |})
    expand.

(** the byte [c] of the pixel [(px, py)] of an image *)
Definition image_byte (image : blocs__image) (px py c : Z) : option byte :=
  match img_data image with
  | Some data => load data ((px + py * img_w image) * CHANNELS + c)
  | None => None
  end.

(** the byte [c] of the pixel [(sx, sy)] of a texture in the staging buffer *)
Definition source_byte (buffer : list byte) (t : blocs__texture) (sx sy c : Z)
  : option byte :=
  load buffer (buffer_index t + (sx + sy * rect_w (tex_rect t)) * CHANNELS + c).

(** [clamp(v, 0, hi)] *)
Definition clamp (v lo hi : Z) : Z := Z.max lo (Z.min v hi).

(** ** Loops and blits as lists of byte copies *)

(** the values a loop counter takes: [n] of them from [i], [step] apart *)
Fixpoint counters (n : nat) (i step : Z) : list Z :=
  match n with
  | O => []
  | S n' => i :: counters n' (i + step) step
  end.

(** one byte copy of a blit: from index [fst] of the source to index [snd]
    of the destination *)
Definition copy_entry (src : list byte) (e : Z * Z) (dst : list byte)
  : status * list byte :=
  copy_byte src (fst e) (snd e) dst.

(** no destination index is given two different sources *)
Definition functional_plan (plan : list (Z * Z)) : Prop :=
  forall si si' di, In (si, di) plan -> In (si', di) plan -> si = si'.

(** the bytes of the images, [w * h * 4] each *)
Definition total_bytes (images : list blocs__image) : Z :=
  foldr (fun image acc => img_w image * img_h image * 4 + acc) 0 images.

(** an image that was read, with its [w * h] RGBA pixels, and that passes
    the size check of the program *)
Definition image_ok (l : lang) (size : Z) (image : blocs__image) : Prop :=
  0 <= img_w image /\ 0 <= img_h image /\
  (exists data, img_data image = Some data /\
                img_w image * img_h image * 4 <= Z.of_nat (length data)) /\
  match l with
  | C99 => img_w image <= size /\ img_h image <= size
  | Cpp17 => img_w image < size /\ img_h image < size
  end.

(** the texture array before the registration: [len] slots to write to in
    C, an empty vector in C++ *)
Definition array_ready (l : lang) (textures : list blocs__texture) (len : nat)
  : Prop :=
  match l with
  | C99 => length textures = len
  | Cpp17 => textures = []
  end.

(** the index, in the bytes of an image [width] wide, of the byte [c] of
    the pixel [(px, py)] *)
Definition byte_index (width px py c : Z) : Z := (px + py * width) * CHANNELS + c.

(** the pixels a blit writes: the rectangle of the texture and [expand]
    pixels around it *)
Definition written (expand : Z) (t : blocs__texture) : blocs__rect :=
  let r := tex_rect t in
  {| rect_x := rect_x r - expand; rect_y := rect_y r - expand;
     rect_w := rect_w r + 2 * expand; rect_h := rect_h r + 2 * expand |}.

(** [plan] copies, for every pixel [(dx, dy)] of the texture and of its
    margin, counted from the corner of the texture, the four bytes of the
    source pixel with the coordinates clamped to the texture *)
Definition is_blit_plan (width expand : Z) (t : blocs__texture)
    (plan : list (Z * Z)) : Prop :=
  let r := tex_rect t in
  forall si di, In (si, di) plan <->
    exists dx dy c,
      - expand <= dx < rect_w r + expand /\
      - expand <= dy < rect_h r + expand /\ 0 <= c < 4 /\
      si = buffer_index t
           + (clamp dx 0 (rect_w r - 1) + clamp dy 0 (rect_h r - 1) * rect_w r)
             * CHANNELS + c /\
      di = byte_index width (rect_x r + dx) (rect_y r + dy) c.

(** the byte copies of [copy_pixel], the arithmetic being exact *)
Definition pixel_plan (offset : Z) (rect : blocs__rect) (atlas_w y x : Z)
  : list (Z * Z) :=
  map (fun c =>
         (offset + (clamp_to_edge x ((rect_w rect - 1) * CHANNELS)
                    + clamp_to_edge y ((rect_h rect - 1) * CHANNELS) * rect_w rect
                    + c),
          rect_x rect * CHANNELS + x
          + (rect_y rect * CHANNELS + y) * atlas_w + c))
      [0; 1; 2; 3].

(** the byte copies of the branch [expand > 0] for one texture *)
Definition expand_plan (offset : Z) (rect : blocs__rect) (atlas_w expand : Z)
  : list (Z * Z) :=
  concat (map (fun y =>
                 concat (map (pixel_plan offset rect atlas_w y)
                             (counters (Z.to_nat (rect_w rect + 2 * expand))
                                       (- expand * CHANNELS) CHANNELS)))
              (counters (Z.to_nat (rect_h rect + 2 * expand))
                        (- expand * CHANNELS) CHANNELS)).

(** the byte copies of [blocs__set_pixels]: one [memcpy] a row *)
Definition row_plan (offset : Z) (rect : blocs__rect) (atlas_w y : Z)
  : list (Z * Z) :=
  map (fun k => (offset + y * rect_w rect * CHANNELS + k,
                 (rect_x rect + (rect_y rect + y) * atlas_w) * CHANNELS + k))
      (seqZ 0 (rect_w rect * CHANNELS)).

Definition rows_plan (offset : Z) (rect : blocs__rect) (atlas_w : Z)
  : list (Z * Z) :=
  concat (map (row_plan offset rect atlas_w)
              (counters (Z.to_nat (rect_h rect)) 0 1)).

(** a placed texture the compositor can blit: it has pixels, they are in
    the staging buffer, and the texture with its margin lies in the atlas *)
Definition source_ok (buffer : list byte) (t : blocs__texture) : Prop :=
  1 <= rect_w (tex_rect t) /\ 1 <= rect_h (tex_rect t) /\
  0 <= buffer_index t /\
  buffer_index t + rect_w (tex_rect t) * rect_h (tex_rect t) * 4
    <= Z.of_nat (length buffer).

Definition blit_ok (size expand : Z) (buffer : list byte) (t : blocs__texture)
  : Prop :=
  source_ok buffer t /\ inside size (written expand t).

(** ** Rounding of doubles *)

(** what [k] right shifts leave of [m]: the quotient, the bit shifted out
    last ([shr_r]) and whether a bit shifted out before it was set ([shr_s]) *)
Definition shr_inv (m k : Z) (mrs : shr_record) : Prop :=
  0 <= k /\ 0 <= shr_m mrs /\ (shr_r mrs = true -> 1 <= k) /\
  exists rest, 0 <= rest /\ 2 * rest < 2 ^ k /\
    m = shr_m mrs * 2 ^ k + (if shr_r mrs then 2 ^ (k - 1) else 0) + rest /\
    shr_s mrs = negb (rest =? 0).

(** ** A small run, for the examples

    Three images of 2 x 2, 1 x 3 and 1 x 1 opaque grey pixels, registered in
    that order in a staging buffer of 8 x 8 x 4 bytes. *)

Definition grey (v : byte) : list byte := [v; v; v; Byte.xff].

Definition sample_images : list blocs__image :=
  [ {| img_w := 2; img_h := 2;
       img_data := Some (grey Byte.x01 ++ grey Byte.x02 ++ grey Byte.x03
                         ++ grey Byte.x04) |};
    {| img_w := 1; img_h := 3;
       img_data := Some (grey Byte.x05 ++ grey Byte.x06 ++ grey Byte.x07) |};
    {| img_w := 1; img_h := 1; img_data := Some (grey Byte.x08) |} ].

Definition sample_textures : list blocs__texture :=
  [fresh_texture 2 2 0 0; fresh_texture 1 3 1 16; fresh_texture 1 1 2 28].

Definition sample_buffer : list byte :=
  grey Byte.x01 ++ grey Byte.x02 ++ grey Byte.x03 ++ grey Byte.x04
  ++ grey Byte.x05 ++ grey Byte.x06 ++ grey Byte.x07 ++ grey Byte.x08
  ++ replicate 224 Byte.x00.

(** ** Areas *)

(** the number of pixels of a rectangle *)
Definition rect_area (r : blocs__rect) : Z := rect_w r * rect_h r.

(** the pixels of the free spaces *)
Definition free_area (spaces : list blocs__rect) : Z :=
  foldr (fun s acc => rect_area s + acc) 0 spaces.

(** the pixels taken by the padded boxes of the textures marked as placed *)
Definition placed_area (expand border : Z) (ts : list (blocs__texture * bool)) : Z :=
  foldr (fun (tb : blocs__texture * bool) acc =>
           (if snd tb
            then (rect_w (tex_rect (fst tb)) + (2 * expand + border)) *
                 (rect_h (tex_rect (fst tb)) + (2 * expand + border))
            else 0) + acc) 0 ts.

(** how many textures are marked as placed *)
Definition placed_count (ts : list (blocs__texture * bool)) : nat :=
  length (filter (fun tb : blocs__texture * bool => snd tb = true) ts).

(** ** From the images to the atlas: the middle of [main] *)

(** the byte [k] of the pixel data of an image *)
Definition image_data_byte (image : blocs__image) (k : Z) : option byte :=
  match img_data image with
  | Some data => load data k
  | None => None
  end.

(** the textures the registration loop of [main] makes of the images: the
    [i]-th one is [w_i] x [h_i] at (0, 0), has the name [i] and starts in
    the staging buffer where the one before ends *)
Fixpoint registered (images : list blocs__image) (i offset : Z)
  : list blocs__texture :=
  match images with
  | [] => []
  | image :: rest =>
      fresh_texture (img_w image) (img_h image) i offset
      :: registered rest (i + 1) (offset + img_w image * img_h image * 4)
  end.

(** the bytes of the images lie one after the other in [buffer] from
    [offset] on *)
Fixpoint staged (images : list blocs__image) (offset : Z) (buffer : list byte)
  : Prop :=
  match images with
  | [] => True
  | image :: rest =>
      (forall k, 0 <= k < img_w image * img_h image * 4 ->
                 load buffer (offset + k) = image_data_byte image k)
      /\ staged rest (offset + img_w image * img_h image * 4) buffer
  end.



(** ** C strings and the file system API

    A string ([const char*]) is the list of the bytes before its
    terminator; a pointer into a string is the string from there on. *)

Definition c_string (s : list byte) : Prop := ~ In Byte.x00 s.

Definition strlen (s : list byte) : Z := Z.of_nat (length s).

(** [strrchr(s, c)]: the index of the last [c] of [s]; [None] is the null
    pointer *)
Fixpoint strrchr (s : list byte) (c : byte) : option nat :=
  match s with
  | [] => None
  | b :: s' =>
      match strrchr s' c with
      | Some i => Some (S i)
      | None => if Byte.eqb b c then Some O else None
      end
  end.

(** [strcmp(a, b)]: the difference of the first two bytes that differ, as
    [unsigned char]s, the terminator counting as 0 *)
Fixpoint strcmp (a b : list byte) : Z :=
  match a, b with
  | [], [] => 0
  | [], y :: _ => - Z.of_N (Byte.to_N y)
  | x :: _, [] => Z.of_N (Byte.to_N x)
  | x :: a', y :: b' =>
      if Byte.eqb x y then strcmp a' b'
      else Z.of_N (Byte.to_N x) - Z.of_N (Byte.to_N y)
  end.

(** [#define PNG_EXT "png"] and [#define JPG_EXT "jpg"] of the C header *)
Definition PNG_EXT : list byte := ["p"; "n"; "g"]%byte.
Definition JPG_EXT : list byte := ["j"; "p"; "g"]%byte.

(** [const char* dot = strrchr(file, '.');
     if (!dot || dot == file) return file;
     return dot + 1;] *)
Definition blocs__file_ext (file : list byte) : list byte :=
  match strrchr file "."%byte with
  | None => file
  | Some O => file
  | Some (S i) => drop (S (S i)) file
  end.

(** [strcmp(ext, PNG_EXT) == 0 || strcmp(ext, JPG_EXT) == 0] *)
Definition blocs__ext_is_img (ext : list byte) : bool :=
  (strcmp ext PNG_EXT =? 0) || (strcmp ext JPG_EXT =? 0).

(** [strlen(s + 1)]: the pointer is moved first; on the empty string it
    then stands after the terminator and [strlen] reads what is not the
    string's. *)
Definition strlen_from_second (s : list byte) : option Z :=
  match s with
  | [] => None
  | _ :: s' => Some (strlen s')
  end.

Section Allocation.
(** [malloc(n)] hands out a block of [n + slack] bytes.  The C standard
    promises the [n] bytes asked for ([slack = 0]); allocators round the
    request up, and the bytes past the [n]-th, which the program has no
    right to, are then part of the block all the same. *)
Variable slack : Z.

(** [strcpy(block, src)] (or [sprintf]) into a block that was asked [requested] bytes:
    the bytes of [src] and the terminator must fit. *)
Definition copy_to_block (requested : Z) (src : list byte)
  : option (list byte) :=
  if strlen src + 1 <=? requested + slack then Some src else None.

(** [blocs__file_path]:
    [char* path = malloc(strlen(file + 1)); strcpy(path, file);
     const char* slash = strrchr(path, '/');
     int index = slash - path; path[index] = '\0'; return path;]
    Without a ['/'], [slash] is null and [slash - path] is no index. *)
Definition blocs__file_path (file : list byte) : status * list byte :=
  match strlen_from_second file with
  | None => (Undefined, [])
  | Some n =>
      match copy_to_block n file with
      | None => (Undefined, [])
      | Some path =>
          match strrchr path "/"%byte with
          | None => (Undefined, path)
          | Some index => (Completed, take index path)
          end
      end
  end.

(** [blocs__file_name]:
    [const char* slash = strrchr(file, '/');
     const char* file_without_path = !slash || slash == file ? file : slash + 1;
     char* name = malloc(strlen(file_without_path + 1));
     strcpy(name, file_without_path);
     const char* dot = strrchr(name, '.');
     if (!dot || dot == name) return name;
     int index = dot - name; name[index] = '\0'; return name;] *)
Definition blocs__file_name (file : list byte) : status * list byte :=
  let file_without_path :=
    match strrchr file "/"%byte with
    | None => file
    | Some O => file
    | Some (S i) => drop (S (S i)) file
    end in
  match strlen_from_second file_without_path with
  | None => (Undefined, [])
  | Some n =>
      match copy_to_block n file_without_path with
      | None => (Undefined, [])
      | Some name =>
          match strrchr name "."%byte with
          | None => (Completed, name)
          | Some O => (Completed, name)
          | Some (S i) => (Completed, take (S i) name)
          end
      end
  end.

(** The two paths [main] writes to:
    [png_output = malloc(strlen(output_dir) + strlen(output_name) + 6);
     sprintf(png_output, "%s/%s.png", output_dir, output_name);]
    and the same with [7] and [".json"]. *)
Definition output_path (extra : Z) (suffix : list byte)
    (output_dir output_name : list byte) : option (list byte) :=
  copy_to_block (strlen output_dir + strlen output_name + extra)
                  (output_dir ++ "/"%byte :: output_name ++ suffix).

Definition png_output : list byte -> list byte -> option (list byte) :=
  output_path 6 ["."; "p"; "n"; "g"]%byte.

Definition json_output : list byte -> list byte -> option (list byte) :=
  output_path 7 ["."; "j"; "s"; "o"; "n"]%byte.
End Allocation.

(** ** Directories: [blocs__size_dir] and [blocs__enumerate_dir]

    What the two functions see of the file system: for a path, by the
    [d_type] of its entry, a regular file, a directory or something else
    (a link, a device, ...); for a directory, the stream that [opendir]
    opens on it, [None] when it returns the null pointer, as the list of the
    entries [readdir] yields, each with its [d_name]. *)
#[warnings="-register-all"]
Inductive node : Type :=
| DT_REG
| DT_DIR (stream : option (list (list byte * node)))
| DT_other.

(** how one of the two functions ends: it returns, it aborts on the
    assertion that [opendir] gave a stream, or it writes [files[*index]]
    past the array *)
Inductive walked (A : Type) : Type :=
| Returned (a : A)
| CouldNotOpen
| PastTheArray.
Arguments Returned {A} a.
Arguments CouldNotOpen {A}.
Arguments PastTheArray {A}.

(** [strcmp(direntp->d_name, ".") == 0 || strcmp(direntp->d_name, "..") == 0] *)
Definition is_dots (d_name : list byte) : bool :=
  (strcmp d_name ["."]%byte =? 0) || (strcmp d_name ["."; "."]%byte =? 0).

(** the [while ((direntp = readdir(dir_ptr)))] loop of [blocs__size_dir],
    [size_dir] being the function itself, called on the sub-directories *)
Definition size_entries (size_dir : node -> walked Z)
  : list (list byte * node) -> Z -> walked Z :=
  fix loop (es : list (list byte * node)) (count : Z) : walked Z :=
    match es with
    | [] => Returned count
    | (d_name, n) :: es' =>
        if is_dots d_name then loop es' count
        else
          match n with
          | DT_REG => loop es' (Int32.add count 1)
          | DT_DIR _ =>
              match size_dir n with
              | Returned c => loop es' (Int32.add count c)
              | CouldNotOpen => CouldNotOpen
              | PastTheArray => PastTheArray
              end
          | DT_other => loop es' count
          end
    end.

(** [blocs__size_dir(path)], [at_path] being what [path] names; the path
    itself, which the function extends for the sub-directories, only serves
    to open them *)
Fixpoint blocs__size_dir (at_path : node) : walked Z :=
  match at_path with
  | DT_DIR (Some entries) => size_entries blocs__size_dir entries 0
  | _ => CouldNotOpen
  end.

(** [malloc(strlen(path) + strlen(d_name) + 2); sprintf(.., "%s/%s", path, d_name)] *)
Definition join_path (path d_name : list byte) : option (list byte) :=
  copy_to_block 0 (strlen path + strlen d_name + 2) (path ++ "/"%byte :: d_name).

(** the loop of [blocs__enumerate_dir]: [files] is the part
    [files[0 .. index-1]] of the array, which has [capacity] slots *)
Definition enumerate_entries (capacity : Z)
    (enumerate_dir : list byte -> node -> list (list byte)
                     -> walked (list (list byte)))
    (path : list byte)
  : list (list byte * node) -> list (list byte) -> walked (list (list byte)) :=
  fix loop (es : list (list byte * node)) (files : list (list byte))
    : walked (list (list byte)) :=
    match es with
    | [] => Returned files
    | (d_name, n) :: es' =>
        if is_dots d_name then loop es' files
        else
          match n with
          | DT_REG =>
              match join_path path d_name with
              | Some file =>
                  if Z.of_nat (length files) <? capacity
                  then loop es' (files ++ [file])
                  else PastTheArray
              | None => PastTheArray
              end
          | DT_DIR _ =>
              match join_path path d_name with
              | Some npath =>
                  match enumerate_dir npath n files with
                  | Returned files' => loop es' files'
                  | CouldNotOpen => CouldNotOpen
                  | PastTheArray => PastTheArray
                  end
              | None => PastTheArray
              end
          | DT_other => loop es' files
          end
    end.

(** [blocs__enumerate_dir(path, files, &index)] *)
Fixpoint blocs__enumerate_dir (capacity : Z) (at_path : node) (path : list byte)
    (files : list (list byte)) : walked (list (list byte)) :=
  match at_path with
  | DT_DIR (Some entries) =>
      enumerate_entries capacity
        (fun npath n => blocs__enumerate_dir capacity n npath) path entries files
  | _ => CouldNotOpen
  end.

(** the regular files the walk reaches from a directory *)
Definition regular_entries (regular_files : node -> nat)
  : list (list byte * node) -> nat :=
  fix sum (es : list (list byte * node)) : nat :=
    match es with
    | [] => O
    | (d_name, n) :: es' =>
        if is_dots d_name then sum es'
        else
          match n with
          | DT_REG => S (sum es')
          | DT_DIR _ => (regular_files n + sum es')%nat
          | DT_other => sum es'
          end
    end.

Fixpoint regular_files (at_path : node) : nat :=
  match at_path with
  | DT_DIR (Some entries) => regular_entries regular_files entries
  | _ => O
  end.

(** every directory the walk reaches can be opened *)
Definition readable_entries (readable : node -> bool)
  : list (list byte * node) -> bool :=
  fix all (es : list (list byte * node)) : bool :=
    match es with
    | [] => true
    | (d_name, n) :: es' =>
        if is_dots d_name then all es'
        else
          match n with
          | DT_DIR _ => readable n && all es'
          | _ => all es'
          end
    end.

Fixpoint readable (at_path : node) : bool :=
  match at_path with
  | DT_DIR (Some entries) => readable_entries readable entries
  | _ => false
  end.

(** ** The end of [main]: unloading the images *)

(** how the clean-up ends: with the images still in the vector and those
    that were unloaded, in the order they were, or on the assertion of
    [unload] ("cannot dispose an unloaded image") *)
Inductive cleaned : Type :=
| Cleaned (kept unloaded : list blocs__image)
| CannotDispose
| Unfinished.

(** The loop of the C++ [main]:
    [for (int i = 0; i < images.size(); i++)
       if (!is_demo) { auto* image = &images.back(); image->unload();
                       images.pop_back(); }]
    [images.size()] is read again at every turn.  [fuel] bounds the number
    of turns. *)
Fixpoint cpp_unload_loop (fuel : nat) (is_demo : bool) (i : Z)
    (images unloaded : list blocs__image) : cleaned :=
  if i <? Z.of_nat (length images) then
    match fuel with
    | O => Unfinished
    | S fuel' =>
        if is_demo then
          cpp_unload_loop fuel' is_demo (Int32.add i 1) images unloaded
        else
          match last images with
          | Some image =>
              match img_data image with
              | Some _ =>
                  cpp_unload_loop fuel' is_demo (Int32.add i 1)
                    (take (pred (length images)) images) (unloaded ++ [image])
              | None => CannotDispose
              end
          | None => Unfinished
          end
    end
  else Cleaned images unloaded.

Definition cpp_unload (is_demo : bool) (images : list blocs__image) : cleaned :=
  cpp_unload_loop (length images) is_demo 0 images [].

(** The loop of the C [main]:
    [for (int i = 0; i < num_images; i++)
       if (!demo) blocs__unload_image(&images[i]);] *)
Fixpoint c_unload_loop (demo : bool) (images unloaded : list blocs__image)
  : cleaned :=
  match images with
  | [] => Cleaned [] unloaded
  | image :: rest =>
      if demo then c_unload_loop demo rest unloaded
      else
        match img_data image with
        | Some _ => c_unload_loop demo rest (unloaded ++ [image])
        | None => CannotDispose
        end
  end.

(** ** [write_binary] of the C++ header *)

(** [static_cast<uint8_t>(z)] *)
Definition uint8 (z : Z) : byte :=
  match Byte.of_N (Z.to_N (z mod 256)) with
  | Some b => b
  | None => Byte.x00
  end.

(** [stream.put(static_cast<uint8_t>(value & 0xff));
     stream.put(static_cast<uint8_t>((value >> 8) & 0xff));]
    on the bytes written to the stream so far; [value] is an [int16_t],
    promoted to [int] for the two operations. *)
Definition write_binary (stream : list byte) (value : Z) : list byte :=
  stream ++ [uint8 (Z.land value 255); uint8 (Z.land (Z.shiftr value 8) 255)].

(** ** [blocs__fill_color] *)

(** [data[i + k] = v;] *)
Definition put_byte (i : Z) (kv : Z * byte) (data : list byte)
  : status * list byte :=
  match store data (Int32.add i (fst kv)) (snd kv) with
  | Some data' => (Completed, data')
  | None => (Undefined, data)
  end.

(** [blocs__fill_color(image, r, g, b, a)] (and [fill_color] of the C++
    header): [block] is the block of [w * h * CHANNELS] bytes that [malloc]
    returns, with whatever it holds;
    [for (int i = 0; i < w * h * CHANNELS; i += CHANNELS)
       { data[i + 0] = r; data[i + 1] = g; data[i + 2] = b; data[i + 3] = a; }] *)
Definition blocs__fill_color (image : blocs__image) (r g b a : byte)
    (block : list byte) : status * blocs__image :=
  let w := img_w image in
  let h := img_h image in
  let (s, data) :=
    for_loop 0 (Int32.mul (Int32.mul w h) CHANNELS) CHANNELS
      (fun i => run_steps (put_byte i) [(0, r); (1, g); (2, b); (3, a)])
      block in
  (s, {| img_w := w; img_h := h; img_data := Some data |}).

(** ** The demo: the random boxes of [main]

    [rand n] is what the [n]-th call of [rand()] returns, [heads r] is the
    test [((float)r / RAND_MAX) > 0.5], and [rand_box w h r] is the image
    that [blocs__rand_box(w, h)] makes when its own call of [rand()], for
    the hue, returns [r]. *)
Section Demo.
Variables (rand : nat -> Z) (heads : Z -> bool)
          (rand_box : Z -> Z -> Z -> blocs__image).

(** the calls of [rand()] so far and the images [images[0 .. num_images-1]] *)
Record demo_state : Type := DemoState {
  rand_calls : nat;
  demo_images : list blocs__image
}.

(** [images[num_images++] = blocs__rand_box(w, h);] with, in C,
    [images = malloc(sizeof(blocs__image) * 1000)]: a block of 1000 slots;
    in C++ [images.emplace_back(demo::rand_box(w, h))].  [None]: the image
    is written past the block. *)
Definition add_box (l : lang) (w h : Z) (st : demo_state) : option demo_state :=
  if has_room (capacity l 1000) (length (demo_images st))
  then Some {| rand_calls := S (rand_calls st);
               demo_images :=
                 demo_images st ++ [rand_box w h (rand (rand_calls st))] |}
  else None.

(** [if (((float)rand() / RAND_MAX) > 0.5) images[num_images++] = blocs__rand_box(w, h);] *)
Definition maybe_box (l : lang) (w h : Z) (st : demo_state) : option demo_state :=
  let st' := {| rand_calls := S (rand_calls st); demo_images := demo_images st |} in
  if heads (rand (rand_calls st)) then add_box l w h st' else Some st'.

Fixpoint add_boxes (l : lang) (turns : nat) (w h : Z) (st : demo_state)
  : option demo_state :=
  match turns with
  | O => Some st
  | S turns' =>
      match add_box l w h st with
      | Some st' => add_boxes l turns' w h st'
      | None => None
      end
  end.

(** [for (int i = base + rand() % k; i >= 0; i--) images[num_images++] = blocs__rand_box(w, h);] *)
Definition some_boxes (l : lang) (base k w h : Z) (st : demo_state)
  : option demo_state :=
  let i := Int32.add base (Z.rem (rand (rand_calls st)) k) in
  add_boxes l (Z.to_nat (i + 1)) w h
    {| rand_calls := S (rand_calls st); demo_images := demo_images st |}.

Definition then_boxes (r : option demo_state)
    (f : demo_state -> option demo_state) : option demo_state :=
  match r with
  | Some st => f st
  | None => None
  end.

(** the branch [demo] of [main] *)
Definition demo_boxes (l : lang) : option demo_state :=
  then_boxes (then_boxes (then_boxes (then_boxes (then_boxes (then_boxes
  (then_boxes (then_boxes (then_boxes (then_boxes (then_boxes
    (maybe_box l 400 80 {| rand_calls := 0; demo_images := [] |})
    (maybe_box l 80 400))
    (maybe_box l 250 250))
    (maybe_box l 100 250))
    (maybe_box l 250 100))
    (some_boxes l 0 20 100 100))
    (some_boxes l 0 10 60 60))
    (some_boxes l 0 30 50 50))
    (some_boxes l 0 40 50 20))
    (some_boxes l 50 50 20 50))
    (some_boxes l 300 200 10 10))
    (some_boxes l 500 500 5 5).
End Demo.

(** [f] adds between [lo] and [hi] images to those there are; the C program
    does as the C++ one as long as the images are at most 1000, and writes
    past its block of 1000 slots when they become more *)
Definition grows (lo hi : nat) (f : lang -> demo_state -> option demo_state)
  : Prop :=
  forall sv, exists sv',
    f Cpp17 sv = Some sv'
    /\ (length (demo_images sv) + lo <= length (demo_images sv')
        <= length (demo_images sv) + hi)%nat
    /\ ((length (demo_images sv') <= 1000)%nat -> f C99 sv = Some sv')
    /\ ((length (demo_images sv) <= 1000 < length (demo_images sv'))%nat ->
        f C99 sv = None).

(** ** [blocs__save_json] *)

(** what [%d] prints of an [int]: its decimal digits, after a ['-'] when it
    is negative *)
Definition print_int (z : Z) : list byte :=
  String.list_byte_of_string (DecimalString.NilZero.string_of_int (Z.to_int z)).

Definition TAB : list byte := [Byte.x09].
Definition NEWLINE : list byte := [Byte.x0a].
Definition QUOTE : list byte := [Byte.x22].

(** ["\"k\": "] *)
Definition json_key (k : list byte) : list byte :=
  QUOTE ++ k ++ QUOTE ++ [":"; " "]%byte.

(** the five [fprintf] that open the document:
    ["{\n"], ["\t\"w\": %d,\n"], ["\t\"h\": %d,\n"], ["\t\"n\": %d,\n"],
    ["\t\"textures\": [\n"] *)
Definition json_header (atlas_bmp : blocs__image) (len : Z) : list byte :=
  ["{"]%byte ++ NEWLINE
  ++ TAB ++ json_key ["w"]%byte ++ print_int (img_w atlas_bmp) ++ [","]%byte ++ NEWLINE
  ++ TAB ++ json_key ["h"]%byte ++ print_int (img_h atlas_bmp) ++ [","]%byte ++ NEWLINE
  ++ TAB ++ json_key ["n"]%byte ++ print_int len ++ [","]%byte ++ NEWLINE
  ++ TAB ++ json_key ["t"; "e"; "x"; "t"; "u"; "r"; "e"; "s"]%byte
  ++ ["["]%byte ++ NEWLINE.

(** the seven [fprintf] of one texture:
    ["\t\t{\n"], ["\t\t\t\"n\": \"%s\",\n"], ["\t\t\t\"x\": %d,\n"],
    ["\t\t\t\"y\": %d,\n"], ["\t\t\t\"w\": %d,\n"], ["\t\t\t\"h\": %d\n"],
    ["\t\t}"] *)
Definition json_entry (name : list byte) (rect : blocs__rect) : list byte :=
  TAB ++ TAB ++ ["{"]%byte ++ NEWLINE
  ++ TAB ++ TAB ++ TAB ++ json_key ["n"]%byte ++ QUOTE ++ name ++ QUOTE
  ++ [","]%byte ++ NEWLINE
  ++ TAB ++ TAB ++ TAB ++ json_key ["x"]%byte ++ print_int (rect_x rect)
  ++ [","]%byte ++ NEWLINE
  ++ TAB ++ TAB ++ TAB ++ json_key ["y"]%byte ++ print_int (rect_y rect)
  ++ [","]%byte ++ NEWLINE
  ++ TAB ++ TAB ++ TAB ++ json_key ["w"]%byte ++ print_int (rect_w rect)
  ++ [","]%byte ++ NEWLINE
  ++ TAB ++ TAB ++ TAB ++ json_key ["h"]%byte ++ print_int (rect_h rect)
  ++ NEWLINE
  ++ TAB ++ TAB ++ ["}"]%byte.

(** ["\n\t]\n"] and ["}"] *)
Definition json_footer : list byte :=
  NEWLINE ++ TAB ++ ["]"]%byte ++ NEWLINE ++ ["}"]%byte.

(** [names[texture.name_index]] *)
Definition name_of (names : list (list byte)) (t : blocs__texture)
  : option (list byte) :=
  if 0 <=? name_index t then names !! Z.to_nat (name_index t) else None.

(** one turn of the loop of [blocs__save_json], on the text written so far *)
Definition save_texture (textures : list blocs__texture) (len : Z)
    (names : list (list byte)) (i : Z) (text : list byte)
  : status * list byte :=
  match (if 0 <=? i then textures !! Z.to_nat i else None) with
  | Some texture =>
      match name_of names texture with
      | Some name =>
          (Completed,
           text ++ json_entry name (tex_rect texture)
           ++ (if negb (i =? Int32.sub len 1) then [","]%byte ++ NEWLINE else []))
      | None => (Undefined, text)
      end
  | None => (Undefined, text)
  end.

(** [blocs__save_json(output, atlas_bmp, textures, len, names)]: the text
    written to the file; [opened] tells whether [fopen] gave a stream. *)
Definition blocs__save_json (opened : bool) (atlas_bmp : blocs__image)
    (textures : list blocs__texture) (len : Z) (names : list (list byte))
  : status * list byte :=
  if opened then
    and_then
      (for_loop 0 len 1 (save_texture textures len names)
                (json_header atlas_bmp len))
      (fun text => (Completed, text ++ json_footer))
  else (Undefined, []).

(** the entries of the textures, a [",\n"] between two of them *)
Fixpoint json_entries (names : list (list byte)) (textures : list blocs__texture)
  : list byte :=
  match textures with
  | [] => []
  | t :: rest =>
      json_entry (default [] (name_of names t)) (tex_rect t)
      ++ match rest with
         | [] => []
         | _ :: _ => [","]%byte ++ NEWLINE ++ json_entries names rest
         end
  end.

(** ** The command line of [main] (C program) *)

(** [isspace(b)] in the C locale *)
Definition is_space (b : byte) : bool :=
  let n := Z.of_N (Byte.to_N b) in
  (n =? 32) || ((9 <=? n) && (n <=? 13)).

Definition digit_of (b : byte) : option Z :=
  let n := Z.of_N (Byte.to_N b) in
  if (48 <=? n) && (n <=? 57) then Some (n - 48) else None.

Fixpoint skip_spaces (s : list byte) : list byte :=
  match s with
  | b :: s' => if is_space b then skip_spaces s' else s
  | [] => []
  end.

Fixpoint digits_value (s : list byte) (acc : Z) : Z :=
  match s with
  | b :: s' =>
      match digit_of b with
      | Some d => digits_value s' (10 * acc + d)
      | None => acc
      end
  | [] => acc
  end.

(** [atoi(s)]: white space, a sign, decimal digits; what follows the digits
    is ignored and no digit at all gives 0.  A value that is no [int] leaves
    the behaviour undefined ([None]). *)
Definition atoi (s : list byte) : option Z :=
  let v :=
    match skip_spaces s with
    | "-"%byte :: s' => - digits_value s' 0
    | "+"%byte :: s' => digits_value s' 0
    | s' => digits_value s' 0
    end in
  if (Int32.min_signed <=? v) && (v <=? Int32.max_signed) then Some v else None.

(** the globals [main] sets from the command line *)
Record settings : Type := Settings {
  input_dir : list byte;
  output_dir : list byte;
  output_name : list byte;
  log_verbose : Z;
  demo : Z;
  atlas_size : Z;
  atlas_expand : Z;
  atlas_border : Z;
  atlas_unique : Z
}.

(** the options that take a value *)
Inductive valued : Type := OutputOption | SizeOption | ExpandOption | BorderOption.

(** the assertions of the parsing *)
Inductive usage : Type :=
| ExpectedPack                (* "expected \"pack [INPUT] [OPTS...]\"" *)
| OutOfBounds (o : valued)    (* "went out of bounds looking for .. argument value" *)
| Unrecognized (arg : list byte).  (* "unrecognized arg \"%s\"" *)

Inductive parsed : Type :=
| Parsed (s : settings)
| Usage (e : usage)
| UndefinedArgument.

(** [strcmp(arg, short) == 0 || strcmp(arg, long) == 0] *)
Definition is_option (arg short long : list byte) : bool :=
  (strcmp arg short =? 0) || (strcmp arg long =? 0).

(** The loop [for (int i = 2; i < argc; ++i)] of [main], on the arguments
    [argv[i ..]] still to read; an option that takes a value moves [i] once
    more.  [slack] is the allowance of [malloc] in [blocs__file_path] and
    [blocs__file_name]. *)
Fixpoint parse_options (slack : Z) (args : list (list byte)) (s : settings)
  : parsed :=
  match args with
  | [] => Parsed s
  | arg :: rest =>
      if is_option arg ["-"; "o"]%byte ["-"; "-"; "o"; "u"; "t"; "p"; "u"; "t"]%byte
      then
        match rest with
        | [] => Usage (OutOfBounds OutputOption)
        | value :: rest' =>
            match blocs__file_path slack value, blocs__file_name slack value with
            | (Completed, dir), (Completed, name) =>
                parse_options slack rest'
                  {| input_dir := input_dir s; output_dir := dir;
                     output_name := name; log_verbose := log_verbose s;
                     demo := demo s; atlas_size := atlas_size s;
                     atlas_expand := atlas_expand s;
                     atlas_border := atlas_border s;
                     atlas_unique := atlas_unique s |}
            | _, _ => UndefinedArgument
            end
        end
      else if is_option arg ["-"; "s"]%byte ["-"; "-"; "s"; "i"; "z"; "e"]%byte
      then
        match rest with
        | [] => Usage (OutOfBounds SizeOption)
        | value :: rest' =>
            match atoi value with
            | Some n =>
                parse_options slack rest'
                  {| input_dir := input_dir s; output_dir := output_dir s;
                     output_name := output_name s; log_verbose := log_verbose s;
                     demo := demo s; atlas_size := n;
                     atlas_expand := atlas_expand s;
                     atlas_border := atlas_border s;
                     atlas_unique := atlas_unique s |}
            | None => UndefinedArgument
            end
        end
      else if is_option arg ["-"; "v"]%byte
                ["-"; "-"; "v"; "e"; "r"; "b"; "o"; "s"; "e"]%byte
      then
        parse_options slack rest
          {| input_dir := input_dir s; output_dir := output_dir s;
             output_name := output_name s; log_verbose := 1;
             demo := demo s; atlas_size := atlas_size s;
             atlas_expand := atlas_expand s; atlas_border := atlas_border s;
             atlas_unique := atlas_unique s |}
      else if is_option arg ["-"; "u"]%byte
                ["-"; "-"; "u"; "n"; "i"; "q"; "u"; "e"]%byte
      then
        parse_options slack rest
          {| input_dir := input_dir s; output_dir := output_dir s;
             output_name := output_name s; log_verbose := log_verbose s;
             demo := demo s; atlas_size := atlas_size s;
             atlas_expand := atlas_expand s; atlas_border := atlas_border s;
             atlas_unique := 1 |}
      else if is_option arg ["-"; "e"]%byte
                ["-"; "-"; "e"; "x"; "p"; "a"; "n"; "d"]%byte
      then
        match rest with
        | [] => Usage (OutOfBounds ExpandOption)
        | value :: rest' =>
            match atoi value with
            | Some n =>
                parse_options slack rest'
                  {| input_dir := input_dir s; output_dir := output_dir s;
                     output_name := output_name s; log_verbose := log_verbose s;
                     demo := demo s; atlas_size := atlas_size s;
                     atlas_expand := n;
                     atlas_border := atlas_border s;
                     atlas_unique := atlas_unique s |}
            | None => UndefinedArgument
            end
        end
      else if is_option arg ["-"; "b"]%byte
                ["-"; "-"; "b"; "o"; "r"; "d"; "e"; "r"]%byte
      then
        match rest with
        | [] => Usage (OutOfBounds BorderOption)
        | value :: rest' =>
            match atoi value with
            | Some n =>
                parse_options slack rest'
                  {| input_dir := input_dir s; output_dir := output_dir s;
                     output_name := output_name s; log_verbose := log_verbose s;
                     demo := demo s; atlas_size := atlas_size s;
                     atlas_expand := atlas_expand s;
                     atlas_border := n;
                     atlas_unique := atlas_unique s |}
            | None => UndefinedArgument
            end
        end
      else Usage (Unrecognized arg)
  end.

(** The head of [main]: the assertion on [argc], the defaults, the first
    argument and the options. *)
Definition parse_command_line (slack : Z) (argv : list (list byte)) : parsed :=
  if negb (Z.of_nat (length argv) >? 2) then Usage ExpectedPack
  else
    match argv with
    | _ :: first :: args =>
        let is_demo :=
          is_option first ["-"; "d"]%byte ["-"; "-"; "d"; "e"; "m"; "o"]%byte in
        parse_options slack args
          {| input_dir := first;
             output_dir := ["."]%byte;
             output_name := if is_demo then ["d"; "e"; "m"; "o"]%byte
                            else ["a"; "t"; "l"; "a"; "s"]%byte;
             log_verbose := 0;
             demo := if is_demo then 1 else 0;
             atlas_size := if is_demo then 960 else 4096;
             atlas_expand := 0;
             atlas_border := 0;
             atlas_unique := 0 |}
    | _ => Usage ExpectedPack
    end.

(** * Properties *)

(** ** Machine integers *)

Lemma int32_wrap_small (z : Z) : Int32.in_range z -> Int32.wrap z = z.
Proof.
  unfold Int32.in_range, Int32.min_signed, Int32.max_signed, Int32.wrap.
  intros H. rewrite Z.mod_small; lia.
Qed.

Lemma int32_wrap_range (z : Z) : Int32.in_range (Int32.wrap z).
Proof.
  unfold Int32.in_range, Int32.min_signed, Int32.max_signed, Int32.wrap.
  pose proof (Z.mod_pos_bound (z + 2 ^ 31) (2 ^ 32)). lia.
Qed.

Lemma int32_add_small (a b : Z) : Int32.in_range (a + b) -> Int32.add a b = a + b.
Proof. apply int32_wrap_small. Qed.

Lemma int32_sub_small (a b : Z) : Int32.in_range (a - b) -> Int32.sub a b = a - b.
Proof. apply int32_wrap_small. Qed.

Lemma int32_mul_small (a b : Z) : Int32.in_range (a * b) -> Int32.mul a b = a * b.
Proof. apply int32_wrap_small. Qed.

Lemma in_range_bounds (z : Z) :
  Int32.in_range z <-> - 2147483648 <= z <= 2147483647.
Proof. unfold Int32.in_range, Int32.min_signed, Int32.max_signed. lia. Qed.

Lemma max_int_spec (a b : Z) : max_int a b = Z.max a b.
Proof. unfold max_int. destruct (Z.gtb_spec a b); lia. Qed.

Lemma padding_of_small (size expand border : Z) :
  config_ok size expand border -> padding_of expand border = 2 * expand + border.
Proof.
  intros (He & Hb & Hs & Hp). unfold padding_of, Int32.max_signed in *.
  rewrite (int32_mul_small expand 2) by (apply in_range_bounds; lia).
  rewrite int32_add_small by (apply in_range_bounds; lia). lia.
Qed.

(** ** Sorting *)

Section InsertionFacts.
Context {A : Type} (le : A -> A -> bool).
Hypothesis le_total : forall a b, le a b = true \/ le b a = true.

Lemma insert_before_equals_perm (a : A) (xs : list A) :
  Permutation (a :: xs) (insert_before_equals le a xs).
Proof.
  induction xs as [|x xs IH]; simpl; [reflexivity|].
  destruct (le a x); [reflexivity|].
  rewrite perm_swap. now apply perm_skip.
Qed.

Lemma insert_after_equals_perm (a : A) (xs : list A) :
  Permutation (a :: xs) (insert_after_equals le a xs).
Proof.
  induction xs as [|x xs IH]; simpl; [reflexivity|].
  destruct (le x a); [|reflexivity].
  rewrite perm_swap. now apply perm_skip.
Qed.

Lemma stable_sort_perm (xs : list A) : Permutation xs (stable_sort le xs).
Proof.
  induction xs as [|x xs IH]; simpl; [reflexivity|].
  etransitivity; [apply perm_skip, IH|]. apply insert_before_equals_perm.
Qed.

Lemma reversing_sort_perm (xs : list A) : Permutation xs (reversing_sort le xs).
Proof.
  induction xs as [|x xs IH]; simpl; [reflexivity|].
  etransitivity; [apply perm_skip, IH|]. apply insert_after_equals_perm.
Qed.

Lemma insert_before_equals_sorted (a : A) (xs : list A) :
  Sorted (fun x y => le x y = true) xs ->
  Sorted (fun x y => le x y = true) (insert_before_equals le a xs).
Proof.
  induction 1 as [|x xs Hs IH Hd]; simpl.
  - repeat constructor.
  - destruct (le a x) eqn:Hax.
    + constructor; [constructor; assumption|]. constructor. exact Hax.
    + constructor; [exact IH|].
      destruct (le_total a x) as [E|E]; [congruence|].
      destruct Hd as [|y ys Hxy]; simpl.
      * constructor. exact E.
      * destruct (le a y); constructor; assumption.
Qed.

Lemma insert_after_equals_sorted (a : A) (xs : list A) :
  Sorted (fun x y => le x y = true) xs ->
  Sorted (fun x y => le x y = true) (insert_after_equals le a xs).
Proof.
  induction 1 as [|x xs Hs IH Hd]; simpl.
  - repeat constructor.
  - destruct (le x a) eqn:Hxa.
    + constructor; [exact IH|].
      destruct Hd as [|y ys Hxy]; simpl.
      * constructor. exact Hxa.
      * destruct (le y a); constructor; assumption.
    + constructor; [constructor; assumption|]. constructor.
      destruct (le_total a x) as [E|E]; [exact E|congruence].
Qed.

Lemma stable_sort_sorted (xs : list A) :
  Sorted (fun x y => le x y = true) (stable_sort le xs).
Proof.
  induction xs as [|x xs IH]; simpl; [constructor|].
  now apply insert_before_equals_sorted.
Qed.

Lemma reversing_sort_sorted (xs : list A) :
  Sorted (fun x y => le x y = true) (reversing_sort le xs).
Proof.
  induction xs as [|x xs IH]; simpl; [constructor|].
  now apply insert_after_equals_sorted.
Qed.
End InsertionFacts.

Lemma int32_wrap_opp_pos (d : Z) : 0 < Int32.wrap d -> Int32.wrap (- d) < 0.
Proof.
  unfold Int32.wrap. change (2 ^ 31) with 2147483648.
  change (2 ^ 32) with 4294967296. intros H.
  Z.div_mod_to_equations. lia.
Qed.

Lemma in_order_total (l : lang) (a b : blocs__texture) :
  in_order l a b = true \/ in_order l b a = true.
Proof.
  destruct l; simpl.
  - unfold blocs__compare_area, Int32.sub.
    destruct (Z.leb_spec (Int32.wrap (rect_h (tex_rect b) - rect_h (tex_rect a))) 0)
      as [H|H]; [now left|right].
    apply Z.leb_le. apply int32_wrap_opp_pos in H.
    replace (rect_h (tex_rect a) - rect_h (tex_rect b))
      with (- (rect_h (tex_rect b) - rect_h (tex_rect a))) by lia. lia.
  - unfold taller. rewrite !Z.gtb_ltb.
    destruct (Z.ltb_spec (rect_h (tex_rect a)) (rect_h (tex_rect b)));
      destruct (Z.ltb_spec (rect_h (tex_rect b)) (rect_h (tex_rect a)));
      simpl; auto; lia.
Qed.

Lemma stable_sort_contract (l : lang) : sort_contract l (stable_library_sort l).
Proof.
  split; intros ts; simpl.
  - apply stable_sort_perm.
  - apply stable_sort_sorted, in_order_total.
Qed.

Lemma reversing_sort_contract (l : lang) :
  sort_contract l (reversing_library_sort l).
Proof.
  split; intros ts; simpl.
  - apply reversing_sort_perm.
  - apply reversing_sort_sorted, in_order_total.
Qed.

(** ** The scan of the free spaces *)

Lemma scan_spaces_some spaces w h n j space :
  scan_spaces spaces w h n = Some (j, space) ->
  (j < n)%nat /\ spaces !! j = Some space /\
  w <= rect_w space /\ h <= rect_h space /\
  forall k s, (j < k < n)%nat -> spaces !! k = Some s ->
              rect_w s < w \/ rect_h s < h.
Proof.
  induction n as [|n IH]; simpl; [discriminate|].
  destruct (spaces !! n) as [s0|] eqn:Hn; [|discriminate].
  destruct ((w >? rect_w s0) || (h >? rect_h s0)) eqn:Hskip.
  - intros H. destruct (IH H) as (Hj & Hsp & Hw & Hh & Hlater).
    repeat split; auto with lia.
    intros k s Hk Hks. destruct (decide (k = n)) as [->|Hne].
    + rewrite Hn in Hks. injection Hks as <-.
      apply orb_true_iff in Hskip. rewrite !Z.gtb_ltb, !Z.ltb_lt in Hskip. lia.
    + apply (Hlater k s); [lia|assumption].
  - intros H. injection H as <- <-.
    apply orb_false_iff in Hskip. rewrite !Z.gtb_ltb, !Z.ltb_ge in Hskip.
    repeat split; try lia; auto.
Qed.

Lemma scan_spaces_none spaces w h n :
  (n <= length spaces)%nat ->
  scan_spaces spaces w h n = None ->
  forall k s, (k < n)%nat -> spaces !! k = Some s -> rect_w s < w \/ rect_h s < h.
Proof.
  induction n as [|n IH]; simpl; intros Hn Hscan k s Hk Hks; [lia|].
  destruct (spaces !! n) as [s0|] eqn:Hs0.
  - destruct ((w >? rect_w s0) || (h >? rect_h s0)) eqn:Hskip; [|discriminate].
    destruct (decide (k = n)) as [->|Hne].
    + rewrite Hs0 in Hks. injection Hks as <-.
      apply orb_true_iff in Hskip. rewrite !Z.gtb_ltb, !Z.ltb_lt in Hskip. lia.
    + apply (IH ltac:(lia) Hscan k s); [lia|assumption].
  - apply lookup_ge_None in Hs0. lia.
Qed.

(** a space fits when the scan finds one, and only then *)
Lemma scan_spaces_finds spaces w h :
  (exists s, In s spaces /\ w <= rect_w s /\ h <= rect_h s) ->
  exists j space, scan_spaces spaces w h (length spaces) = Some (j, space).
Proof.
  intros (s & Hin & Hw & Hh).
  destruct (scan_spaces spaces w h (length spaces)) as [[j space]|] eqn:Hscan;
    [eauto|].
  apply list_elem_of_In, list_elem_of_lookup in Hin. destruct Hin as [k Hk].
  pose proof (lookup_lt_Some _ _ _ Hk) as Hlt.
  destruct (scan_spaces_none spaces w h (length spaces) ltac:(lia) Hscan k s Hlt Hk); lia.
Qed.

(** ** The update of the free spaces, up to the order of the list *)

Lemma alter_delete_perm {A : Type} (f : A -> A) (xs : list A) (j : nat) (x : A) :
  xs !! j = Some x -> Permutation (alter f j xs) (f x :: delete j xs).
Proof.
  intros Hj. apply delete_Permutation in Hj as Hp.
  assert (Ha : alter f j xs !! j = Some (f x)).
  { rewrite list_lookup_alter_eq, Hj. reflexivity. }
  apply delete_Permutation in Ha. rewrite Ha. apply perm_skip.
  clear. revert j. induction xs as [|y xs IH]; intros [|j]; simpl; auto.
Qed.

Lemma delete_insert_same {A : Type} (xs : list A) (j : nat) (y : A) :
  delete j (<[j := y]> xs) = delete j xs.
Proof.
  revert j. induction xs as [|x xs IH]; intros [|j]; simpl; auto.
  f_equal. apply IH.
Qed.

Lemma swap_remove_snoc_perm {A : Type} (front : list A) (j : nat) (x last_x : A) :
  (front ++ [last_x]) !! j = Some x ->
  Permutation (if (j <? length front)%nat then <[j := last_x]> front else front)
              (delete j (front ++ [last_x])).
Proof.
  intros Hj. pose proof (lookup_lt_Some _ _ _ Hj) as Hlt.
  rewrite length_app in Hlt. simpl in Hlt.
  destruct (Nat.ltb_spec j (length front)) as [Hjn|Hjn].
  - assert (Hd : delete j (front ++ [last_x]) = delete j front ++ [last_x]).
    { clear -Hjn. revert j Hjn.
      induction front as [|y ys IH]; intros [|j] Hlen; simpl in *; try lia; auto.
      f_equal. apply IH. lia. }
    rewrite Hd.
    assert (Hi : <[j:=last_x]> front !! j = Some last_x)
      by (apply list_lookup_insert_eq; exact Hjn).
    apply delete_Permutation in Hi. rewrite Hi.
    rewrite <- Permutation_cons_append. apply perm_skip.
    rewrite delete_insert_same. reflexivity.
  - assert (j = length front) as -> by lia.
    rewrite delete_middle, app_nil_r. reflexivity.
Qed.

Lemma swap_remove_perm {A : Type} (xs : list A) (j : nat) (x last_x : A) :
  xs !! j = Some x ->
  xs !! pred (length xs) = Some last_x ->
  Permutation (if (j <? pred (length xs))%nat
               then <[j := last_x]> (take (pred (length xs)) xs)
               else take (pred (length xs)) xs)
              (delete j xs).
Proof.
  intros Hj Hlast.
  pose proof (take_drop_middle xs _ _ Hlast) as Hsplit.
  replace (drop (S (pred (length xs))) xs) with (@nil A) in Hsplit
    by (symmetry; apply drop_ge; pose proof (lookup_lt_Some _ _ _ Hj); lia).
  set (front := take (pred (length xs)) xs) in *.
  assert (Hlen : pred (length xs) = length front).
  { unfold front. rewrite length_take. lia. }
  rewrite Hlen. clearbody front. subst xs.
  eapply swap_remove_snoc_perm. exact Hj.
Qed.

Lemma update_spaces_perm cap spaces j space w h spaces' :
  spaces !! j = Some space ->
  update_spaces cap spaces j space w h = Some spaces' ->
  Permutation spaces' (remainder space w h ++ delete j spaces).
Proof.
  intros Hj. unfold update_spaces, remainder.
  destruct ((w =? rect_w space) && (h =? rect_h space)).
  { destruct (spaces !! pred (length spaces)) as [last_space|] eqn:Hlast;
      [|discriminate].
    intros H. injection H as <-. simpl.
    eapply swap_remove_perm; eassumption. }
  destruct (h =? rect_h space).
  { intros H. injection H as <-. simpl. now apply alter_delete_perm. }
  destruct (w =? rect_w space).
  { intros H. injection H as <-. simpl. now apply alter_delete_perm. }
  destruct (has_room cap (length spaces)); [|discriminate].
  intros H. injection H as <-. simpl.
  pose proof (lookup_lt_Some _ _ _ Hj) as Hlt.
  rewrite alter_app_l by exact Hlt.
  rewrite (alter_delete_perm _ _ _ _ Hj). simpl.
  apply perm_skip. rewrite <- Permutation_cons_append. reflexivity.
Qed.

(** ** Rectangles *)

Lemma disjoint_sym (a b : blocs__rect) : disjoint a b -> disjoint b a.
Proof. intros H px py [Hb Ha]. apply (H px py). split; assumption. Qed.

Lemma disjoint_within (a a' b : blocs__rect) :
  within a' a -> disjoint a b -> disjoint a' b.
Proof. intros Hw H px py [Ha Hb]. apply (H px py). split; auto. Qed.

Lemma all_disjoint_perm (rs rs' : list blocs__rect) :
  Permutation rs rs' -> all_disjoint rs -> all_disjoint rs'.
Proof.
  induction 1 as [|r rs rs' Hp IH|a b rs|rs1 rs2 rs3 _ IH1 _ IH2]; simpl; auto.
  - intros [Hr Hrs]. split; [|auto]. now rewrite <- Hp.
  - intros [Hb [Ha Hrs]]. apply Forall_cons in Hb as [Hba Hb].
    repeat split; auto. constructor; [now apply disjoint_sym|assumption].
Qed.

Lemma all_disjoint_app (rs1 rs2 : list blocs__rect) :
  all_disjoint rs1 -> all_disjoint rs2 ->
  Forall (fun r1 => Forall (disjoint r1) rs2) rs1 ->
  all_disjoint (rs1 ++ rs2).
Proof.
  induction rs1 as [|r rs1 IH]; simpl; auto.
  intros [Hr H1] H2 Hcross. apply Forall_cons in Hcross as [Hr2 Hcross].
  split; [|auto]. apply Forall_app. split; assumption.
Qed.

Lemma intersects_spec (a b : blocs__rect) :
  intersects a b = false <-> disjoint a b.
Proof.
  unfold intersects, disjoint, covers. split.
  - intros H px py. apply andb_false_iff in H.
    rewrite !Z.ltb_ge in H. lia.
  - intros H. apply andb_false_iff. rewrite !Z.ltb_ge.
    destruct (Z_lt_le_dec (Z.max (rect_x a) (rect_x b))
                          (Z.min (rect_x a + rect_w a) (rect_x b + rect_w b)))
      as [Hx|Hx]; [|now left].
    destruct (Z_lt_le_dec (Z.max (rect_y a) (rect_y b))
                          (Z.min (rect_y a + rect_h a) (rect_y b + rect_h b)))
      as [Hy|Hy]; [|now right].
    exfalso.
    apply (H (Z.max (rect_x a) (rect_x b)) (Z.max (rect_y a) (rect_y b))). lia.
Qed.

(** ** What a placement leaves of the space it takes *)

Lemma remainder_facts size space w h :
  inside size space -> size <= Int32.max_signed ->
  0 <= w <= rect_w space -> 0 <= h <= rect_h space ->
  Forall (fun p => inside size p /\ within p space /\
                   disjoint (corner_box space w h) p)
         (remainder space w h)
  /\ all_disjoint (remainder space w h).
Proof.
  intros (Hx & Hy & Hw0 & Hh0 & Hxw & Hyh) Hsize Hw Hh.
  unfold Int32.max_signed in Hsize.
  assert (Eadd_x : Int32.add (rect_x space) w = rect_x space + w)
    by (apply int32_add_small, in_range_bounds; lia).
  assert (Esub_w : Int32.sub (rect_w space) w = rect_w space - w)
    by (apply int32_sub_small, in_range_bounds; lia).
  assert (Eadd_y : Int32.add (rect_y space) h = rect_y space + h)
    by (apply int32_add_small, in_range_bounds; lia).
  assert (Esub_h : Int32.sub (rect_h space) h = rect_h space - h)
    by (apply int32_sub_small, in_range_bounds; lia).
  unfold remainder.
  destruct (Z.eqb_spec w (rect_w space)) as [Ew|Ew];
    destruct (Z.eqb_spec h (rect_h space)) as [Eh|Eh]; simpl;
    unfold cut_left, cut_top, new_space;
    rewrite ?Eadd_x, ?Esub_w, ?Eadd_y, ?Esub_h;
    repeat (split || constructor); intros;
    unfold inside, within, disjoint, covers, corner_box in *; simpl in *; lia.
Qed.

Lemma update_spaces_inv size cap spaces j space w h spaces' :
  spaces_inv size spaces -> size <= Int32.max_signed ->
  spaces !! j = Some space ->
  0 <= w <= rect_w space -> 0 <= h <= rect_h space ->
  update_spaces cap spaces j space w h = Some spaces' ->
  spaces_inv size spaces'
  /\ inside size (corner_box space w h)
  /\ (forall px py, covers (corner_box space w h) px py -> region spaces px py)
  /\ (forall px py, region spaces' px py ->
        region spaces px py /\ ~ covers (corner_box space w h) px py).
Proof.
  intros [Hin Hdis] Hsize Hj Hw Hh Hupd.
  pose proof (update_spaces_perm _ _ _ _ _ _ _ Hj Hupd) as Hperm'.
  pose proof (delete_Permutation _ _ _ Hj) as Hperm.
  set (rest := delete j spaces) in *.
  assert (Hin_s : inside size space /\ Forall (inside size) rest).
  { rewrite Hperm in Hin. now apply Forall_cons in Hin. }
  destruct Hin_s as [Hspace Hrest].
  apply (all_disjoint_perm _ _ Hperm) in Hdis. destruct Hdis as [Hsr Hrr].
  destruct (remainder_facts size space w h Hspace Hsize Hw Hh) as [Hpieces Hpp].
  assert (Hbox : within (corner_box space w h) space).
  { unfold within, covers, corner_box. simpl. lia. }
  split; [split|split; [|split]].
  - rewrite Hperm'. apply Forall_app. split; [|exact Hrest].
    eapply Forall_impl; [exact Hpieces|]. simpl. tauto.
  - apply (all_disjoint_perm (remainder space w h ++ rest)); [now symmetry|].
    apply all_disjoint_app; auto.
    eapply Forall_impl; [exact Hpieces|]. simpl. intros p (_ & Hp & _).
    eapply Forall_impl; [exact Hsr|]. simpl. intros r Hr.
    eapply disjoint_within; eauto.
  - destruct Hspace as (? & ? & ? & ? & ? & ?).
    unfold inside, corner_box. simpl. lia.
  - intros px py Hc. exists space. split; [|now apply Hbox].
    apply list_elem_of_In, list_elem_of_lookup. eauto.
  - intros px py (s & Hs & Hc).
    apply (Permutation_in _ Hperm') in Hs. apply in_app_or in Hs as [Hs|Hs].
    + rewrite Forall_forall in Hpieces.
      destruct (Hpieces s) as (_ & Hws & Hds); [now apply list_elem_of_In|].
      split.
      * exists space. split; [|now apply Hws].
        apply list_elem_of_In, list_elem_of_lookup. eauto.
      * intros Hb. apply (Hds px py). split; assumption.
    + split.
      * exists s. split; [|assumption].
        apply (Permutation_in _ (Permutation_sym Hperm)). now right.
      * intros Hb. rewrite Forall_forall in Hsr.
        apply (Hsr s (proj2 (list_elem_of_In _ _) Hs) px py). split; auto.
Qed.

(** ** The placement loop *)

Lemma placed_apart_unplaced expand border ts :
  placed_apart expand border (unplaced ts).
Proof.
  induction ts as [|t ts IH]; simpl; [exact I|]. split; [discriminate|exact IH].
Qed.

Lemma Forall_unplaced (P : blocs__texture * bool -> Prop) ts :
  (forall t, P (t, false)) -> Forall P (unplaced ts).
Proof. intros H. induction ts; simpl; constructor; auto. Qed.

Lemma padded_small size expand border t :
  config_ok size expand border -> texture_ok expand border t ->
  Int32.add (rect_w (tex_rect t)) (2 * expand + border)
    = rect_w (tex_rect t) + (2 * expand + border)
  /\ Int32.add (rect_h (tex_rect t)) (2 * expand + border)
    = rect_h (tex_rect t) + (2 * expand + border).
Proof.
  intros (He & Hb & Hs & Hp) (Hw & Hh & Hwp & Hhp).
  unfold Int32.max_signed in *.
  split; apply int32_add_small, in_range_bounds; lia.
Qed.

Lemma move_to_footprint size expand border space t :
  config_ok size expand border -> texture_ok expand border t ->
  inside size space ->
  rect_w (tex_rect t) + (2 * expand + border) <= rect_w space ->
  rect_h (tex_rect t) + (2 * expand + border) <= rect_h space ->
  footprint expand border (move_to expand space t)
  = corner_box space (rect_w (tex_rect t) + (2 * expand + border))
                     (rect_h (tex_rect t) + (2 * expand + border)).
Proof.
  intros (He & Hb & Hs & Hp) (Hw & Hh & Hwp & Hhp)
         (Hx & Hy & Hw0 & Hh0 & Hxw & Hyh) Hfw Hfh.
  unfold Int32.max_signed in *.
  unfold footprint, move_to, corner_box. simpl.
  rewrite !int32_add_small by (apply in_range_bounds; lia).
  f_equal; lia.
Qed.

Section LoopFacts.
Variables (l : lang) (size expand border : Z) (len : nat).
Hypothesis Hconfig : config_ok size expand border.

Lemma pack_loop_placed todo : forall spaces,
  spaces_inv size spaces ->
  Forall (texture_ok expand border) todo ->
  let r := pack_loop l size expand (2 * expand + border) len spaces todo in
  Forall (fun tb => snd tb = true ->
            inside size (footprint expand border (fst tb)) /\
            forall px py, covers (footprint expand border (fst tb)) px py ->
                          region spaces px py)
         (run_textures r)
  /\ placed_apart expand border (run_textures r).
Proof.
  induction todo as [|t rest IH]; intros spaces Hinv Hok; simpl.
  { split; [constructor|exact I]. }
  apply Forall_cons in Hok as [Ht Hrest].
  destruct (size_assertion l size (tex_rect t)); simpl.
  2:{ split; [|split; [discriminate|apply placed_apart_unplaced]].
      constructor; [discriminate|]. apply Forall_unplaced. discriminate. }
  destruct (padded_small _ _ _ _ Hconfig Ht) as [Ew Eh]. rewrite Ew, Eh.
  set (w := rect_w (tex_rect t) + (2 * expand + border)) in *.
  set (h := rect_h (tex_rect t) + (2 * expand + border)) in *.
  destruct (scan_spaces spaces w h (length spaces)) as [[j space]|] eqn:Hscan.
  2:{ destruct (IH spaces Hinv Hrest) as [IH1 IH2]. simpl.
      split; [constructor; [discriminate|exact IH1]|].
      split; [discriminate|exact IH2]. }
  apply scan_spaces_some in Hscan as (Hj & Hsp & Hw & Hh & _).
  assert (Hspace : inside size space).
  { destruct Hinv as [Hin _]. rewrite Forall_forall in Hin.
    apply Hin, list_elem_of_lookup. eauto. }
  assert (Hw0 : 0 <= w) by (destruct Hconfig as (? & ? & ? & ?), Ht; lia).
  assert (Hh0 : 0 <= h) by (destruct Hconfig as (? & ? & ? & ?), Ht as (? & ? & ?); lia).
  assert (Hfoot := move_to_footprint _ _ _ _ _ Hconfig Ht Hspace Hw Hh).
  fold w h in Hfoot.
  assert (Hsize : size <= Int32.max_signed) by (destruct Hconfig; lia).
  destruct (update_spaces (capacity l len) spaces j space w h)
    as [spaces'|] eqn:Hupd.
  - destruct (update_spaces_inv _ _ _ _ _ _ _ _ Hinv Hsize Hsp
                (conj Hw0 Hw) (conj Hh0 Hh) Hupd)
      as (Hinv' & Hbox_in & Hbox_reg & Hreg').
    destruct (IH spaces' Hinv' Hrest) as [IH1 IH2]. simpl.
    split; [constructor|split].
    + simpl. intros _. rewrite Hfoot. auto.
    + eapply Forall_impl; [exact IH1|]. simpl.
      intros tb Htb Hplaced. destruct (Htb Hplaced) as [Hi Hc].
      split; [exact Hi|]. intros px py Hcov. now apply Hreg', Hc.
    + simpl. intros _. eapply Forall_impl; [exact IH1|]. simpl.
      intros tb Htb Hplaced. destruct (Htb Hplaced) as [_ Hc].
      rewrite Hfoot. intros px py [Hb Hcov].
      apply Hc, Hreg' in Hcov. tauto.
    + exact IH2.
  - simpl. split; [constructor|split].
    + simpl. intros _. rewrite Hfoot. split.
      * destruct Hspace as (? & ? & ? & ? & ? & ?).
        unfold inside, corner_box. simpl. lia.
      * intros px py Hc. exists space. split.
        -- apply list_elem_of_In, list_elem_of_lookup. eauto.
        -- unfold covers, corner_box in *. simpl in *. lia.
    + apply Forall_unplaced. discriminate.
    + intros _. apply Forall_unplaced. discriminate.
    + apply placed_apart_unplaced.
Qed.
End LoopFacts.

Lemma placed_apart_lookup expand border ts i j ti tj :
  placed_apart expand border ts -> i <> j ->
  ts !! i = Some (ti, true) -> ts !! j = Some (tj, true) ->
  disjoint (footprint expand border ti) (footprint expand border tj).
Proof.
  revert i j. induction ts as [|tb ts IH]; intros i j Hap Hne Hi Hj;
    [discriminate|].
  destruct Hap as [Hhead Htail].
  destruct i as [|i], j as [|j]; simpl in *; try congruence.
  - injection Hi as ->. rewrite Forall_forall in Hhead.
    apply (Hhead eq_refl (tj, true)); [|reflexivity].
    apply list_elem_of_lookup. eauto.
  - injection Hj as ->. apply disjoint_sym. rewrite Forall_forall in Hhead.
    apply (Hhead eq_refl (ti, true)); [|reflexivity].
    apply list_elem_of_lookup. eauto.
  - apply (IH i j); auto.
Qed.

(** ** The whole of [pack] *)

Lemma start_space_inv size : 0 <= size -> spaces_inv size [start_space size].
Proof.
  intros H. split; simpl; [|auto].
  constructor; [|constructor]. unfold inside, start_space. simpl. lia.
Qed.

Lemma pack_run_completed (l : lang) (S : LibrarySort l) textures size expand border :
  run_status (pack_run l textures size expand border) = Completed ->
  max_size_ok (measure_all (padding_of expand border) textures) size = true /\
  area_ok (measure_all (padding_of expand border) textures) size = true /\
  pack_run l textures size expand border
  = pack_loop l size expand (padding_of expand border) (length textures)
              [start_space size] (sort_textures textures).
Proof.
  unfold pack_run.
  destruct (max_size_ok _ size); simpl; [|discriminate].
  destruct (area_ok _ size); simpl; [|discriminate].
  destruct (has_room _ 0); simpl; [auto|discriminate].
Qed.

Lemma pack_run_placed (l : lang) (S : LibrarySort l) textures size expand border :
  sort_contract l S ->
  config_ok size expand border ->
  Forall (texture_ok expand border) textures ->
  run_status (pack_run l textures size expand border) = Completed ->
  Forall (fun tb => snd tb = true ->
            inside size (footprint expand border (fst tb)))
         (run_textures (pack_run l textures size expand border))
  /\ placed_apart expand border
       (run_textures (pack_run l textures size expand border)).
Proof.
  intros Hsort Hconfig Hok Hdone.
  apply pack_run_completed in Hdone as (_ & _ & ->).
  rewrite (padding_of_small _ _ _ Hconfig).
  assert (Hsorted : Forall (texture_ok expand border) (sort_textures textures)).
  { rewrite <- (proj1 Hsort textures). exact Hok. }
  destruct (pack_loop_placed l size expand border (length textures) Hconfig
              (sort_textures textures) [start_space size]
              (start_space_inv size ltac:(destruct Hconfig as (?&?&?&?); lia))
              Hsorted) as [H1 H2].
  split; [|exact H2].
  eapply Forall_impl; [exact H1|]. simpl. tauto.
Qed.

(** C1.  After a pack that completes, the padded footprints of two distinct
    placed textures (the rectangles of size (w + 2*expand + border) x
    (h + 2*expand + border) at (rect.x - expand, rect.y - expand)) share no
    pixel.  Both programs; the configuration and the texture sizes are pixel
    counts on which the [int] arithmetic does not overflow. *)
Theorem pack_no_overlap (l : lang) (S : LibrarySort l)
    (textures : list blocs__texture) (size expand border : Z)
    (i j : nat) (ti tj : blocs__texture) :
  sort_contract l S ->
  config_ok size expand border ->
  Forall (texture_ok expand border) textures ->
  run_status (pack_run l textures size expand border) = Completed ->
  i <> j ->
  run_textures (pack_run l textures size expand border) !! i = Some (ti, true) ->
  run_textures (pack_run l textures size expand border) !! j = Some (tj, true) ->
  disjoint (footprint expand border ti) (footprint expand border tj).
Proof.
  intros Hsort Hconfig Hok Hdone Hij Hi Hj.
  destruct (pack_run_placed l S textures size expand border Hsort Hconfig Hok Hdone)
    as [_ Hapart].
  eapply placed_apart_lookup; eauto.
Qed.

(** C2, as amended.  After a pack that completes, every placed texture has
    [expand <= rect.x], [expand <= rect.y],
    [rect.x + rect.w + expand + border <= size] and
    [rect.y + rect.h + expand + border <= size]: its padded footprint, which
    starts [expand] pixels before [rect.x], lies in the atlas. *)
Theorem pack_containment (l : lang) (S : LibrarySort l)
    (textures : list blocs__texture) (size expand border : Z)
    (t : blocs__texture) :
  sort_contract l S ->
  config_ok size expand border ->
  Forall (texture_ok expand border) textures ->
  run_status (pack_run l textures size expand border) = Completed ->
  In (t, true) (run_textures (pack_run l textures size expand border)) ->
  expand <= rect_x (tex_rect t) /\ expand <= rect_y (tex_rect t) /\
  rect_x (tex_rect t) + rect_w (tex_rect t) + expand + border <= size /\
  rect_y (tex_rect t) + rect_h (tex_rect t) + expand + border <= size.
Proof.
  intros Hsort Hconfig Hok Hdone Hin.
  destruct (pack_run_placed l S textures size expand border Hsort Hconfig Hok Hdone)
    as [Hinside _].
  rewrite Forall_forall in Hinside.
  specialize (Hinside (t, true) (proj2 (list_elem_of_In _ _) Hin) eq_refl).
  unfold inside, footprint in Hinside. simpl in Hinside. lia.
Qed.

Lemma pack_no_overlap_witness :
  disjoint (footprint 1 1 (Texture (Rect 1 1 8 16) 0 0))
           (footprint 1 1 (Texture (Rect 12 1 16 8) 1 512)).
Proof.
  apply (pack_no_overlap Cpp17 (stable_library_sort Cpp17)
           [fresh_texture 8 16 0 0; fresh_texture 16 8 1 512;
            fresh_texture 8 8 2 1024] 32 1 1 0%nat 1%nat).
  - apply stable_sort_contract.
  - unfold config_ok, Int32.max_signed. lia.
  - repeat constructor; unfold Int32.max_signed; simpl; lia.
  - vm_compute. reflexivity.
  - lia.
  - vm_compute. reflexivity.
  - vm_compute. reflexivity.
Defined.

(** C2 as the claim states it fails when [expand > 0]: a texture 8 wide put
    in the corner of a 10 x 10 atlas with [expand = 1] stands at [x = 1], and
    1 + 8 + (2*1 + 0) = 11 exceeds the size. *)
Lemma containment_with_full_padding_fails :
  let textures := [fresh_texture 1 1 0 0; fresh_texture 8 2 1 4;
                   fresh_texture 1 1 2 68] in
  let r := pack_run C99 (S := stable_library_sort C99) textures 10 1 0 in
  config_ok 10 1 0 /\ Forall (texture_ok 1 0) textures /\
  run_status r = Completed /\
  exists t, In (t, true) (run_textures r) /\
    ~ (rect_x (tex_rect t) + rect_w (tex_rect t) + (2 * 1 + 0) <= 10).
Proof.
  cbv zeta. split; [unfold config_ok, Int32.max_signed; lia|].
  split; [repeat constructor; unfold Int32.max_signed; simpl; lia|].
  split; [vm_compute; reflexivity|].
  exists (Texture (Rect 1 1 8 2) 1 4). split.
  - vm_compute. left. reflexivity.
  - simpl. lia.
Qed.

Lemma pack_containment_witness :
  1 <= 1 /\ 1 <= 1 /\ 1 + 8 + 1 + 0 <= 10 /\ 1 + 2 + 1 + 0 <= 10.
Proof.
  apply (pack_containment C99 (stable_library_sort C99)
           [fresh_texture 1 1 0 0; fresh_texture 8 2 1 4;
            fresh_texture 1 1 2 68] 10 1 0 (Texture (Rect 1 1 8 2) 1 4)).
  - apply stable_sort_contract.
  - unfold config_ok, Int32.max_signed. lia.
  - repeat constructor; unfold Int32.max_signed; simpl; lia.
  - vm_compute. reflexivity.
  - vm_compute. left. reflexivity.
Defined.

(** ** A texture that fits nowhere *)





(** ** The split of a free space *)

Lemma alter_as_insert {A : Type} (f : A -> A) (xs : list A) (j : nat) (x : A) :
  xs !! j = Some x -> alter f j xs = <[j := f x]> xs.
Proof.
  revert j. induction xs as [|y ys IH]; intros [|j] H; simpl in *;
    try discriminate.
  - injection H as ->. reflexivity.
  - f_equal. now apply IH.
Qed.

(** C7.  When the padded box [w] x [h] of a texture goes in a free space
    wider than [w] and taller than [h], the new space
    [{space.x + w, space.y, space.w - w, h}] is appended at the end of the
    list and the space taken, still at its index, becomes
    [{space.x, space.y + h, space.w, space.h - h}]; the list is one longer.
    (In C the list is an array: there must be a slot left for the append.) *)
Theorem split_pushes_then_shrinks (l : lang) (size expand border : Z) (len : nat)
    (spaces : list blocs__rect) (t : blocs__texture) (rest : list blocs__texture)
    (j : nat) (space : blocs__rect) :
  let w := rect_w (tex_rect t) + (2 * expand + border) in
  let h := rect_h (tex_rect t) + (2 * expand + border) in
  config_ok size expand border ->
  texture_ok expand border t ->
  Forall (inside size) spaces ->
  size_assertion l size (tex_rect t) = true ->
  scan_spaces spaces w h (length spaces) = Some (j, space) ->
  w < rect_w space -> h < rect_h space ->
  has_room (capacity l len) (length spaces) = true ->
  let spaces' :=
    <[j := Rect (rect_x space) (rect_y space + h) (rect_w space) (rect_h space - h)]>
      (spaces ++ [Rect (rect_x space + w) (rect_y space) (rect_w space - w) h]) in
  pack_loop l size expand (2 * expand + border) len spaces (t :: rest)
  = run_cons (move_to expand space t, true)
      (pack_loop l size expand (2 * expand + border) len spaces' rest)
  /\ length spaces' = S (length spaces)
  /\ spaces' !! j
     = Some (Rect (rect_x space) (rect_y space + h) (rect_w space) (rect_h space - h))
  /\ spaces' !! length spaces
     = Some (Rect (rect_x space + w) (rect_y space) (rect_w space - w) h).
Proof.
  intros w h Hconfig Ht Hin Hassert Hscan Hw Hh Hroom spaces'.
  destruct (padded_small _ _ _ _ Hconfig Ht) as [Ew Eh]. fold w h in Ew, Eh.
  pose proof (scan_spaces_some _ _ _ _ _ _ Hscan) as (Hj & Hsp & _).
  assert (Hspace : inside size space).
  { rewrite Forall_forall in Hin. apply Hin, list_elem_of_lookup. eauto. }
  assert (Hw0 : 0 <= w) by (destruct Hconfig as (?&?&?&?), Ht as (?&?&?); lia).
  assert (Hh0 : 0 <= h) by (destruct Hconfig as (?&?&?&?), Ht as (?&?&?); lia).
  assert (Hsize : size <= 2147483647)
    by (destruct Hconfig as (?&?&?&?); unfold Int32.max_signed in *; lia).
  destruct Hspace as (Hx & Hy & Hsw & Hsh & Hxw & Hyh).
  assert (Hcut : cut_top h space
          = Rect (rect_x space) (rect_y space + h) (rect_w space) (rect_h space - h)).
  { unfold cut_top.
    rewrite int32_add_small, int32_sub_small by (apply in_range_bounds; lia).
    reflexivity. }
  assert (Hnew : new_space space w h
          = Rect (rect_x space + w) (rect_y space) (rect_w space - w) h).
  { unfold new_space.
    rewrite int32_add_small, int32_sub_small by (apply in_range_bounds; lia).
    reflexivity. }
  assert (Hupd : update_spaces (capacity l len) spaces j space w h = Some spaces').
  { unfold update_spaces.
    destruct (Z.eqb_spec w (rect_w space)) as [E|_]; [lia|].
    destruct (Z.eqb_spec h (rect_h space)) as [E|_]; [lia|]. simpl.
    rewrite Hroom. f_equal. unfold spaces'.
    rewrite (alter_as_insert _ _ _ space)
      by (rewrite lookup_app_l by exact Hj; exact Hsp).
    rewrite Hcut, Hnew. reflexivity. }
  split; [|split; [|split]].
  - simpl. rewrite Hassert. simpl. rewrite Ew, Eh, Hscan, Hupd. reflexivity.
  - unfold spaces'. rewrite length_insert, length_app. simpl. lia.
  - unfold spaces'. apply list_lookup_insert_eq. rewrite length_app. simpl. lia.
  - unfold spaces'. rewrite list_lookup_insert_ne by lia.
    rewrite lookup_app_r by lia. rewrite Nat.sub_diag. reflexivity.
Qed.

Lemma split_pushes_then_shrinks_witness :
  pack_loop C99 32 0 (2 * 0 + 0) 3 [Rect 0 0 32 32] [fresh_texture 8 16 0 0]
  = run_cons (move_to 0 (Rect 0 0 32 32) (fresh_texture 8 16 0 0), true)
      (pack_loop C99 32 0 (2 * 0 + 0) 3
         (<[0%nat := Rect 0 (0 + (16 + (2 * 0 + 0))) 32 (32 - (16 + (2 * 0 + 0)))]>
            ([Rect 0 0 32 32]
             ++ [Rect (0 + (8 + (2 * 0 + 0))) 0 (32 - (8 + (2 * 0 + 0)))
                      (16 + (2 * 0 + 0))])) []).
Proof.
  refine (proj1 (split_pushes_then_shrinks C99 32 0 0 3 [Rect 0 0 32 32]
                   (fresh_texture 8 16 0 0) [] 0%nat (Rect 0 0 32 32)
                   _ _ _ _ _ _ _ _)).
  - unfold config_ok, Int32.max_signed. lia.
  - unfold texture_ok, Int32.max_signed. simpl. lia.
  - repeat constructor; simpl; lia.
  - reflexivity.
  - reflexivity.
  - simpl. lia.
  - simpl. lia.
  - reflexivity.
Defined.

(** ** The number of free spaces *)

Lemma update_spaces_length cap spaces j space w h spaces' :
  update_spaces cap spaces j space w h = Some spaces' ->
  (length spaces' <= S (length spaces))%nat.
Proof.
  unfold update_spaces.
  destruct ((w =? rect_w space) && (h =? rect_h space)).
  { destruct (spaces !! pred (length spaces)); [|discriminate].
    intros H. injection H as <-.
    destruct (j <? pred (length spaces))%nat;
      rewrite ?length_insert, length_take; lia. }
  destruct (h =? rect_h space).
  { intros H. injection H as <-. rewrite length_alter. lia. }
  destruct (w =? rect_w space).
  { intros H. injection H as <-. rewrite length_alter. lia. }
  destruct (has_room cap (length spaces)); [|discriminate].
  intros H. injection H as <-. rewrite length_alter, length_app. simpl. lia.
Qed.

(** each texture visited adds one free space at most *)
Lemma pack_loop_spaces_length l size expand padding len todo : forall spaces,
  (length (run_spaces (pack_loop l size expand padding len spaces todo))
   <= length spaces + length todo)%nat.
Proof.
  induction todo as [|t rest IH]; intros spaces; simpl; [lia|].
  destruct (size_assertion l size (tex_rect t)); simpl; [|lia].
  destruct (scan_spaces _ _ _ _) as [[j space]|].
  - destruct (update_spaces _ _ _ _ _ _) as [spaces'|] eqn:Hupd; simpl; [|lia].
    apply update_spaces_length in Hupd. specialize (IH spaces'). lia.
  - simpl. specialize (IH spaces). lia.
Qed.

(** C10.  Three textures 3 x 3, 2 x 2 and 1 x 1 in an atlas of 32: each
    placement splits a space, so the free spaces are 2, 3 and then 4, one
    more than the 3 textures.  The C program has 3 slots, [spaces[len]], and
    writes the fourth space past them; the C++ vector grows to 4. *)
Lemma free_space_array_overrun :
  let textures := [fresh_texture 3 3 0 0; fresh_texture 2 2 1 36;
                   fresh_texture 1 1 2 52] in
  run_status (pack_run C99 (S := stable_library_sort C99) textures 32 0 0)
    = Undefined
  /\ run_status (pack_run Cpp17 (S := stable_library_sort Cpp17) textures 32 0 0)
    = Completed
  /\ length (run_spaces
       (pack_run Cpp17 (S := stable_library_sort Cpp17) textures 32 0 0)) = 4%nat.
Proof. vm_compute. repeat split; reflexivity. Qed.

(** ** The order of placement *)

Lemma pack_loop_order l size expand padding len todo : forall spaces,
  map identity (placement_order (pack_loop l size expand padding len spaces todo))
  = map identity todo
  /\ map (fun t => rect_h (tex_rect t))
         (placement_order (pack_loop l size expand padding len spaces todo))
     = map (fun t => rect_h (tex_rect t)) todo.
Proof.
  unfold placement_order.
  induction todo as [|t rest IH]; intros spaces; simpl; [auto|].
  destruct (size_assertion l size (tex_rect t)); simpl.
  2:{ unfold unplaced. rewrite !map_map. simpl. split; f_equal;
      apply map_ext; reflexivity. }
  destruct (scan_spaces _ _ _ _) as [[j space]|]; simpl.
  - destruct (update_spaces _ _ _ _ _ _) as [spaces'|]; simpl.
    + destruct (IH spaces') as [-> ->]. auto.
    + unfold unplaced. rewrite !map_map. simpl. split; f_equal;
        apply map_ext; reflexivity.
  - destruct (IH spaces) as [-> ->]. auto.
Qed.

Lemma in_order_heights (l : lang) (a b : blocs__texture) :
  0 <= rect_h (tex_rect a) <= Int32.max_signed ->
  0 <= rect_h (tex_rect b) <= Int32.max_signed ->
  in_order l a b = true -> rect_h (tex_rect b) <= rect_h (tex_rect a).
Proof.
  unfold Int32.max_signed. intros Ha Hb. destruct l; simpl.
  - unfold blocs__compare_area.
    rewrite int32_sub_small by (apply in_range_bounds; lia).
    rewrite Z.leb_le. lia.
  - unfold taller. rewrite Z.gtb_ltb, negb_true_iff, Z.ltb_ge. lia.
Qed.

Lemma sorted_tallest_first (l : lang) (ts : list blocs__texture) :
  Forall (fun t => 0 <= rect_h (tex_rect t) <= Int32.max_signed) ts ->
  Sorted (fun a b => in_order l a b = true) ts ->
  tallest_first ts.
Proof.
  unfold tallest_first. intros Hok Hs.
  induction Hs as [|a ts Hs IH Hd]; simpl; [constructor|].
  apply Forall_cons in Hok as [Ha Hts].
  constructor; [auto|].
  destruct Hd as [|b ts' Hab]; simpl; constructor.
  apply Forall_cons in Hts as [Hb _]. eapply in_order_heights; eauto.
Qed.

(** C5 as the claim states it fails for ties: [qsort] and [std::sort] need
    not keep the order of elements that compare equal.  With a library sort
    that meets their contract and swaps equal elements, three textures of
    height 3 registered as 0, 1, 2 are placed in the order 2, 1, 0. *)
Lemma equal_heights_may_swap :
  let textures := [fresh_texture 3 3 0 0; fresh_texture 2 3 1 36;
                   fresh_texture 1 3 2 60] in
  let r := pack_run C99 (S := reversing_library_sort C99) textures 32 0 0 in
  sort_contract C99 (reversing_library_sort C99) /\
  run_status r = Completed /\
  map name_index (placement_order r) = [2; 1; 0] /\
  map name_index (stable_sort (in_order C99) textures) = [0; 1; 2].
Proof.
  cbv zeta. split; [apply reversing_sort_contract|].
  vm_compute. repeat split; reflexivity.
Qed.

(** C5, as amended.  The textures are placed in an order that is a
    rearrangement of the input list with the heights from tallest to
    shortest; nothing is promised of the order of textures of equal height
    (the library sort decides). *)
Theorem placement_order_tallest_first (l : lang) (S : LibrarySort l)
    (textures : list blocs__texture) (size expand border : Z) :
  sort_contract l S ->
  Forall (fun t => 0 <= rect_h (tex_rect t) <= Int32.max_signed) textures ->
  run_status (pack_run l textures size expand border) = Completed ->
  Permutation (map identity textures)
    (map identity (placement_order (pack_run l textures size expand border)))
  /\ tallest_first (placement_order (pack_run l textures size expand border)).
Proof.
  intros Hsort Hok Hdone.
  apply pack_run_completed in Hdone as (_ & _ & ->).
  destruct (pack_loop_order l size expand (padding_of expand border)
              (length textures) (sort_textures textures) [start_space size])
    as [Hid Hh].
  split.
  - rewrite Hid. apply Permutation_map, (proj1 Hsort).
  - unfold tallest_first. rewrite Hh.
    apply (sorted_tallest_first l); [|apply (proj2 Hsort)].
    rewrite <- (proj1 Hsort textures). exact Hok.
Qed.

Lemma placement_order_tallest_first_witness :
  let textures := [fresh_texture 8 8 0 0; fresh_texture 16 8 1 256;
                   fresh_texture 8 16 2 768] in
  let r := pack_run C99 (S := stable_library_sort C99) textures 32 0 0 in
  Permutation (map identity textures) (map identity (placement_order r))
  /\ tallest_first (placement_order r).
Proof.
  apply (placement_order_tallest_first C99 (stable_library_sort C99)).
  - apply stable_sort_contract.
  - repeat constructor; unfold Int32.max_signed; simpl; lia.
  - vm_compute. reflexivity.
Defined.

(** ** Sequencing and loops *)

Lemma and_then_ext {A : Type} (r : status * A) (k1 k2 : A -> status * A) :
  (forall a, k1 a = k2 a) -> and_then r k1 = and_then r k2.
Proof. intros H. destruct r as [[| |] a]; simpl; auto. Qed.

Lemma and_then_assoc {A : Type} (r : status * A) (k1 k2 : A -> status * A) :
  and_then (and_then r k1) k2 = and_then r (fun a => and_then (k1 a) k2).
Proof. destruct r as [[| |] a]; reflexivity. Qed.

Lemma run_steps_app {A B : Type} (f : B -> A -> status * A) (xs ys : list B) (a : A) :
  run_steps f (xs ++ ys) a = and_then (run_steps f xs a) (run_steps f ys).
Proof.
  revert a. induction xs as [|x xs IH]; intros a; simpl; [reflexivity|].
  rewrite and_then_assoc. apply and_then_ext. exact IH.
Qed.

Lemma run_steps_ext {A B : Type} (f g : B -> A -> status * A) (xs : list B) (a : A) :
  (forall x a', In x xs -> f x a' = g x a') -> run_steps f xs a = run_steps g xs a.
Proof.
  revert a. induction xs as [|x xs IH]; intros a H; simpl; [reflexivity|].
  rewrite (H x a) by now left. apply and_then_ext.
  intros a'. apply IH. intros y a'' Hy. apply H. now right.
Qed.

(** a loop whose body is itself a run of steps is the run of all the steps *)
Lemma run_steps_concat {A B X : Type} (g : B -> A -> status * A)
    (h : X -> list B) (xs : list X) (a : A) :
  run_steps (fun x => run_steps g (h x)) xs a
  = run_steps g (concat (map h xs)) a.
Proof.
  revert a. induction xs as [|x xs IH]; intros a; simpl; [reflexivity|].
  rewrite run_steps_app. apply and_then_ext. exact IH.
Qed.

Lemma run_steps_map {A B X : Type} (g : B -> A -> status * A)
    (h : X -> B) (xs : list X) (a : A) :
  run_steps (fun x => g (h x)) xs a = run_steps g (map h xs) a.
Proof.
  revert a. induction xs as [|x xs IH]; intros a; simpl; [reflexivity|].
  apply and_then_ext. exact IH.
Qed.

Lemma in_counters (n : nat) (i step v : Z) :
  In v (counters n i step) <->
  exists k, 0 <= k < Z.of_nat n /\ v = i + k * step.
Proof.
  revert i. induction n as [|n IH]; intros i; simpl.
  - split; [tauto|]. intros (k & Hk & _). lia.
  - rewrite IH. split.
    + intros [<-|(k & Hk & ->)].
      * exists 0. lia.
      * exists (k + 1). lia.
    + intros (k & Hk & ->). destruct (Z.eq_dec k 0) as [->|Hk0].
      * left. lia.
      * right. exists (k - 1). lia.
Qed.

(** a [for] loop whose counter stays an [int] visits the counters in turn *)
Lemma for_lt_counters {A : Type} (body : Z -> A -> status * A) (hi step : Z)
    (n : nat) : forall (fuel : nat) (i : Z) (a : A),
  0 < step -> (n <= fuel)%nat ->
  i + (Z.of_nat n - 1) * step < hi <= i + Z.of_nat n * step ->
  i + Z.of_nat n * step <= Int32.max_signed -> Int32.min_signed <= i ->
  for_lt fuel i hi step body a = run_steps body (counters n i step) a.
Proof.
  unfold Int32.max_signed, Int32.min_signed.
  induction n as [|n IH]; intros fuel i a Hstep Hfuel Hhi Hmax Hmin.
  - simpl. destruct fuel; simpl;
      destruct (Z.ltb_spec i hi); try reflexivity; lia.
  - destruct fuel as [|fuel]; [lia|]. simpl.
    destruct (Z.ltb_spec i hi); [|lia].
    apply and_then_ext. intros a'.
    rewrite int32_add_small by (apply in_range_bounds; lia).
    apply IH; lia.
Qed.

Lemma for_loop_counters {A : Type} (body : Z -> A -> status * A)
    (lo hi step : Z) (n : nat) (a : A) :
  0 < step -> hi = lo + Z.of_nat n * step ->
  hi <= Int32.max_signed -> Int32.min_signed <= lo ->
  for_loop lo hi step body a = run_steps body (counters n lo step) a.
Proof.
  intros Hstep -> Hmax Hmin. unfold for_loop.
  apply for_lt_counters; try lia. nia.
Qed.

(** ** Byte copies *)

Lemma copy_byte_spec (src dst : list byte) (si di : Z) :
  0 <= si < Z.of_nat (length src) -> 0 <= di < Z.of_nat (length dst) ->
  exists dst', copy_byte src si di dst = (Completed, dst')
    /\ length dst' = length dst
    /\ load dst' di = load src si
    /\ forall i, i <> di -> load dst' i = load dst i.
Proof.
  intros Hsi Hdi. unfold copy_byte, load, store.
  destruct (Z.leb_spec 0 si); [|lia].
  destruct (src !! Z.to_nat si) as [v|] eqn:Hv.
  2:{ apply lookup_ge_None in Hv. lia. }
  destruct (Z.leb_spec 0 di); [|lia].
  destruct (Z.ltb_spec di (Z.of_nat (length dst))); [|lia]. simpl.
  exists (<[Z.to_nat di := v]> dst). repeat split.
  - apply length_insert.
  - apply list_lookup_insert_eq. lia.
  - intros i Hi. destruct (Z.leb_spec 0 i); [|reflexivity].
    apply list_lookup_insert_ne. lia.
Qed.

Lemma copy_plan_spec (src : list byte) (plan : list (Z * Z)) : forall dst,
  Forall (fun e => 0 <= fst e < Z.of_nat (length src) /\
                   0 <= snd e < Z.of_nat (length dst)) plan ->
  exists dst', run_steps (copy_entry src) plan dst = (Completed, dst')
    /\ length dst' = length dst
    /\ (forall i, ~ In i (map snd plan) -> load dst' i = load dst i)
    /\ (functional_plan plan ->
        forall si di, In (si, di) plan -> load dst' di = load src si).
Proof.
  induction plan as [|[s0 d0] plan IH]; intros dst Hok.
  { exists dst. simpl. repeat split; auto. intros _ si di []. }
  apply Forall_cons in Hok as [[Hs0 Hd0] Hok]. simpl in Hs0, Hd0.
  destruct (copy_byte_spec src dst s0 d0 Hs0 Hd0)
    as (dst1 & Hcopy & Hlen1 & Hat & Hother).
  destruct (IH dst1) as (dst' & Hrun & Hlen' & Hframe & Hval).
  { eapply Forall_impl; [exact Hok|]. simpl. intros e He. rewrite Hlen1. exact He. }
  exists dst'. simpl. unfold copy_entry at 1. simpl. rewrite Hcopy. simpl.
  split; [exact Hrun|]. split; [congruence|]. split.
  - intros i Hi. simpl in Hi. rewrite Hframe by tauto.
    apply Hother. intros E. apply Hi. left. congruence.
  - intros Hfun si di Hin.
    assert (Hfun' : functional_plan plan).
    { intros a a' b Ha Ha'. apply (Hfun a a' b); now right. }
    destruct (in_dec Z.eq_dec di (map snd plan)) as [Hlater|Hlater].
    + apply in_map_iff in Hlater as ([si' di'] & Heq & Hin'). simpl in Heq.
      subst di'. rewrite (Hval Hfun' si' di Hin').
      f_equal. apply (Hfun si' si di); [now right|exact Hin].
    + rewrite Hframe by exact Hlater.
      destruct Hin as [Heq|Hin].
      * injection Heq as <- <-. exact Hat.
      * exfalso. apply Hlater. apply in_map_iff. exists (si, di). auto.
Qed.

Lemma memcpy_spec (src dst : list byte) (s d n : Z) :
  0 <= n -> 0 <= s -> s + n <= Z.of_nat (length src) ->
  0 <= d -> d + n <= Z.of_nat (length dst) ->
  exists dst', memcpy src s d n dst = (Completed, dst')
    /\ length dst' = length dst
    /\ (forall i, ~ (d <= i < d + n) -> load dst' i = load dst i)
    /\ (forall k, 0 <= k < n -> load dst' (d + k) = load src (s + k)).
Proof.
  intros Hn Hs Hsn Hd Hdn. unfold memcpy.
  destruct (Z.ltb_spec n 0); [lia|].
  change (fun k => copy_byte src (s + k) (d + k))
    with (fun k => copy_entry src (s + k, d + k)).
  rewrite (run_steps_map (copy_entry src) (fun k => (s + k, d + k))).
  set (plan := map (fun k => (s + k, d + k)) (seqZ 0 n)).
  assert (Hin : forall si di, In (si, di) plan <->
                  exists k, 0 <= k < n /\ si = s + k /\ di = d + k).
  { intros si di. unfold plan. rewrite in_map_iff. split.
    - intros (k & Heq & Hk). injection Heq as <- <-.
      apply list_elem_of_In, elem_of_seqZ in Hk. exists k. lia.
    - intros (k & Hk & -> & ->). exists k. split; [reflexivity|].
      apply list_elem_of_In, elem_of_seqZ. lia. }
  destruct (copy_plan_spec src plan dst) as (dst' & Hrun & Hlen & Hframe & Hval).
  { apply Forall_forall. intros [si di] He.
    apply list_elem_of_In, Hin in He as (k & Hk & -> & ->). simpl. lia. }
  exists dst'. split; [exact Hrun|]. split; [exact Hlen|]. split.
  - intros i Hi. apply Hframe. intros Hmem.
    apply in_map_iff in Hmem as ([si di] & Heq & He). simpl in Heq. subst di.
    apply Hin in He as (k & Hk & _ & ->). lia.
  - intros k Hk. apply Hval.
    + intros si si' di H1 H2.
      apply Hin in H1 as (k1 & _ & -> & ->). apply Hin in H2 as (k2 & _ & -> & E).
      lia.
    + apply Hin. exists k. auto.
Qed.

(** ** Registration *)

Lemma buffer_length_small (image : blocs__image) :
  0 <= img_w image * img_h image * 4 <= UInt32.max_unsigned ->
  buffer_length image = img_w image * img_h image * 4.
Proof.
  unfold buffer_length, UInt32.wrap, UInt32.max_unsigned, Int32.mul, Int32.wrap,
    CHANNELS.
  generalize (img_w image * img_h image). intros a Ha.
  change (2 ^ 31) with 2147483648 in *. change (2 ^ 32) with 4294967296 in *.
  Z.div_mod_to_equations. lia.
Qed.

Lemma total_bytes_nonneg (l : lang) (size : Z) (images : list blocs__image) :
  Forall (image_ok l size) images -> 0 <= total_bytes images.
Proof.
  induction 1 as [|image images (Hw & Hh & _) _ IH]; simpl; [lia|]. nia.
Qed.

Lemma register_spec (l : lang) (size : Z) (images : list blocs__image) :
  forall (i : Z) (done slots : list blocs__texture) (buffer : list byte)
         (offset : Z),
  Forall (image_ok l size) images ->
  0 <= offset ->
  offset + total_bytes images <= Z.of_nat (length buffer) ->
  offset + total_bytes images <= UInt32.max_unsigned ->
  i = Z.of_nat (length done) ->
  i + Z.of_nat (length images) <= Int32.max_signed ->
  array_ready l slots (length images) ->
  exists st,
    register l size images i (Staging (done ++ slots) buffer offset)
      = (Completed, st)
    /\ map buffer_index (st_textures st)
       = map buffer_index done ++ offsets_from offset images
    /\ length (st_textures st) = (length done + length images)%nat
    /\ st_buffer_index st = offset + total_bytes images
    /\ length (st_buffer st) = length buffer.
Proof.
  induction images as [|image rest IH];
    intros i done slots buffer offset Hok Hoff Hcap Hu32 Hi Himax Hready.
  { exists (Staging (done ++ slots) buffer offset). simpl.
    assert (slots = []) as ->.
    { destruct l; simpl in Hready; [now apply length_zero_iff_nil|exact Hready]. }
    rewrite !app_nil_r. repeat split; try lia. }
  apply Forall_cons in Hok as [Him Hrest].
  pose proof (total_bytes_nonneg l size rest Hrest) as Htot.
  destruct Him as (Hw & Hh & (data & Hdata & Hlen) & Hsz).
  simpl in Hcap, Hu32, Himax.
  assert (Hbytes : 0 <= img_w image * img_h image * 4) by nia.
  assert (Hbl : buffer_length image = img_w image * img_h image * 4).
  { apply buffer_length_small. unfold UInt32.max_unsigned in *. lia. }
  destruct (memcpy_spec data buffer 0 offset (buffer_length image))
    as (buffer' & Hcpy & Hlen' & _); try lia.
  set (t := {| tex_rect := {| rect_x := 0; rect_y := 0;
                              rect_w := img_w image; rect_h := img_h image |};
               name_index := i; buffer_index := offset |}).
  assert (Hput : exists slots',
             put_texture l (done ++ slots) i t = Some ((done ++ [t]) ++ slots')
             /\ array_ready l slots' (length rest)).
  { destruct l; simpl in Hready |- *.
    - destruct slots as [|slot slots']; [discriminate|]. exists slots'.
      rewrite length_app. simpl.
      destruct (Z.leb_spec 0 i); [|lia].
      destruct (Z.ltb_spec i (Z.of_nat (length done + S (length slots')))); [|lia].
      simpl. split; [|simpl in Hready; lia]. f_equal.
      rewrite Hi, Nat2Z.id.
      replace (length done) with (length done + 0)%nat at 1 by lia.
      rewrite insert_app_r. simpl. now rewrite <- app_assoc.
    - subst slots. exists []. rewrite !app_nil_r. auto. }
  destruct Hput as (slots' & Hput & Hready').
  destruct (IH (i + 1) (done ++ [t]) slots' buffer'
              (offset + img_w image * img_h image * 4))
    as (st & Hreg & Hoffs & Hlent & Hidx & Hbuf); auto; try lia.
  { rewrite length_app. simpl. lia. }
  exists st. simpl.
  assert (Hsize : match l with
                  | C99 => negb ((img_w image <=? size) && (img_h image <=? size))
                  | Cpp17 => false
                  end = false).
  { destruct l; [|reflexivity].
    destruct Hsz as [H1 H2]. apply Z.leb_le in H1, H2. now rewrite H1, H2. }
  rewrite Hsize. unfold add_texture. rewrite Hdata.
  assert (Hsize' : match l with
                   | C99 => false
                   | Cpp17 => negb ((img_w image <? size) && (img_h image <? size))
                   end = false).
  { destruct l; [reflexivity|].
    destruct Hsz as [H1 H2]. apply Z.ltb_lt in H1, H2. now rewrite H1, H2. }
  rewrite Hsize'. simpl. fold t. rewrite Hput, Hcpy. simpl.
  unfold UInt32.add, UInt32.wrap. rewrite Hbl.
  rewrite Z.mod_small by (unfold UInt32.max_unsigned in Hu32; lia).
  unfold Int32.max_signed in Himax.
  rewrite int32_add_small by (apply in_range_bounds; lia).
  split; [exact Hreg|]. split.
  - rewrite Hoffs, map_app. simpl. now rewrite <- app_assoc.
  - rewrite Hlent, length_app. simpl. repeat split; lia.
Qed.

(** C9.  Images registered one after the other from an empty staging buffer
    get the offsets 0, w_0*h_0*4, w_0*h_0*4 + w_1*h_1*4, ...: each offset is
    the one before plus the bytes of the image before, and [buffer_index]
    ends at the sum of all.  (The images were read, they pass the size check
    and their bytes fit the staging buffer, so that every call returns.) *)
Theorem registration_offsets (l : lang) (size : Z) (images : list blocs__image)
    (textures : list blocs__texture) (buffer : list byte) :
  Forall (image_ok l size) images ->
  total_bytes images <= Z.of_nat (length buffer) ->
  total_bytes images <= UInt32.max_unsigned ->
  Z.of_nat (length images) <= Int32.max_signed ->
  array_ready l textures (length images) ->
  exists st,
    register l size images 0 (Staging textures buffer 0) = (Completed, st)
    /\ map buffer_index (st_textures st) = offsets_from 0 images
    /\ length (st_textures st) = length images
    /\ st_buffer_index st = total_bytes images.
Proof.
  intros Hok Hcap Hu32 Hlen Hready.
  destruct (register_spec l size images 0 [] textures buffer 0)
    as (st & Hreg & Hoffs & Hlent & Hidx & _); auto; try lia.
  exists st. simpl in *. repeat split; auto.
Qed.

(** ** The compositor *)

(** ** Bytes and pixels *)

Lemma byte_index_inj (width px py c px' py' c' : Z) :
  0 <= px < width -> 0 <= px' < width -> 0 <= c < 4 -> 0 <= c' < 4 ->
  byte_index width px py c = byte_index width px' py' c' ->
  px = px' /\ py = py' /\ c = c'.
Proof.
  unfold byte_index, CHANNELS. intros Hpx Hpx' Hc Hc' Heq.
  assert (Hrow : px + py * width = px' + py' * width) by lia.
  assert (py = py') by nia.
  subst py'. lia.
Qed.

Lemma byte_index_bounds (width height px py c : Z) :
  0 <= px < width -> 0 <= py < height -> 0 <= c < 4 ->
  0 <= byte_index width px py c < width * height * 4.
Proof. unfold byte_index, CHANNELS. intros. nia. Qed.

Lemma clamp_inside (v hi : Z) : 0 <= hi -> 0 <= clamp v 0 hi <= hi.
Proof. unfold clamp. lia. Qed.

Lemma clamp_to_edge_scaled (v hi : Z) :
  0 <= hi -> clamp_to_edge (v * CHANNELS) (hi * CHANNELS) = clamp v 0 hi * CHANNELS.
Proof.
  unfold clamp_to_edge, clamp, CHANNELS. intros Hhi.
  destruct (Z.ltb_spec (v * 4) 0); [lia|].
  rewrite Z.gtb_ltb. destruct (Z.ltb_spec (hi * 4) (v * 4)); lia.
Qed.

Lemma source_index_bounds (w h cx cy c : Z) :
  0 <= cx <= w - 1 -> 0 <= cy <= h - 1 -> 0 <= c < 4 ->
  0 <= (cx + cy * w) * 4 + c < w * h * 4.
Proof. intros. nia. Qed.

(** what running a blit plan does to the bytes of the atlas *)
Lemma blit_plan_runs (size expand : Z) (buffer : list byte) (t : blocs__texture)
    (plan : list (Z * Z)) (data : list byte) :
  0 <= expand ->
  is_blit_plan size expand t plan ->
  blit_ok size expand buffer t ->
  Z.of_nat (length data) = size * size * 4 ->
  exists data',
    run_steps (copy_entry buffer) plan data = (Completed, data')
    /\ length data' = length data
    /\ (forall px py c, 0 <= px < size -> 0 <= c < 4 ->
          ~ covers (written expand t) px py ->
          load data' (byte_index size px py c) = load data (byte_index size px py c))
    /\ (forall dx dy c,
          - expand <= dx < rect_w (tex_rect t) + expand ->
          - expand <= dy < rect_h (tex_rect t) + expand -> 0 <= c < 4 ->
          load data' (byte_index size (rect_x (tex_rect t) + dx)
                                 (rect_y (tex_rect t) + dy) c)
          = load buffer
              (buffer_index t
               + (clamp dx 0 (rect_w (tex_rect t) - 1)
                  + clamp dy 0 (rect_h (tex_rect t) - 1) * rect_w (tex_rect t))
                 * CHANNELS + c)).
Proof.
  intros He Hplan [(Hw & Hh & Hoff & Hbuf) Hin] Hlen.
  destruct Hin as (Hx & Hy & _ & _ & Hxw & Hyh).
  unfold written in Hx, Hy, Hxw, Hyh. simpl in Hx, Hy, Hxw, Hyh.
  unfold is_blit_plan in Hplan. simpl in Hplan.
  set (r := tex_rect t) in *.
  destruct (copy_plan_spec buffer plan data) as (data' & Hrun & Hlen' & Hframe & Hval).
  { apply Forall_forall. intros [si di] Hmem.
    apply list_elem_of_In, Hplan in Hmem as (dx & dy & c & Hdx & Hdy & Hc & -> & ->).
    simpl.
    pose proof (clamp_inside dx (rect_w r - 1) ltac:(lia)) as Hcx.
    pose proof (clamp_inside dy (rect_h r - 1) ltac:(lia)) as Hcy.
    pose proof (source_index_bounds (rect_w r) (rect_h r) _ _ c Hcx Hcy Hc) as Hs.
    pose proof (byte_index_bounds size size (rect_x r + dx) (rect_y r + dy) c
                  ltac:(lia) ltac:(lia) Hc) as Hd.
    unfold CHANNELS. lia. }
  exists data'. split; [exact Hrun|]. split; [exact Hlen'|]. split.
  - intros px py c Hpx Hc Hout. apply Hframe. intros Hmem.
    apply in_map_iff in Hmem as ([si di] & Heq & Hmem). simpl in Heq. subst di.
    apply Hplan in Hmem as (dx & dy & c' & Hdx & Hdy & Hc' & _ & Hdi).
    apply byte_index_inj in Hdi as (-> & -> & _); try lia.
    apply Hout. unfold covers, written. simpl. fold r. lia.
  - intros dx dy c Hdx Hdy Hc. apply Hval.
    + intros si si' di H1 H2.
      apply Hplan in H1 as (dx1 & dy1 & c1 & Hdx1 & Hdy1 & Hc1 & -> & ->).
      apply Hplan in H2 as (dx2 & dy2 & c2 & Hdx2 & Hdy2 & Hc2 & -> & Hdi).
      apply byte_index_inj in Hdi as (Hex & Hey & ->); try lia.
      assert (dx1 = dx2) as -> by lia. assert (dy1 = dy2) as -> by lia.
      reflexivity.
    + apply Hplan. exists dx, dy, c. auto.
Qed.

Lemma in_concat_map {X Y : Type} (f : X -> list Y) (xs : list X) (y : Y) :
  In y (concat (map f xs)) <-> exists x, In x xs /\ In y (f x).
Proof.
  rewrite in_concat. split.
  - intros (ys & Hys & Hy). apply in_map_iff in Hys as (x & <- & Hx). eauto.
  - intros (x & Hx & Hy). exists (f x). split; [|exact Hy].
    apply in_map_iff. eauto.
Qed.

Lemma expand_plan_is_blit_plan (size expand : Z) (t : blocs__texture) :
  0 <= expand -> 1 <= rect_w (tex_rect t) -> 1 <= rect_h (tex_rect t) ->
  is_blit_plan size expand t
    (expand_plan (buffer_index t) (tex_rect t) size expand).
Proof.
  intros He Hw Hh si di. unfold expand_plan. simpl.
  set (r := tex_rect t) in *.
  rewrite in_concat_map. split.
  - intros (y & Hy & Hrow). apply in_concat_map in Hrow as (x & Hx & Hpix).
    apply in_counters in Hy as (ky & Hky & ->).
    apply in_counters in Hx as (kx & Hkx & ->).
    unfold pixel_plan in Hpix. apply in_map_iff in Hpix as (c & Heq & Hc).
    injection Heq as <- <-.
    exists (kx - expand), (ky - expand), c.
    assert (Hc' : 0 <= c < 4) by (simpl in Hc; lia).
    split; [lia|]. split; [lia|]. split; [exact Hc'|].
    replace (- expand * CHANNELS + kx * CHANNELS) with ((kx - expand) * CHANNELS)
      by lia.
    replace (- expand * CHANNELS + ky * CHANNELS) with ((ky - expand) * CHANNELS)
      by lia.
    rewrite !clamp_to_edge_scaled by lia.
    unfold byte_index, CHANNELS. split; lia.
  - intros (dx & dy & c & Hdx & Hdy & Hc & -> & ->).
    exists ((dy) * CHANNELS). split.
    { apply in_counters. exists (dy + expand). unfold CHANNELS. lia. }
    apply in_concat_map. exists (dx * CHANNELS). split.
    { apply in_counters. exists (dx + expand). unfold CHANNELS. lia. }
    unfold pixel_plan. apply in_map_iff. exists c. split.
    + rewrite !clamp_to_edge_scaled by lia.
      unfold byte_index, CHANNELS. f_equal; lia.
    + simpl. lia.
Qed.

Lemma clamp_id (v hi : Z) : 0 <= v <= hi -> clamp v 0 hi = v.
Proof. unfold clamp. lia. Qed.

Lemma rows_plan_is_blit_plan (size : Z) (t : blocs__texture) :
  0 <= rect_w (tex_rect t) -> 0 <= rect_h (tex_rect t) ->
  is_blit_plan size 0 t (rows_plan (buffer_index t) (tex_rect t) size).
Proof.
  intros Hw Hh si di. unfold rows_plan. simpl.
  set (r := tex_rect t) in *.
  rewrite in_concat_map. split.
  - intros (y & Hy & Hrow).
    apply in_counters in Hy as (ky & Hky & ->).
    unfold row_plan in Hrow. apply in_map_iff in Hrow as (k & Heq & Hk).
    injection Heq as <- <-.
    apply list_elem_of_In, elem_of_seqZ in Hk. unfold CHANNELS in *.
    exists (k / 4), ky, (k mod 4).
    pose proof (Z.div_mod k 4 ltac:(lia)) as Hdm.
    pose proof (Z.mod_pos_bound k 4 ltac:(lia)) as Hmod.
    assert (Hq : 0 <= k / 4 < rect_w r) by (split; [apply Z.div_pos; lia|
      apply Z.div_lt_upper_bound; lia]).
    rewrite !clamp_id by lia. unfold byte_index, CHANNELS.
    repeat split; try lia.
  - intros (dx & dy & c & Hdx & Hdy & Hc & -> & ->).
    exists dy. split.
    { apply in_counters. exists dy. lia. }
    unfold row_plan. apply in_map_iff. exists (dx * 4 + c). split.
    + rewrite !clamp_id by lia. unfold byte_index, CHANNELS. f_equal; lia.
    + apply list_elem_of_In, elem_of_seqZ. unfold CHANNELS. lia.
Qed.

Lemma square_bound (size a b : Z) :
  0 <= a <= size -> 0 <= b <= size -> 0 <= a * b <= size * size.
Proof. intros. nia. Qed.

Lemma copy_pixel_plan (size expand : Z) (buffer : list byte) (t : blocs__texture)
    (dx dy : Z) (dst : list byte) :
  0 <= expand -> 4 * size * size <= Int32.max_signed ->
  blit_ok size expand buffer t ->
  - expand <= dx < rect_w (tex_rect t) + expand ->
  - expand <= dy < rect_h (tex_rect t) + expand ->
  copy_pixel buffer (buffer_index t) (tex_rect t) size
             (dy * CHANNELS) (dx * CHANNELS) dst
  = run_steps (copy_entry buffer)
      (pixel_plan (buffer_index t) (tex_rect t) size
                  (dy * CHANNELS) (dx * CHANNELS)) dst.
Proof.
  intros He Hsize [(Hw & Hh & Hoff & Hbuf) Hin] Hdx Hdy.
  destruct Hin as (Hx & Hy & _ & _ & Hxw & Hyh).
  unfold written in Hx, Hy, Hxw, Hyh. simpl in Hx, Hy, Hxw, Hyh.
  set (r := tex_rect t) in *.
  unfold Int32.max_signed in Hsize. unfold copy_pixel, pixel_plan.
  rewrite <- (run_steps_map (copy_entry buffer)). unfold CHANNELS in *.
  assert (Hss : 0 <= size * size) by nia.
  pose proof (clamp_inside dx (rect_w r - 1) ltac:(lia)) as Hcx.
  pose proof (clamp_inside dy (rect_h r - 1) ltac:(lia)) as Hcy.
  pose proof (clamp_to_edge_scaled dx (rect_w r - 1) ltac:(lia)) as Ecx.
  pose proof (clamp_to_edge_scaled dy (rect_h r - 1) ltac:(lia)) as Ecy.
  unfold CHANNELS in Ecx, Ecy.
  pose proof (square_bound size (clamp dy 0 (rect_h r - 1)) (rect_w r)
                ltac:(lia) ltac:(lia)) as Hsrc.
  pose proof (square_bound size (rect_y r + dy) size ltac:(lia) ltac:(lia)) as Hrow.
  assert (Hrow' : (rect_y r + dy) * size <= size * size - size) by nia.
  assert (Hsrc' : clamp dy 0 (rect_h r - 1) * rect_w r
                  <= size * size - rect_w r).
  { pose proof (square_bound size (clamp dy 0 (rect_h r - 1) + 1) (rect_w r)
                  ltac:(lia) ltac:(lia)).
    lia. }
  rewrite (int32_sub_small (rect_w r) 1) by (apply in_range_bounds; lia).
  rewrite (int32_sub_small (rect_h r) 1) by (apply in_range_bounds; lia).
  rewrite (int32_mul_small (rect_w r - 1) 4) by (apply in_range_bounds; lia).
  rewrite (int32_mul_small (rect_h r - 1) 4) by (apply in_range_bounds; lia).
  rewrite Ecx, Ecy.
  rewrite (int32_mul_small (rect_x r) 4) by (apply in_range_bounds; lia).
  rewrite (int32_mul_small (rect_y r) 4) by (apply in_range_bounds; lia).
  rewrite (int32_add_small (rect_x r * 4)) by (apply in_range_bounds; lia).
  rewrite (int32_add_small (rect_y r * 4)) by (apply in_range_bounds; lia).
  rewrite (int32_mul_small (rect_y r * 4 + dy * 4) size)
    by (apply in_range_bounds; lia).
  rewrite (int32_mul_small (clamp dy 0 (rect_h r - 1) * 4) (rect_w r))
    by (apply in_range_bounds; lia).
  rewrite (int32_add_small (rect_x r * 4 + dx * 4)) by (apply in_range_bounds; lia).
  rewrite (int32_add_small (clamp dx 0 (rect_w r - 1) * 4))
    by (apply in_range_bounds; lia).
  apply run_steps_ext. intros c a Hc.
  assert (Hc' : 0 <= c < 4) by (simpl in Hc; lia).
  rewrite !int32_add_small by (apply in_range_bounds; lia).
  reflexivity.
Qed.

Lemma expand_pixels_plan (size expand : Z) (buffer : list byte)
    (t : blocs__texture) (data : list byte) :
  0 <= expand -> 4 * size * size <= Int32.max_signed ->
  blit_ok size expand buffer t ->
  expand_pixels (Image size size (Some data)) buffer (buffer_index t)
                (tex_rect t) expand
  = let (s, data') :=
      run_steps (copy_entry buffer)
        (expand_plan (buffer_index t) (tex_rect t) size expand) data in
    (s, Image size size (Some data')).
Proof.
  intros He Hsize Hok. pose proof Hok as [(Hw & Hh & Hoff & Hbuf) Hin].
  destruct Hin as (Hx & Hy & _ & _ & Hxw & Hyh).
  unfold written in Hx, Hy, Hxw, Hyh. simpl in Hx, Hy, Hxw, Hyh.
  set (r := tex_rect t) in *.
  pose proof Hsize as Hsize'. unfold Int32.max_signed in Hsize'.
  assert (Hss : size <= size * size) by nia.
  unfold expand_pixels, expand_plan. simpl.
  assert (Elo : Int32.mul (Int32.neg expand) CHANNELS = - expand * CHANNELS).
  { unfold Int32.neg, CHANNELS. rewrite int32_wrap_small by (apply in_range_bounds; lia).
    apply int32_mul_small, in_range_bounds. lia. }
  assert (Ehh : Int32.mul (Int32.add (rect_h r) expand) CHANNELS
                = (rect_h r + expand) * CHANNELS).
  { unfold CHANNELS. rewrite int32_add_small by (apply in_range_bounds; lia).
    apply int32_mul_small, in_range_bounds. lia. }
  assert (Ehw : Int32.mul (Int32.add (rect_w r) expand) CHANNELS
                = (rect_w r + expand) * CHANNELS).
  { unfold CHANNELS. rewrite int32_add_small by (apply in_range_bounds; lia).
    apply int32_mul_small, in_range_bounds. lia. }
  rewrite Elo, Ehh, Ehw.
  rewrite (for_loop_counters _ _ _ _ (Z.to_nat (rect_h r + 2 * expand)));
    unfold CHANNELS, Int32.max_signed, Int32.min_signed; try lia.
  fold CHANNELS.
  rewrite <- run_steps_concat.
  match goal with
  | |- (let (_, _) := ?lhs in _) = (let (_, _) := ?rhs in _) =>
      enough (E : lhs = rhs) by (rewrite E; reflexivity)
  end.
  apply run_steps_ext. intros y a Hy'.
  apply in_counters in Hy' as (ky & Hky & ->).
  rewrite (for_loop_counters _ _ _ _ (Z.to_nat (rect_w r + 2 * expand)));
    unfold CHANNELS, Int32.max_signed, Int32.min_signed; try lia.
  fold CHANNELS.
  rewrite <- run_steps_concat.
  apply run_steps_ext. intros x a' Hx'.
  apply in_counters in Hx' as (kx & Hkx & ->).
  replace (- expand * CHANNELS + kx * CHANNELS) with ((kx - expand) * CHANNELS)
    by lia.
  replace (- expand * CHANNELS + ky * CHANNELS) with ((ky - expand) * CHANNELS)
    by lia.
  subst r. apply (copy_pixel_plan size expand); auto; lia.
Qed.

Lemma set_pixels_plan (size : Z) (buffer : list byte)
    (t : blocs__texture) (data : list byte) :
  4 * size * size <= Int32.max_signed ->
  blit_ok size 0 buffer t ->
  blocs__set_pixels (Image size size (Some data)) buffer (buffer_index t)
                    (tex_rect t)
  = let (s, data') :=
      run_steps (copy_entry buffer)
        (rows_plan (buffer_index t) (tex_rect t) size) data in
    (s, Image size size (Some data')).
Proof.
  intros Hsize Hok. pose proof Hok as [(Hw & Hh & Hoff & Hbuf) Hin].
  destruct Hin as (Hx & Hy & _ & _ & Hxw & Hyh).
  unfold written in Hx, Hy, Hxw, Hyh. simpl in Hx, Hy, Hxw, Hyh.
  set (r := tex_rect t) in *.
  pose proof Hsize as Hsize'. unfold Int32.max_signed in Hsize'.
  assert (Hss : size <= size * size) by nia.
  unfold blocs__set_pixels, rows_plan. simpl.
  rewrite !int32_add_small by (apply in_range_bounds; lia).
  destruct (Z.leb_spec (rect_x r + rect_w r) size); [|lia].
  destruct (Z.leb_spec (rect_y r + rect_h r) size); [|lia]. simpl.
  rewrite (for_loop_counters _ _ _ _ (Z.to_nat (rect_h r)));
    unfold Int32.max_signed, Int32.min_signed; try lia.
  rewrite <- run_steps_concat.
  match goal with
  | |- (let (_, _) := ?lhs in _) = (let (_, _) := ?rhs in _) =>
      enough (E : lhs = rhs) by (rewrite E; reflexivity)
  end.
  apply run_steps_ext. intros y a Hy'.
  apply in_counters in Hy' as (ky & Hky & ->).
  replace (0 + ky * 1) with ky by lia.
  unfold memcpy, row_plan, CHANNELS.
  pose proof (square_bound size ky (rect_w r) ltac:(lia) ltac:(lia)) as Hsrc.
  pose proof (square_bound size (rect_y r + ky) size ltac:(lia) ltac:(lia)) as Hrow.
  assert (Hrow' : (rect_y r + ky) * size <= size * size - size).
  { pose proof (square_bound size (rect_y r + ky + 1) size
                  ltac:(lia) ltac:(lia)).
    lia. }
  rewrite (int32_mul_small ky) by (apply in_range_bounds; lia).
  rewrite (int32_mul_small (ky * rect_w r)) by (apply in_range_bounds; lia).
  rewrite (int32_add_small (rect_y r)) by (apply in_range_bounds; lia).
  rewrite (int32_mul_small (rect_y r + ky)) by (apply in_range_bounds; lia).
  rewrite (int32_add_small (rect_x r)) by (apply in_range_bounds; lia).
  rewrite (int32_mul_small (rect_x r + _)) by (apply in_range_bounds; lia).
  rewrite (int32_mul_small (rect_w r)) by (apply in_range_bounds; lia).
  destruct (Z.ltb_spec (rect_w r * 4) 0); [lia|].
  rewrite <- (run_steps_map (copy_entry buffer)). reflexivity.
Qed.

(** the blit of one texture, whichever branch is taken *)
Lemma blit_spec (size expand : Z) (buffer : list byte) (t : blocs__texture)
    (data : list byte) :
  0 <= expand -> 4 * size * size <= Int32.max_signed ->
  blit_ok size expand buffer t ->
  Z.of_nat (length data) = size * size * 4 ->
  exists data',
    (if expand >? 0
     then expand_pixels (Image size size (Some data)) buffer (buffer_index t)
                        (tex_rect t) expand
     else blocs__set_pixels (Image size size (Some data)) buffer (buffer_index t)
                            (tex_rect t))
    = (Completed, Image size size (Some data'))
    /\ length data' = length data
    /\ (forall px py c, 0 <= px < size -> 0 <= c < 4 ->
          ~ covers (written expand t) px py ->
          load data' (byte_index size px py c) = load data (byte_index size px py c))
    /\ (forall dx dy c,
          - expand <= dx < rect_w (tex_rect t) + expand ->
          - expand <= dy < rect_h (tex_rect t) + expand -> 0 <= c < 4 ->
          load data' (byte_index size (rect_x (tex_rect t) + dx)
                                 (rect_y (tex_rect t) + dy) c)
          = load buffer
              (buffer_index t
               + (clamp dx 0 (rect_w (tex_rect t) - 1)
                  + clamp dy 0 (rect_h (tex_rect t) - 1) * rect_w (tex_rect t))
                 * CHANNELS + c)).
Proof.
  intros He Hsize Hok Hlen. pose proof Hok as [(Hw & Hh & _) _].
  rewrite Z.gtb_ltb. destruct (Z.ltb_spec 0 expand) as [Hpos|Hzero].
  - rewrite expand_pixels_plan by assumption.
    destruct (blit_plan_runs size expand buffer t
                (expand_plan (buffer_index t) (tex_rect t) size expand) data
                He (expand_plan_is_blit_plan size expand t He Hw Hh) Hok Hlen)
      as (data' & Hrun & Hrest).
    exists data'. rewrite Hrun. auto.
  - assert (expand = 0) as -> by lia.
    rewrite set_pixels_plan by assumption.
    destruct (blit_plan_runs size 0 buffer t
                (rows_plan (buffer_index t) (tex_rect t) size) data
                He (rows_plan_is_blit_plan size t ltac:(lia) ltac:(lia)) Hok Hlen)
      as (data' & Hrun & Hrest).
    exists data'. rewrite Hrun. auto.
Qed.

Lemma generate_atlas_spec (size expand : Z) (buffer : list byte)
    (textures : list blocs__texture) : forall data : list byte,
  0 <= expand -> 4 * size * size <= Int32.max_signed ->
  Forall (blit_ok size expand buffer) textures ->
  all_disjoint (map (written expand) textures) ->
  Z.of_nat (length data) = size * size * 4 ->
  exists data',
    blocs__generate_atlas textures buffer (Image size size (Some data)) expand
    = (Completed, Image size size (Some data'))
    /\ length data' = length data
    /\ (forall px py c, 0 <= px < size -> 0 <= c < 4 ->
          Forall (fun t => ~ covers (written expand t) px py) textures ->
          load data' (byte_index size px py c) = load data (byte_index size px py c))
    /\ (forall t, In t textures -> forall dx dy c,
          - expand <= dx < rect_w (tex_rect t) + expand ->
          - expand <= dy < rect_h (tex_rect t) + expand -> 0 <= c < 4 ->
          load data' (byte_index size (rect_x (tex_rect t) + dx)
                                 (rect_y (tex_rect t) + dy) c)
          = load buffer
              (buffer_index t
               + (clamp dx 0 (rect_w (tex_rect t) - 1)
                  + clamp dy 0 (rect_h (tex_rect t) - 1) * rect_w (tex_rect t))
                 * CHANNELS + c)).
Proof.
  unfold blocs__generate_atlas.
  induction textures as [|t rest IH]; intros data He Hsize Hok Hdis Hlen.
  { exists data. simpl. repeat split; auto. intros t []. }
  apply Forall_cons in Hok as [Ht Hrest]. simpl in Hdis. destruct Hdis as [Hhead Hdis].
  destruct (blit_spec size expand buffer t data He Hsize Ht Hlen)
    as (data1 & Hblit & Hlen1 & Hframe1 & Hval1).
  destruct (IH data1 He Hsize Hrest Hdis ltac:(lia))
    as (data' & Hrun & Hlen' & Hframe & Hval).
  exists data'. simpl. rewrite Hblit. simpl.
  split; [exact Hrun|]. split; [lia|]. split.
  - intros px py c Hpx Hc Hout. apply Forall_cons in Hout as [Hout1 Hout].
    rewrite Hframe by assumption. now apply Hframe1.
  - intros t' [<-|Hin] dx dy c Hdx Hdy Hc.
    + rewrite <- Hval1 by assumption.
      destruct Ht as [_ (Hx & Hy & _ & _ & Hxw & Hyh)].
      unfold written in Hx, Hy, Hxw, Hyh. simpl in Hx, Hy, Hxw, Hyh.
      apply Hframe; [lia|exact Hc|].
      apply Forall_forall. intros t' Ht' Hcov.
      rewrite Forall_forall in Hhead.
      apply (Hhead (written expand t')
               ltac:(apply list_elem_of_In, in_map, list_elem_of_In; exact Ht')
               (rect_x (tex_rect t) + dx) (rect_y (tex_rect t) + dy)).
      split; [|exact Hcov]. unfold covers, written. simpl. lia.
    + now apply Hval.
Qed.

(** ** From the packing to the blits *)

Lemma pack_run_identity (l : lang) (S : LibrarySort l) textures size expand border :
  sort_contract l S ->
  run_status (pack_run l textures size expand border) = Completed ->
  Permutation (map identity textures)
    (map identity (placement_order (pack_run l textures size expand border))).
Proof.
  intros Hsort Hdone. apply pack_run_completed in Hdone as (_ & _ & ->).
  destruct (pack_loop_order l size expand (padding_of expand border)
              (length textures) (sort_textures textures) [start_space size])
    as [-> _].
  apply Permutation_map, (proj1 Hsort).
Qed.

Lemma Forall_by_identity (P : blocs__texture -> Prop) (ts ts' : list blocs__texture) :
  (forall t t', identity t = identity t' -> P t -> P t') ->
  Permutation (map identity ts) (map identity ts') ->
  Forall P ts -> Forall P ts'.
Proof.
  intros Hid Hperm Hall.
  assert (H : Forall (fun i => forall t', identity t' = i -> P t') (map identity ts)).
  { apply Forall_forall. intros i Hi t' Ht'.
    apply list_elem_of_In, in_map_iff in Hi as (t & <- & Ht).
    rewrite Forall_forall in Hall. apply (Hid t t'); [congruence|].
    apply Hall, list_elem_of_In, Ht. }
  rewrite Hperm in H. apply Forall_forall. intros t' Ht'.
  rewrite Forall_forall in H. apply (H (identity t')); [|reflexivity].
  apply list_elem_of_In, in_map, list_elem_of_In, Ht'.
Qed.

Lemma source_ok_identity (buffer : list byte) (t t' : blocs__texture) :
  identity t = identity t' -> source_ok buffer t -> source_ok buffer t'.
Proof.
  unfold identity, source_ok. intros H. injection H as <- <- _ <-. auto.
Qed.

Lemma written_within_footprint (expand border : Z) (t : blocs__texture) :
  0 <= border -> within (written expand t) (footprint expand border t).
Proof. intros Hb px py. unfold covers, written, footprint. simpl. lia. Qed.

Lemma placed_apart_written (expand border : Z) (ts : list (blocs__texture * bool)) :
  0 <= border ->
  placed_apart expand border ts ->
  Forall (fun tb => snd tb = true) ts ->
  all_disjoint (map (written expand) (map fst ts)).
Proof.
  intros Hb. induction ts as [|[t b] ts IH]; simpl; [auto|].
  intros [Hhead Htail] Hall. apply Forall_cons in Hall as [Hb' Hall].
  simpl in Hb'. subst b. split; [|auto].
  specialize (Hhead eq_refl). rewrite !Forall_map.
  rewrite Forall_forall in Hhead, Hall. apply Forall_forall.
  intros [t' b'] Hin. simpl.
  specialize (Hhead _ Hin (Hall _ Hin)). simpl in Hhead.
  intros px py [H1 H2]. apply (Hhead px py).
  split; eapply written_within_footprint; eauto.
Qed.

(** what the packing gives the compositor when every texture was placed *)
Lemma pack_run_blit_ok (l : lang) (S : LibrarySort l) textures buffer
    size expand border :
  sort_contract l S ->
  config_ok size expand border ->
  Forall (texture_ok expand border) textures ->
  Forall (source_ok buffer) textures ->
  run_status (pack_run l textures size expand border) = Completed ->
  all_placed (pack_run l textures size expand border) ->
  Forall (blit_ok size expand buffer)
         (placement_order (pack_run l textures size expand border))
  /\ all_disjoint (map (written expand)
       (placement_order (pack_run l textures size expand border))).
Proof.
  intros Hsort Hconfig Hok Hsrc Hdone Hall.
  destruct (pack_run_placed l S textures size expand border Hsort Hconfig Hok Hdone)
    as [Hinside Hapart].
  pose proof (pack_run_identity l S textures size expand border Hsort Hdone) as Hperm.
  pose proof (Forall_by_identity _ _ _ (source_ok_identity buffer) Hperm Hsrc)
    as Hsrc'.
  destruct Hconfig as (He & Hb & _ & _).
  split.
  - unfold placement_order in *. unfold all_placed in Hall.
    rewrite Forall_map in Hsrc'. rewrite Forall_map.
    rewrite Forall_forall in Hinside, Hall, Hsrc'. apply Forall_forall.
    intros tb Htb. split; [exact (Hsrc' tb Htb)|].
    destruct (Hsrc' tb Htb) as (Hw & Hh & _).
    pose proof (Hinside tb Htb (Hall tb Htb)) as Hin.
    unfold inside, footprint, written in *. simpl in *. lia.
  - unfold placement_order. eapply placed_apart_written; eauto.
Qed.

Lemma compose_clear (textures : list blocs__texture) (buffer : list byte)
    (size expand : Z) :
  0 <= size -> 4 * size * size <= Int32.max_signed ->
  compose textures buffer size expand
  = blocs__generate_atlas textures buffer
      (Image size size (Some (replicate (Z.to_nat (size * size * 4)) Byte.x00)))
      expand.
Proof.
  intros H0 Hsize. unfold Int32.max_signed in Hsize.
  unfold compose, blocs__clear_pixels, CHANNELS. simpl.
  assert (0 <= size * size) by nia.
  rewrite (int32_mul_small size size) by (apply in_range_bounds; lia).
  rewrite int32_mul_small by (apply in_range_bounds; lia). reflexivity.
Qed.


Lemma cleared_length (size : Z) (v : byte) :
  Z.of_nat (length (replicate (Z.to_nat (size * size * 4)) v)) = size * size * 4.
Proof. rewrite length_replicate, Z2Nat.id; [reflexivity|nia]. Qed.

(** C4.  With [expand > 0], after the blits of a packing in which every
    texture was placed, the atlas pixel at offset (dx, dy) from the corner of
    a texture, for -expand <= dx < w + expand and -expand <= dy < h + expand,
    is the source pixel (clamp(dx, 0, w-1), clamp(dy, 0, h-1)) of that
    texture, byte for byte; so the pixel at (-k, j), 1 <= k <= expand,
    0 <= j < h, is the source pixel at column 0 of row j. *)
Theorem edge_expansion_clamps (l : lang) (S : LibrarySort l)
    (textures : list blocs__texture) (buffer : list byte)
    (size expand border : Z) :
  sort_contract l S ->
  config_ok size expand border -> 0 < expand ->
  4 * size * size <= Int32.max_signed ->
  Forall (texture_ok expand border) textures ->
  Forall (source_ok buffer) textures ->
  run_status (pack_run l textures size expand border) = Completed ->
  all_placed (pack_run l textures size expand border) ->
  exists atlas,
    compose (placement_order (pack_run l textures size expand border))
            buffer size expand = (Completed, atlas)
    /\ (forall t dx dy c,
          In t (placement_order (pack_run l textures size expand border)) ->
          - expand <= dx < rect_w (tex_rect t) + expand ->
          - expand <= dy < rect_h (tex_rect t) + expand -> 0 <= c < 4 ->
          image_byte atlas (rect_x (tex_rect t) + dx) (rect_y (tex_rect t) + dy) c
          = source_byte buffer t (clamp dx 0 (rect_w (tex_rect t) - 1))
                                 (clamp dy 0 (rect_h (tex_rect t) - 1)) c)
    /\ (forall t k j c,
          In t (placement_order (pack_run l textures size expand border)) ->
          1 <= k <= expand -> 0 <= j < rect_h (tex_rect t) -> 0 <= c < 4 ->
          image_byte atlas (rect_x (tex_rect t) - k) (rect_y (tex_rect t) + j) c
          = source_byte buffer t 0 j c).
Proof.
  intros Hsort Hconfig Hpos Hsize Hok Hsrc Hdone Hall.
  destruct (pack_run_blit_ok l S textures buffer size expand border
              Hsort Hconfig Hok Hsrc Hdone Hall) as [Hblit Hdis].
  assert (H0 : 0 <= size) by (destruct Hconfig as (?&?&?&?); lia).
  rewrite compose_clear by assumption.
  destruct (generate_atlas_spec size expand buffer _
              (replicate (Z.to_nat (size * size * 4)) Byte.x00) ltac:(lia) Hsize Hblit Hdis
              (cleared_length size Byte.x00))
    as (data' & Hrun & _ & _ & Hval).
  exists (Image size size (Some data')). split; [exact Hrun|].
  assert (Hgen : forall t dx dy c,
    In t (placement_order (pack_run l textures size expand border)) ->
    - expand <= dx < rect_w (tex_rect t) + expand ->
    - expand <= dy < rect_h (tex_rect t) + expand -> 0 <= c < 4 ->
    image_byte (Image size size (Some data'))
               (rect_x (tex_rect t) + dx) (rect_y (tex_rect t) + dy) c
    = source_byte buffer t (clamp dx 0 (rect_w (tex_rect t) - 1))
                           (clamp dy 0 (rect_h (tex_rect t) - 1)) c).
  { intros t dx dy c Hin Hdx Hdy Hc. unfold image_byte, source_byte. simpl.
    apply (Hval t Hin dx dy c Hdx Hdy Hc). }
  split; [exact Hgen|].
  intros t k j c Hin Hk Hj Hc.
  rewrite Forall_forall in Hblit.
  destruct (Hblit t (proj2 (list_elem_of_In _ _) Hin)) as [(Hw & Hh & _) _].
  replace (rect_x (tex_rect t) - k) with (rect_x (tex_rect t) + - k) by lia.
  rewrite (Hgen t (- k) j c Hin) by lia.
  f_equal; unfold clamp; lia.
Qed.


(** ** Doubles: the comparison of the area with 0.85 * size * size *)

Lemma digits2_pos_bounds (p : positive) :
  2 ^ (Zpos (digits2_pos p) - 1) <= Zpos p < 2 ^ Zpos (digits2_pos p).
Proof.
  induction p as [p IH|p IH|]; simpl digits2_pos.
  - rewrite Pos2Z.inj_succ, Pos2Z.inj_xI.
    replace (Z.succ (Zpos (digits2_pos p)) - 1) with (Z.succ (Zpos (digits2_pos p) - 1))
      by lia.
    rewrite !Z.pow_succ_r by lia. revert IH.
    generalize (2 ^ (Zpos (digits2_pos p) - 1)) (2 ^ Zpos (digits2_pos p)) (Zpos p).
    intros. lia.
  - rewrite Pos2Z.inj_succ. change (Zpos p~0) with (2 * Zpos p).
    replace (Z.succ (Zpos (digits2_pos p)) - 1) with (Z.succ (Zpos (digits2_pos p) - 1))
      by lia.
    rewrite !Z.pow_succ_r by lia. revert IH.
    generalize (2 ^ (Zpos (digits2_pos p) - 1)) (2 ^ Zpos (digits2_pos p)) (Zpos p).
    intros. lia.
  - simpl. lia.
Qed.

Lemma digits2_pos_unique (p : positive) (k : Z) :
  2 ^ (k - 1) <= Zpos p < 2 ^ k -> Zpos (digits2_pos p) = k.
Proof.
  intros [Hlo Hhi]. pose proof (digits2_pos_bounds p) as [Dlo Dhi].
  assert (Hk : 0 < k).
  { destruct (Z_lt_le_dec 0 k); [assumption|].
    assert (2 ^ k <= 2 ^ 0) by (apply Z.pow_le_mono_r; lia).
    change (2 ^ 0) with 1 in *. revert Hhi H. generalize (2 ^ k). intros. lia. }
  destruct (Z.lt_trichotomy (Zpos (digits2_pos p)) k) as [H|[H|H]]; [|exact H|].
  - assert (2 ^ Zpos (digits2_pos p) <= 2 ^ (k - 1)) by (apply Z.pow_le_mono_r; lia).
    exfalso. revert Hlo Dhi H0.
    generalize (2 ^ (k - 1)) (2 ^ Zpos (digits2_pos p)) (Zpos p). intros. lia.
  - assert (2 ^ k <= 2 ^ (Zpos (digits2_pos p) - 1)) by (apply Z.pow_le_mono_r; lia).
    exfalso. revert Hhi Dlo H0.
    generalize (2 ^ k) (2 ^ (Zpos (digits2_pos p) - 1)) (Zpos p). intros. lia.
Qed.

Lemma pos_iter_xO (p k : positive) :
  Zpos (Pos.iter xO p k) = Zpos p * 2 ^ Zpos k.
Proof.
  induction k as [|k IH] using Pos.peano_ind.
  - simpl. lia.
  - rewrite Pos.iter_succ, Pos2Z.inj_succ, Z.pow_succ_r by lia.
    change (Zpos (Pos.iter xO p k)~0) with (2 * Zpos (Pos.iter xO p k)).
    rewrite IH. ring.
Qed.

Lemma fexp_normal (e : Z) :
  -1021 <= e -> fexp Double.prec Double.emax e = e - 53.
Proof. unfold fexp, emin, Double.prec, Double.emax. lia. Qed.

(** a 53-bit mantissa is left as it is by the rounding *)
Lemma round_aux_canonical (sx : bool) (m : positive) (e : Z) :
  Zpos (digits2_pos m) = 53 -> -1074 <= e <= 971 ->
  binary_round_aux Double.prec Double.emax sx (Zpos m) e loc_Exact
  = S754_finite sx m e.
Proof.
  intros Hd He. unfold binary_round_aux, shr_fexp. simpl Zdigits2.
  rewrite Hd, fexp_normal by lia.
  replace (53 + e - 53 - e) with 0 by lia. simpl.
  rewrite Hd, fexp_normal by lia.
  replace (53 + e - 53 - e) with 0 by lia. simpl.
  destruct (Z.leb_spec e (Double.emax - Double.prec)); [reflexivity|].
  unfold Double.emax, Double.prec in *. lia.
Qed.

(** the conversion of a positive [int]: the integer shifted to 53 bits *)
Lemma of_int_positive (z : Z) :
  0 < z < 2 ^ 53 ->
  exists (m : positive) (k : Z),
    Double.of_int z = S754_finite false m (- k)
    /\ 0 <= k <= 52 /\ Zpos m = z * 2 ^ k
    /\ Zpos (digits2_pos m) = 53.
Proof.
  intros [Hz Hhi]. destruct z as [|p|p]; try lia.
  unfold Double.of_int, binary_normalize, binary_round.
  pose proof (digits2_pos_bounds p) as [Dlo Dhi].
  set (d := Zpos (digits2_pos p)) in *.
  assert (Hd : 1 <= d <= 53).
  { split; [unfold d; lia|].
    destruct (Z_lt_le_dec 53 d); [|lia].
    assert (2 ^ 53 <= 2 ^ (d - 1)) by (apply Z.pow_le_mono_r; lia). lia. }
  rewrite Z.add_0_r, fexp_normal by lia.
  unfold shl_align. destruct (d - 53 - 0) as [|q|q] eqn:Hq; try lia.
  - assert (d = 53) by lia.
    exists p, 0. rewrite round_aux_canonical by (fold d; lia).
    repeat split; try lia.
  - assert (Hm : Zpos (Pos.iter xO p q) = Zpos p * 2 ^ (53 - d)).
    { rewrite pos_iter_xO. f_equal. f_equal. lia. }
    assert (Hdm : Zpos (digits2_pos (Pos.iter xO p q)) = 53).
    { apply digits2_pos_unique. rewrite Hm.
      replace (2 ^ (53 - 1)) with (2 ^ (d - 1) * 2 ^ (53 - d))
        by (rewrite <- Z.pow_add_r by lia; f_equal; lia).
      replace (2 ^ 53) with (2 ^ d * 2 ^ (53 - d))
        by (rewrite <- Z.pow_add_r by lia; f_equal; lia).
      assert (0 < 2 ^ (53 - d)) by (apply Z.pow_pos_nonneg; lia).
      split; [apply Z.mul_le_mono_nonneg_r; lia|apply Z.mul_lt_mono_pos_r; lia]. }
    exists (Pos.iter xO p q), (53 - d).
    rewrite round_aux_canonical by (try exact Hdm; lia).
    replace (- (53 - d)) with (d - 53) by lia.
    repeat split; try lia.
Qed.


Lemma shr_1_nonneg (q : Z) (r s : bool) :
  0 <= q ->
  shr_1 {| shr_m := q; shr_r := r; shr_s := s |}
  = {| shr_m := Z.div2 q; shr_r := Z.odd q; shr_s := r || s |}.
Proof. intros Hq. destruct q as [|[p|p|]|p]; try lia; reflexivity. Qed.

Lemma shr_inv_start (m : Z) :
  0 <= m -> shr_inv m 0 {| shr_m := m; shr_r := false; shr_s := false |}.
Proof.
  intros Hm. unfold shr_inv. simpl. repeat split; try lia; try discriminate.
  exists 0. simpl. lia.
Qed.

Lemma shr_inv_step (m k : Z) (mrs : shr_record) :
  shr_inv m k mrs -> shr_inv m (k + 1) (shr_1 mrs).
Proof.
  destruct mrs as [q r s]. intros H. unfold shr_inv in H. simpl in H.
  destruct H as (Hk & Hq & Hr & rest & Hrest & Hlt & Hm & Hs).
  rewrite shr_1_nonneg by exact Hq. unfold shr_inv. simpl.
  pose proof (Z.div2_odd q) as Hdiv.
  assert (Hq' : 0 <= Z.div2 q) by (apply Z.div2_nonneg; exact Hq).
  replace (k + 1 - 1) with k by lia.
  rewrite Z.pow_add_r, Z.pow_1_r by lia.
  split; [lia|]. split; [exact Hq'|]. split; [lia|].
  exists ((if r then 2 ^ (k - 1) else 0) + rest).
  assert (Hpow : r = true -> 2 ^ k = 2 * 2 ^ (k - 1) /\ 0 < 2 ^ (k - 1)).
  { intros Hr'. specialize (Hr Hr'). split.
    - rewrite <- Z.pow_succ_r by lia. f_equal. lia.
    - apply Z.pow_pos_nonneg; lia. }
  assert (Hpos : 0 < 2 ^ k) by (apply Z.pow_pos_nonneg; lia).
  revert Hm Hlt Hpow Hpos Hdiv. generalize (2 ^ k) (2 ^ (k - 1)) (Z.div2 q) Hq'.
  intros H A q' Hq'' Hm Hlt Hpow Hpos Hdiv.
  destruct r; simpl.
  - destruct (Hpow eq_refl) as [HA Hpa].
    destruct (Z.odd q); simpl in Hdiv; repeat split; try nia.
    all: destruct (Z.eqb_spec (A + rest) 0); try reflexivity; lia.
  - destruct (Z.odd q); simpl in Hdiv; repeat split; try nia; assumption.
Qed.

Lemma iter_pos_shr (m : Z) (n : positive) : forall (k : Z) (mrs : shr_record),
  shr_inv m k mrs -> shr_inv m (k + Zpos n) (SpecFloat.iter_pos shr_1 n mrs).
Proof.
  induction n as [n IH|n IH|]; intros k mrs H; simpl.
  - replace (k + Zpos n~1) with (k + 1 + Zpos n + Zpos n) by lia.
    apply IH, IH, shr_inv_step, H.
  - replace (k + Zpos n~0) with (k + Zpos n + Zpos n) by lia.
    apply IH, IH, H.
  - apply shr_inv_step, H.
Qed.

(** rounding to nearest, ties to even: the result is a nearest multiple *)
Lemma round_nearest_spec (m k : Z) (mrs : shr_record) :
  shr_inv m k mrs ->
  shr_m mrs <= round_nearest_even (shr_m mrs) (loc_of_shr_record mrs)
            <= shr_m mrs + 1
  /\ 2 * Z.abs (round_nearest_even (shr_m mrs) (loc_of_shr_record mrs) * 2 ^ k - m)
     <= 2 ^ k.
Proof.
  destruct mrs as [q r s]. unfold shr_inv. simpl.
  intros (Hk & Hq & Hr & rest & Hrest & Hlt & Hm & Hs).
  assert (Hpow : r = true -> 2 ^ k = 2 * 2 ^ (k - 1) /\ 0 < 2 ^ (k - 1)).
  { intros Hr'. specialize (Hr Hr'). split.
    - rewrite <- Z.pow_succ_r by lia. f_equal. lia.
    - apply Z.pow_pos_nonneg; lia. }
  assert (Hpos : 0 < 2 ^ k) by (apply Z.pow_pos_nonneg; lia).
  assert (Hs' : if s then rest <> 0 else rest = 0).
  { rewrite Hs. destruct (Z.eqb_spec rest 0); simpl; assumption. }
  clear Hs.
  revert Hm Hlt Hpow Hpos. generalize (2 ^ k) (2 ^ (k - 1)).
  intros H A Hm Hlt Hpow Hpos.
  destruct r, s; simpl;
    try destruct (Hpow eq_refl) as [HA Hpa];
    try destruct (Z.even q); split; nia.
Qed.

(** the arithmetic of the comparison: [X = s * T] is the mantissa of [size *
    size], [R * N] the rounded product with the mantissa of 0.85, [Y = a * T]
    the area on the same scale *)
Lemma area_core (a s T R N : Z) :
  0 < a < 2 ^ 31 -> 0 < s < 2 ^ 31 -> 0 < T ->
  2 ^ 52 <= s * T < 2 ^ 53 ->
  N = 2 ^ 52 \/ N = 2 ^ 53 ->
  N * 2 ^ 52 <= s * T * 7656119366529843 < N * 2 ^ 53 ->
  2 * Z.abs (R * N - s * T * 7656119366529843) <= N ->
  (2 ^ 53 * (a * T) <= R * N <-> 20 * a <= 17 * s).
Proof.
  change (2 ^ 31) with 2147483648. change (2 ^ 52) with 4503599627370496.
  change (2 ^ 53) with 9007199254740992.
  intros Ha Hs HT HX HN HP HR.
  assert (HT' : 2097152 < T) by nia.
  assert (HD : (20 * a - 17 * s) * T = 20 * (a * T) - 17 * (s * T)) by ring.
  revert HX HP HR HD. generalize (s * T) (a * T). intros X Y HX HP HR HD.
  destruct (Z_lt_le_dec (17 * s) (20 * a)) as [Hgt|Hle].
  - assert (T <= (20 * a - 17 * s) * T) by nia.
    split; [|lia]. intros Hcmp. exfalso. destruct HN; subst N; lia.
  - split; [lia|]. intros _.
    destruct (Z.eq_dec (20 * a) (17 * s)) as [Heq|Hne].
    + assert ((20 * a - 17 * s) * T = 0) by nia.
      destruct HN; subst N; lia.
    + assert ((20 * a - 17 * s) * T <= - T) by nia.
      destruct HN; subst N; lia.
Qed.

Lemma binary_round_aux_steps (sx : bool) (mx ex : Z) (lx : location) :
  binary_round_aux Double.prec Double.emax sx mx ex lx
  = let p1 := shr_fexp Double.prec Double.emax mx ex lx in
    let p2 := shr_fexp Double.prec Double.emax
                (round_nearest_even (shr_m (fst p1)) (loc_of_shr_record (fst p1)))
                (snd p1) loc_Exact in
    match shr_m (fst p2) with
    | Z0 => S754_zero sx
    | Zpos m =>
        if snd p2 <=? Double.emax - Double.prec
        then S754_finite sx m (snd p2) else S754_infinity sx
    | Zneg _ => S754_nan
    end.
Proof.
  unfold binary_round_aux.
  destruct (shr_fexp Double.prec Double.emax mx ex lx) as [mrs' e']. simpl.
  destruct (shr_fexp Double.prec Double.emax _ e' loc_Exact) as [mrs'' e''].
  reflexivity.
Qed.

Lemma shr_fexp_shift (m : positive) (e : Z) (n : positive) :
  Zpos (digits2_pos m) = 53 + Zpos n -> -1021 <= 53 + Zpos n + e ->
  shr_fexp Double.prec Double.emax (Zpos m) e loc_Exact
  = (SpecFloat.iter_pos shr_1 n
       {| shr_m := Zpos m; shr_r := false; shr_s := false |},
     e + Zpos n).
Proof.
  intros Hd He. unfold shr_fexp. simpl Zdigits2. rewrite Hd, fexp_normal by lia.
  replace (53 + Zpos n + e - 53 - e) with (Zpos n) by lia. reflexivity.
Qed.

Lemma shr_fexp_keep (m : positive) (e : Z) :
  Zpos (digits2_pos m) = 53 -> -1021 <= 53 + e ->
  shr_fexp Double.prec Double.emax (Zpos m) e loc_Exact
  = ({| shr_m := Zpos m; shr_r := false; shr_s := false |}, e).
Proof.
  intros Hd He. unfold shr_fexp. simpl Zdigits2. rewrite Hd, fexp_normal by lia.
  replace (53 + e - 53 - e) with 0 by lia. reflexivity.
Qed.

(** the product of a 53-bit mantissa with the literal 0.85, rounded *)
Lemma mul_lit_spec (mx : positive) (ex : Z) :
  Zpos (digits2_pos mx) = 53 -> -60 <= ex <= 0 ->
  exists (m : positive) (e R N : Z),
    Double.mul (S754_finite false mx ex) Double.lit_0_85 = S754_finite false m e
    /\ Zpos (digits2_pos m) = 53
    /\ (N = 2 ^ 52 \/ N = 2 ^ 53)
    /\ N * 2 ^ 52 <= Zpos mx * 7656119366529843 < N * 2 ^ 53
    /\ 2 * Z.abs (R * N - Zpos mx * 7656119366529843) <= N
    /\ ex - 53 < e <= ex + 1 /\ Zpos m * 2 ^ (e - (ex - 53)) = R * N.
Proof.
  intros Hd Hex. pose proof (digits2_pos_bounds mx) as Hmx. rewrite Hd in Hmx.
  change (2 ^ (53 - 1)) with 4503599627370496 in Hmx.
  change (2 ^ 53) with 9007199254740992 in *.
  change (2 ^ 52) with 4503599627370496.
  unfold Double.mul, SFmul, Double.lit_0_85. simpl xorb.
  rewrite binary_round_aux_steps.
  set (P := (mx * 7656119366529843)%positive).
  assert (HP : Zpos P = Zpos mx * 7656119366529843) by (unfold P; lia).
  assert (Hcase : exists n : positive,
            (n = 52%positive \/ n = 53%positive)
            /\ Zpos (digits2_pos P) = 53 + Zpos n
            /\ 2 ^ Zpos n * 4503599627370496 <= Zpos P
               < 2 ^ Zpos n * 9007199254740992).
  { destruct (Z_lt_le_dec (Zpos P) (2 ^ 105)) as [Hlt|Hge].
    - exists 52%positive. split; [now left|].
      change (2 ^ 105) with 40564819207303340847894502572032 in Hlt.
      split; [apply digits2_pos_unique|];
        change (2 ^ (53 + 52 - 1)) with 20282409603651670423947251286016;
        change (2 ^ (53 + 52)) with 40564819207303340847894502572032;
        change (2 ^ 52) with 4503599627370496; lia.
    - exists 53%positive. split; [now right|].
      change (2 ^ 105) with 40564819207303340847894502572032 in Hge.
      split; [apply digits2_pos_unique|];
        change (2 ^ (53 + 53 - 1)) with 40564819207303340847894502572032;
        change (2 ^ (53 + 53)) with 81129638414606681695789005144064;
        change (2 ^ 53) with 9007199254740992; lia. }
  destruct Hcase as (n & Hn & HdP & HPN).
  rewrite (shr_fexp_shift P _ n HdP) by (destruct Hn; subst n; lia).
  cbv zeta. simpl fst. simpl snd.
  pose proof (iter_pos_shr (Zpos P) n 0 _ (shr_inv_start (Zpos P) ltac:(lia))) as Hinv.
  set (mrs := SpecFloat.iter_pos shr_1 n
                {| shr_m := Zpos P; shr_r := false; shr_s := false |}) in *.
  destruct (round_nearest_spec _ _ _ Hinv) as [HRq HRn].
  set (R := round_nearest_even (shr_m mrs) (loc_of_shr_record mrs)) in *.
  destruct Hinv as (_ & Hq0 & _ & rest & Hrest & Hlt & HPq & _).
  replace (0 + Zpos n) with (Zpos n) in * by lia.
  set (N := 2 ^ Zpos n) in *.
  assert (HN : N = 4503599627370496 \/ N = 9007199254740992).
  { unfold N. destruct Hn; subst n; [left|right]; reflexivity. }
  assert (Hhalf : (if shr_r mrs then 2 ^ (Zpos n - 1) else 0) * 2 <= N).
  { destruct (shr_r mrs); [|lia]. unfold N.
    replace (Zpos n) with (Z.succ (Zpos n - 1)) at 2 by lia.
    rewrite Z.pow_succ_r by lia. lia. }
  assert (Hhalf0 : 0 <= (if shr_r mrs then 2 ^ (Zpos n - 1) else 0)).
  { destruct (shr_r mrs); [|lia]. apply Z.pow_nonneg. lia. }
  assert (HqR : 4503599627370496 <= R <= 9007199254740992).
  { revert HPq Hhalf Hhalf0.
    generalize (if shr_r mrs then 2 ^ (Zpos n - 1) else 0). intros hb HPq Hhalf Hhalf0.
    destruct HN as [HN|HN]; rewrite HN in *; lia. }
  destruct R as [|r|r] eqn:HR; try lia.
  destruct (Z.eq_dec (Zpos r) 9007199254740992) as [Htop|Hlow].
  - injection Htop as ->.
    rewrite (shr_fexp_shift _ _ 1%positive) by (try reflexivity; destruct Hn; subst n; lia).
    simpl fst. simpl snd. simpl shr_m.
    destruct (Z.leb_spec (ex + -53 + Zpos n + 1) (Double.emax - Double.prec)).
    2:{ unfold Double.emax, Double.prec in *. destruct Hn; subst n; lia. }
    exists 4503599627370496%positive, (ex + -53 + Zpos n + 1), 9007199254740992, N.
    split; [reflexivity|]. split; [reflexivity|]. split; [exact HN|].
    rewrite <- HP. split; [lia|]. split; [exact HRn|].
    split; [destruct Hn; subst n; lia|].
    replace (ex + -53 + Zpos n + 1 - (ex - 53)) with (Zpos n + 1) by lia.
    rewrite Z.pow_add_r by lia. fold N. lia.
  - assert (Hdr : Zpos (digits2_pos r) = 53).
    { apply digits2_pos_unique.
      change (2 ^ (53 - 1)) with 4503599627370496.
      change (2 ^ 53) with 9007199254740992. lia. }
    rewrite (shr_fexp_keep r _ Hdr) by (destruct Hn; subst n; lia).
    simpl fst. simpl snd. simpl shr_m.
    destruct (Z.leb_spec (ex + -53 + Zpos n) (Double.emax - Double.prec)).
    2:{ unfold Double.emax, Double.prec in *. destruct Hn; subst n; lia. }
    exists r, (ex + -53 + Zpos n), (Zpos r), N.
    split; [reflexivity|]. split; [exact Hdr|]. split; [exact HN|].
    rewrite <- HP. split; [lia|]. split; [exact HRn|].
    split; [destruct Hn; subst n; lia|].
    replace (ex + -53 + Zpos n - (ex - 53)) with (Zpos n) by lia.
    fold N. lia.
Qed.

(** doubles with 53-bit mantissas are ordered as their values are *)
Lemma leb_canonical (m1 m2 : positive) (e1 e2 K : Z) :
  Zpos (digits2_pos m1) = 53 -> Zpos (digits2_pos m2) = 53 ->
  K <= e1 -> K <= e2 ->
  Double.leb (S754_finite false m1 e1) (S754_finite false m2 e2)
  = (Zpos m1 * 2 ^ (e1 - K) <=? Zpos m2 * 2 ^ (e2 - K)).
Proof.
  intros Hd1 Hd2 H1 H2.
  pose proof (digits2_pos_bounds m1) as B1. rewrite Hd1 in B1.
  pose proof (digits2_pos_bounds m2) as B2. rewrite Hd2 in B2.
  change (2 ^ (53 - 1)) with 4503599627370496 in *.
  change (2 ^ 53) with 9007199254740992 in *.
  unfold Double.leb, SFleb, SFcompare.
  destruct (Z.compare_spec e1 e2) as [Heq|Hlt|Hgt].
  - subst e2. rewrite Pos.compare_cont_spec. simpl.
    assert (0 < 2 ^ (e1 - K)) by (apply Z.pow_pos_nonneg; lia).
    destruct (Pos.compare_spec m1 m2) as [E|E|E]; symmetry;
      [apply Z.leb_le|apply Z.leb_le|apply Z.leb_gt]; nia.
  - symmetry. apply Z.leb_le.
    replace (e2 - K) with ((e2 - e1 - 1) + 1 + (e1 - K)) by lia.
    rewrite !Z.pow_add_r by lia. change (2 ^ 1) with 2.
    assert (HT : 0 < 2 ^ (e1 - K)) by (apply Z.pow_pos_nonneg; lia).
    assert (HA : 0 < 2 ^ (e2 - e1 - 1)) by (apply Z.pow_pos_nonneg; lia).
    revert HT HA. generalize (2 ^ (e1 - K)) (2 ^ (e2 - e1 - 1)). intros T A HT HA.
    assert (Zpos m1 * T <= 2 * Zpos m2 * T) by nia.
    assert (2 * Zpos m2 * T <= Zpos m2 * (A * 2 * T)) by nia.
    lia.
  - symmetry. apply Z.leb_gt.
    replace (e1 - K) with ((e1 - e2 - 1) + 1 + (e2 - K)) by lia.
    rewrite !Z.pow_add_r by lia. change (2 ^ 1) with 2.
    assert (HT : 0 < 2 ^ (e2 - K)) by (apply Z.pow_pos_nonneg; lia).
    assert (HA : 0 < 2 ^ (e1 - e2 - 1)) by (apply Z.pow_pos_nonneg; lia).
    revert HT HA. generalize (2 ^ (e2 - K)) (2 ^ (e1 - e2 - 1)). intros T A HT HA.
    assert (Zpos m2 * T < 2 * Zpos m1 * T) by nia.
    assert (2 * Zpos m1 * T <= Zpos m1 * (A * 2 * T)) by nia.
    lia.
Qed.

(** The comparison [area <= size * size * 0.85] in [double] decides
    [area <= 85/100 * size * size] exactly, for [int] operands that are not
    negative. *)
Lemma area_check_exact (a s : Z) :
  0 <= a <= Int32.max_signed -> 0 <= s <= Int32.max_signed ->
  Double.leb (Double.of_int a) (Double.mul (Double.of_int s) Double.lit_0_85)
  = (20 * a <=? 17 * s).
Proof.
  unfold Int32.max_signed. change (2 ^ 31 - 1) with 2147483647. intros Ha Hs.
  destruct (Z.eq_dec s 0) as [->|Hs0].
  { destruct (Z.eq_dec a 0) as [->|Ha0]; [reflexivity|].
    destruct (of_int_positive a) as (ma & ka & -> & _);
      [change (2 ^ 53) with 9007199254740992; lia|].
    change (Double.mul (Double.of_int 0) Double.lit_0_85) with (S754_zero false).
    unfold Double.leb, SFleb, SFcompare. symmetry. apply Z.leb_gt. lia. }
  destruct (of_int_positive s) as (ms & ks & Es & Hks & Hms & Hds);
    [change (2 ^ 53) with 9007199254740992; lia|].
  rewrite Es.
  destruct (mul_lit_spec ms (- ks) Hds ltac:(lia))
    as (m & e & R & N & Emul & Hdm & HN & HPN & HRN & He & Hval).
  rewrite Emul.
  destruct (Z.eq_dec a 0) as [->|Ha0].
  { change (Double.of_int 0) with (S754_zero false).
    unfold Double.leb, SFleb, SFcompare. symmetry. apply Z.leb_le. lia. }
  destruct (of_int_positive a) as (ma & ka & Ea & Hka & Hma & Hda);
    [change (2 ^ 53) with 9007199254740992; lia|].
  rewrite Ea.
  rewrite (leb_canonical ma m (- ka) e (- ks - 53)) by (try assumption; lia).
  rewrite Hval, Hma.
  replace (- ka - (- ks - 53)) with (53 + (ks - ka) + (ka - ka)) by lia.
  assert (Hpow : a * 2 ^ ka * 2 ^ (53 + (ks - ka) + (ka - ka))
                 = 2 ^ 53 * (a * 2 ^ ks)).
  { replace (53 + (ks - ka) + (ka - ka)) with (53 + ks - ka) by lia.
    replace (2 ^ ks) with (2 ^ (ks - 0)) by (f_equal; lia).
    assert (E : 2 ^ ka * 2 ^ (53 + ks - ka) = 2 ^ 53 * 2 ^ (ks - 0)).
    { rewrite <- !Z.pow_add_r by lia. f_equal. lia. }
    rewrite <- Z.mul_assoc, E. ring. }
  rewrite Hpow.
  pose proof (digits2_pos_bounds ms) as Bs. rewrite Hds, Hms in Bs.
  rewrite Hms in HPN, HRN.
  assert (HT : 0 < 2 ^ ks) by (apply Z.pow_pos_nonneg; lia).
  pose proof (area_core a s (2 ^ ks) R N ltac:(change (2 ^ 31) with 2147483648; lia)
                ltac:(change (2 ^ 31) with 2147483648; lia) HT Bs HN HPN HRN)
    as Hcore.
  destruct (Z.leb_spec (20 * a) (17 * s)) as [H|H].
  - apply Z.leb_le, Hcore, H.
  - apply Z.leb_gt. lia.
Qed.

(** ** The two checks before the placement *)

Lemma map_fst_unplaced (ts : list blocs__texture) : map fst (unplaced ts) = ts.
Proof. unfold unplaced. rewrite map_map. simpl. apply map_id. Qed.

Lemma padded_area_nonneg (expand border : Z) (ts : list blocs__texture) :
  0 <= expand -> 0 <= border ->
  Forall (texture_ok expand border) ts -> 0 <= padded_area expand border ts.
Proof.
  intros He Hb. induction 1 as [|t ts (Hw & Hh & _) _ IH]; simpl; [lia|]. nia.
Qed.

Lemma measure_max_ok (size expand border : Z) (ts : list blocs__texture) :
  config_ok size expand border ->
  Forall (texture_ok expand border) ts ->
  forall acc,
  max_size_ok (fold_left (measure (2 * expand + border)) ts acc) size = true <->
  max_size_ok acc size = true /\
  Forall (fun t => rect_w (tex_rect t) + (2 * expand + border) <= size /\
                   rect_h (tex_rect t) + (2 * expand + border) <= size) ts.
Proof.
  intros Hconfig. induction 1 as [|t ts Ht _ IH]; intros acc; simpl.
  { split; [auto|tauto]. }
  rewrite IH. destruct (padded_small _ _ _ _ Hconfig Ht) as [Ew Eh].
  unfold max_size_ok at 1. simpl. rewrite Ew, Eh, !max_int_spec.
  unfold max_size_ok. rewrite !andb_true_iff, !Z.leb_le, Forall_cons.
  intuition lia.
Qed.

Lemma measure_area (size expand border : Z) (ts : list blocs__texture) :
  config_ok size expand border ->
  Forall (texture_ok expand border) ts ->
  forall acc,
  0 <= area acc ->
  area acc + padded_area expand border ts <= Int32.max_signed ->
  area (fold_left (measure (2 * expand + border)) ts acc)
  = area acc + padded_area expand border ts.
Proof.
  intros Hconfig. induction 1 as [|t ts Ht Hts IH]; intros acc Hacc Hsum; simpl.
  { lia. }
  simpl in Hsum.
  pose proof (padded_area_nonneg expand border ts
                ltac:(destruct Hconfig as (?&?&?&?); lia)
                ltac:(destruct Hconfig as (?&?&?&?); lia) Hts) as Hrest.
  destruct (padded_small _ _ _ _ Hconfig Ht) as [Ew Eh].
  assert (Hprod : 0 <= (rect_w (tex_rect t) + (2 * expand + border)) *
                       (rect_h (tex_rect t) + (2 * expand + border))).
  { destruct Hconfig as (?&?&?&?), Ht as (?&?&?&?). nia. }
  unfold Int32.max_signed in Hsum.
  rewrite IH; simpl; rewrite Ew, Eh.
  - rewrite int32_mul_small by (apply in_range_bounds; lia).
    rewrite int32_add_small by (apply in_range_bounds; lia). lia.
  - rewrite int32_mul_small by (apply in_range_bounds; lia).
    rewrite int32_add_small by (apply in_range_bounds; lia). lia.
  - rewrite int32_mul_small by (apply in_range_bounds; lia).
    rewrite int32_add_small by (apply in_range_bounds; lia).
    unfold Int32.max_signed. lia.
Qed.

(** C6.  With [padding = 2*expand + border]: when some texture has
    [w + padding > size] or [h + padding > size], the call aborts with the
    message of [OversizedTexture]; when none has and the padded areas sum to
    more than 85/100 of [size * size], it aborts with the message of
    [InsufficientSpace]; in both cases the texture array is the one that was
    passed, unsorted and with every [rect.x], [rect.y] untouched.  (The
    squares and the sum are [int]s: they are taken not to overflow.) *)
Theorem prechecks_abort_before_placement (l : lang) (S : LibrarySort l)
    (textures : list blocs__texture) (size expand border : Z) :
  config_ok size expand border ->
  Forall (texture_ok expand border) textures ->
  (Exists (fun t => size < rect_w (tex_rect t) + (2 * expand + border) \/
                    size < rect_h (tex_rect t) + (2 * expand + border)) textures ->
   pack l textures size expand border = (Aborted OversizedTexture, textures))
  /\
  (Forall (fun t => rect_w (tex_rect t) + (2 * expand + border) <= size /\
                    rect_h (tex_rect t) + (2 * expand + border) <= size) textures ->
   size * size <= Int32.max_signed ->
   padded_area expand border textures <= Int32.max_signed ->
   17 * (size * size) < 20 * padded_area expand border textures ->
   pack l textures size expand border = (Aborted InsufficientSpace, textures)).
Proof.
  intros Hconfig Hok.
  pose proof (measure_max_ok size expand border textures Hconfig Hok
                {| area := 0; max_w := 0; max_h := 0 |}) as Hmax.
  assert (H0 : max_size_ok {| area := 0; max_w := 0; max_h := 0 |} size = true).
  { unfold max_size_ok. simpl. destruct Hconfig as (_ & _ & Hs & _).
    apply andb_true_iff. rewrite !Z.leb_le. lia. }
  unfold pack, pack_run. rewrite (padding_of_small _ _ _ Hconfig).
  fold (measure_all (2 * expand + border) textures) in Hmax.
  split.
  - intros Hbig.
    assert (E : max_size_ok (measure_all (2 * expand + border) textures) size
                = false).
    { apply not_true_iff_false. intros E. apply Hmax in E as [_ Hall].
      apply Exists_exists in Hbig as (t & Ht & Hbig).
      rewrite Forall_forall in Hall. specialize (Hall t Ht). lia. }
    rewrite E. simpl. now rewrite map_fst_unplaced.
  - intros Hall Hsq Hsum Harea.
    rewrite (proj2 Hmax (conj H0 Hall)). simpl.
    assert (Earea : area (measure_all (2 * expand + border) textures)
                    = padded_area expand border textures).
    { unfold measure_all. rewrite (measure_area size); auto; simpl; lia. }
    assert (Hcheck : area_ok (measure_all (2 * expand + border) textures) size
                     = false).
    { unfold area_ok. rewrite Earea.
      pose proof (padded_area_nonneg expand border textures
                    ltac:(destruct Hconfig as (?&?&?&?); lia)
                    ltac:(destruct Hconfig as (?&?&?&?); lia) Hok) as Hnn.
      assert (0 <= size * size) by nia.
      rewrite (int32_mul_small size size)
        by (apply in_range_bounds; unfold Int32.max_signed in *; lia).
      rewrite area_check_exact by lia. apply Z.leb_gt. lia. }
    rewrite Hcheck. simpl. now rewrite map_fst_unplaced.
Qed.

Lemma prechecks_abort_before_placement_witness :
  pack C99 (S := stable_library_sort C99)
       [fresh_texture 100 100 0 0; fresh_texture 1 1 1 40000;
        fresh_texture 1 1 2 40004] 50 0 0
  = (Aborted OversizedTexture,
     [fresh_texture 100 100 0 0; fresh_texture 1 1 1 40000;
      fresh_texture 1 1 2 40004])
  /\ pack C99 (S := stable_library_sort C99)
       [fresh_texture 6 6 0 0; fresh_texture 6 6 1 144;
        fresh_texture 6 6 2 288] 10 0 0
  = (Aborted InsufficientSpace,
     [fresh_texture 6 6 0 0; fresh_texture 6 6 1 144; fresh_texture 6 6 2 288]).
Proof.
  split.
  - apply (proj1 (prechecks_abort_before_placement C99 (stable_library_sort C99)
                    [fresh_texture 100 100 0 0; fresh_texture 1 1 1 40000;
                     fresh_texture 1 1 2 40004] 50 0 0
                    ltac:(unfold config_ok, Int32.max_signed; lia)
                    ltac:(repeat constructor; unfold Int32.max_signed; simpl; lia))).
    apply Exists_cons_hd. simpl. lia.
  - apply (proj2 (prechecks_abort_before_placement C99 (stable_library_sort C99)
                    [fresh_texture 6 6 0 0; fresh_texture 6 6 1 144;
                     fresh_texture 6 6 2 288] 10 0 0
                    ltac:(unfold config_ok, Int32.max_signed; lia)
                    ltac:(repeat constructor; unfold Int32.max_signed; simpl; lia))).
    + repeat constructor; simpl; lia.
    + unfold Int32.max_signed. lia.
    + unfold Int32.max_signed. simpl. lia.
    + simpl. lia.
Defined.

(** ** The small run *)

Lemma sample_registration :
  register C99 8 sample_images 0
    (Staging (replicate 3 (fresh_texture 0 0 0 0)) (replicate 256 Byte.x00) 0)
  = (Completed, Staging sample_textures sample_buffer 32).
Proof. vm_compute. reflexivity. Qed.

Lemma registration_offsets_witness :
  exists st,
    register C99 8 sample_images 0
      (Staging (replicate 3 (fresh_texture 0 0 0 0)) (replicate 256 Byte.x00) 0)
    = (Completed, st)
    /\ map buffer_index (st_textures st) = offsets_from 0 sample_images
    /\ length (st_textures st) = length sample_images
    /\ st_buffer_index st = total_bytes sample_images.
Proof.
  apply (registration_offsets C99 8 sample_images).
  - repeat constructor; simpl; try lia; eexists; (split; [reflexivity|simpl; lia]).
  - simpl. lia.
  - unfold UInt32.max_unsigned. simpl. lia.
  - unfold Int32.max_signed. simpl. lia.
  - reflexivity.
Defined.

Lemma sample_ok (expand : Z) :
  0 <= expand <= 1 ->
  Forall (texture_ok expand 0) sample_textures
  /\ Forall (source_ok sample_buffer) sample_textures.
Proof.
  intros He. split; repeat constructor; unfold Int32.max_signed; simpl; lia.
Qed.

Lemma edge_expansion_clamps_witness :
  exists atlas,
    compose (placement_order
               (pack_run C99 (S := stable_library_sort C99) sample_textures 8 1 0))
            sample_buffer 8 1 = (Completed, atlas)
    /\ (forall t dx dy c,
          In t (placement_order
                  (pack_run C99 (S := stable_library_sort C99) sample_textures 8 1 0)) ->
          - 1 <= dx < rect_w (tex_rect t) + 1 ->
          - 1 <= dy < rect_h (tex_rect t) + 1 -> 0 <= c < 4 ->
          image_byte atlas (rect_x (tex_rect t) + dx) (rect_y (tex_rect t) + dy) c
          = source_byte sample_buffer t (clamp dx 0 (rect_w (tex_rect t) - 1))
                                        (clamp dy 0 (rect_h (tex_rect t) - 1)) c)
    /\ (forall t k j c,
          In t (placement_order
                  (pack_run C99 (S := stable_library_sort C99) sample_textures 8 1 0)) ->
          1 <= k <= 1 -> 0 <= j < rect_h (tex_rect t) -> 0 <= c < 4 ->
          image_byte atlas (rect_x (tex_rect t) - k) (rect_y (tex_rect t) + j) c
          = source_byte sample_buffer t 0 j c).
Proof.
  apply (edge_expansion_clamps C99 (stable_library_sort C99) sample_textures
           sample_buffer 8 1 0).
  - apply stable_sort_contract.
  - unfold config_ok, Int32.max_signed. lia.
  - lia.
  - unfold Int32.max_signed. lia.
  - apply (sample_ok 1). lia.
  - apply (sample_ok 1). lia.
  - vm_compute. reflexivity.
  - vm_compute. repeat constructor.
Defined.


(** the scenario of the specification: a solid red 4 x 4 texture placed at
    (2, 2) with [expand = 2] has red pixels in its left margin *)
Lemma red_margin :
  let red := [Byte.xff; Byte.x00; Byte.x00; Byte.xff] in
  let buffer := concat (replicate 16 red) in
  let r := pack_run Cpp17 (S := stable_library_sort Cpp17)
                    [fresh_texture 4 4 0 0] 16 2 0 in
  run_status r = Completed /\
  placement_order r = [Texture (Rect 2 2 4 4) 0 0] /\
  exists atlas,
    compose (placement_order r) buffer 16 2 = (Completed, atlas)
    /\ map (image_byte atlas 0 2) [0; 1; 2; 3] = map Some red
    /\ map (image_byte atlas 1 2) [0; 1; 2; 3] = map Some red.
Proof.
  cbv zeta. split; [vm_compute; reflexivity|].
  split; [vm_compute; reflexivity|].
  eexists. split; [vm_compute; reflexivity|].
  split; vm_compute; reflexivity.
Qed.


(** ** More on the scan of the free spaces *)

Lemma scan_spaces_later_skipped spaces w h j space : forall n,
  (j < n)%nat -> spaces !! j = Some space ->
  w <= rect_w space -> h <= rect_h space ->
  (forall k s, (j < k < n)%nat -> spaces !! k = Some s ->
               rect_w s < w \/ rect_h s < h) ->
  (n <= length spaces)%nat ->
  scan_spaces spaces w h n = Some (j, space).
Proof.
  induction n as [|n IH]; intros Hj Hsp Hw Hh Hlater Hn; [lia|]. simpl.
  destruct (decide (j = n)) as [->|Hne].
  - rewrite Hsp.
    assert (E : (w >? rect_w space) || (h >? rect_h space) = false).
    { apply orb_false_iff. rewrite !Z.gtb_ltb, !Z.ltb_ge. lia. }
    rewrite E. reflexivity.
  - destruct (spaces !! n) as [s|] eqn:Hs.
    + assert (E : (w >? rect_w s) || (h >? rect_h s) = true).
      { apply orb_true_iff. rewrite !Z.gtb_ltb, !Z.ltb_lt.
        destruct (Hlater n s ltac:(lia) Hs); lia. }
      rewrite E. apply IH; auto with lia.
      intros k s' Hk. apply Hlater. lia.
    + apply lookup_ge_None in Hs. lia.
Qed.

(** X1.  The scan of the free spaces takes the last space of the list that the
    padded box fits: the space most recently appended wins over older ones. *)
Theorem scan_takes_last_fitting_space (spaces : list blocs__rect) (w h : Z)
    (j : nat) (space : blocs__rect) :
  scan_spaces spaces w h (length spaces) = Some (j, space) <->
  (spaces !! j = Some space /\ w <= rect_w space /\ h <= rect_h space /\
   forall k s, (j < k)%nat -> spaces !! k = Some s ->
               rect_w s < w \/ rect_h s < h).
Proof.
  split.
  - intros H. apply scan_spaces_some in H as (Hj & Hsp & Hw & Hh & Hlater).
    repeat split; auto. intros k s Hk Hs. apply (Hlater k s); [|exact Hs].
    apply lookup_lt_Some in Hs. lia.
  - intros (Hsp & Hw & Hh & Hlater).
    apply scan_spaces_later_skipped; auto.
    + apply lookup_lt_Some in Hsp. lia.
    + intros k s Hk. apply Hlater. lia.
Qed.

(** ** The other cases of a placement *)

Lemma cut_left_exact size space w :
  inside size space -> size <= Int32.max_signed -> 0 <= w <= rect_w space ->
  cut_left w space
  = Rect (rect_x space + w) (rect_y space) (rect_w space - w) (rect_h space).
Proof.
  intros (Hx & Hy & Hsw & Hsh & Hxw & Hyh) Hsize Hw.
  unfold Int32.max_signed in Hsize. unfold cut_left.
  rewrite int32_add_small, int32_sub_small by (apply in_range_bounds; lia).
  reflexivity.
Qed.

Lemma cut_top_exact size space h :
  inside size space -> size <= Int32.max_signed -> 0 <= h <= rect_h space ->
  cut_top h space
  = Rect (rect_x space) (rect_y space + h) (rect_w space) (rect_h space - h).
Proof.
  intros (Hx & Hy & Hsw & Hsh & Hxw & Hyh) Hsize Hh.
  unfold Int32.max_signed in Hsize. unfold cut_top.
  rewrite int32_add_small, int32_sub_small by (apply in_range_bounds; lia).
  reflexivity.
Qed.

Lemma new_space_exact size space w h :
  inside size space -> size <= Int32.max_signed -> 0 <= w <= rect_w space ->
  new_space space w h
  = Rect (rect_x space + w) (rect_y space) (rect_w space - w) h.
Proof.
  intros (Hx & Hy & Hsw & Hsh & Hxw & Hyh) Hsize Hw.
  unfold Int32.max_signed in Hsize. unfold new_space.
  rewrite int32_add_small, int32_sub_small by (apply in_range_bounds; lia).
  reflexivity.
Qed.

Lemma padded_nonneg size expand border t :
  config_ok size expand border -> texture_ok expand border t ->
  0 <= rect_w (tex_rect t) + (2 * expand + border) /\
  0 <= rect_h (tex_rect t) + (2 * expand + border).
Proof. intros (?&?&?&?) (?&?&?&?). lia. Qed.

(** X2.  When the padded box of a texture is exactly the free space the scan
    found, the space leaves the list: the last space of the list takes its
    slot (unless it was the last itself), every other space stays where it
    was, and the list is one shorter.  Both programs. *)
Theorem perfect_fit_removes_space (l : lang) (size expand border : Z) (len : nat)
    (spaces : list blocs__rect) (t : blocs__texture) (rest : list blocs__texture)
    (j : nat) (space : blocs__rect) :
  let w := rect_w (tex_rect t) + (2 * expand + border) in
  let h := rect_h (tex_rect t) + (2 * expand + border) in
  config_ok size expand border ->
  texture_ok expand border t ->
  size_assertion l size (tex_rect t) = true ->
  scan_spaces spaces w h (length spaces) = Some (j, space) ->
  w = rect_w space -> h = rect_h space ->
  exists spaces',
    pack_loop l size expand (2 * expand + border) len spaces (t :: rest)
    = run_cons (move_to expand space t, true)
        (pack_loop l size expand (2 * expand + border) len spaces' rest)
    /\ S (length spaces') = length spaces
    /\ (forall k, (k < length spaces')%nat -> k <> j -> spaces' !! k = spaces !! k)
    /\ ((j < length spaces')%nat -> spaces' !! j = spaces !! length spaces').
Proof.
  intros w h Hconfig Ht Hassert Hscan Hw Hh.
  destruct (padded_small _ _ _ _ Hconfig Ht) as [Ew Eh]. fold w h in Ew, Eh.
  pose proof (scan_spaces_some _ _ _ _ _ _ Hscan) as (Hj & Hsp & _).
  destruct (lookup_lt_is_Some_2 spaces (pred (length spaces)) ltac:(lia))
    as [last_space Hlast].
  set (n := pred (length spaces)) in *.
  exists (if (j <? n)%nat then <[j := last_space]> (take n spaces)
          else take n spaces).
  assert (Hupd : update_spaces (capacity l len) spaces j space w h
                 = Some (if (j <? n)%nat then <[j := last_space]> (take n spaces)
                         else take n spaces)).
  { unfold update_spaces. rewrite Hw, Hh, !Z.eqb_refl. simpl.
    fold n. rewrite Hlast. reflexivity. }
  assert (Hlen : length (if (j <? n)%nat then <[j := last_space]> (take n spaces)
                         else take n spaces) = n).
  { destruct (j <? n)%nat; rewrite ?length_insert, length_take; lia. }
  split; [|split; [|split]].
  - simpl. rewrite Hassert. simpl. rewrite Ew, Eh, Hscan, Hupd. reflexivity.
  - rewrite Hlen. lia.
  - rewrite Hlen. intros k Hk Hne.
    destruct (j <? n)%nat.
    + rewrite list_lookup_insert_ne by auto. apply lookup_take_lt. exact Hk.
    + apply lookup_take_lt. exact Hk.
  - rewrite Hlen. intros Hjn.
    destruct (Nat.ltb_spec j n) as [_|Hge]; [|lia].
    rewrite list_lookup_insert_eq by (rewrite length_take; lia).
    symmetry. exact Hlast.
Qed.

Lemma perfect_fit_removes_space_witness :
  exists spaces',
    pack_loop Cpp17 32 0 (2 * 0 + 0) 3
              [Rect 0 8 32 24; Rect 8 0 8 8; Rect 16 0 4 8]
              [fresh_texture 8 8 0 0]
    = run_cons (move_to 0 (Rect 8 0 8 8) (fresh_texture 8 8 0 0), true)
        (pack_loop Cpp17 32 0 (2 * 0 + 0) 3 spaces' [])
    /\ S (length spaces') = 3%nat
    /\ (forall k, (k < length spaces')%nat -> k <> 1%nat ->
          spaces' !! k = [Rect 0 8 32 24; Rect 8 0 8 8; Rect 16 0 4 8] !! k)
    /\ ((1 < length spaces')%nat ->
          spaces' !! 1%nat
          = [Rect 0 8 32 24; Rect 8 0 8 8; Rect 16 0 4 8] !! length spaces').
Proof.
  apply (perfect_fit_removes_space Cpp17 32 0 0 3
           [Rect 0 8 32 24; Rect 8 0 8 8; Rect 16 0 4 8]
           (fresh_texture 8 8 0 0) [] 1%nat (Rect 8 0 8 8)).
  - unfold config_ok, Int32.max_signed. lia.
  - unfold texture_ok, Int32.max_signed. simpl. lia.
  - reflexivity.
  - reflexivity.
  - reflexivity.
  - reflexivity.
Defined.

(** X3.  When the padded box has the height of the free space and is narrower,
    the space is cut on its left, in place; when it has its width and is
    shorter, the space is cut on its top, in place.  No space is appended
    and the other spaces are untouched. *)
Theorem matching_side_cuts_in_place (l : lang) (size expand border : Z) (len : nat)
    (spaces : list blocs__rect) (t : blocs__texture) (rest : list blocs__texture)
    (j : nat) (space : blocs__rect) :
  let w := rect_w (tex_rect t) + (2 * expand + border) in
  let h := rect_h (tex_rect t) + (2 * expand + border) in
  config_ok size expand border ->
  texture_ok expand border t ->
  Forall (inside size) spaces ->
  size_assertion l size (tex_rect t) = true ->
  scan_spaces spaces w h (length spaces) = Some (j, space) ->
  (w < rect_w space -> h = rect_h space ->
   pack_loop l size expand (2 * expand + border) len spaces (t :: rest)
   = run_cons (move_to expand space t, true)
       (pack_loop l size expand (2 * expand + border) len
          (<[j := Rect (rect_x space + w) (rect_y space)
                       (rect_w space - w) (rect_h space)]> spaces) rest))
  /\
  (w = rect_w space -> h < rect_h space ->
   pack_loop l size expand (2 * expand + border) len spaces (t :: rest)
   = run_cons (move_to expand space t, true)
       (pack_loop l size expand (2 * expand + border) len
          (<[j := Rect (rect_x space) (rect_y space + h)
                       (rect_w space) (rect_h space - h)]> spaces) rest)).
Proof.
  intros w h Hconfig Ht Hin Hassert Hscan.
  destruct (padded_small _ _ _ _ Hconfig Ht) as [Ew Eh]. fold w h in Ew, Eh.
  destruct (padded_nonneg _ _ _ _ Hconfig Ht) as [Hw0 Hh0]. fold w h in Hw0, Hh0.
  pose proof (scan_spaces_some _ _ _ _ _ _ Hscan) as (Hj & Hsp & Hwle & Hhle & _).
  assert (Hspace : inside size space).
  { rewrite Forall_forall in Hin. apply Hin, list_elem_of_lookup. eauto. }
  assert (Hsize : size <= Int32.max_signed) by (destruct Hconfig as (?&?&?&?); lia).
  split.
  - intros Hw Hh.
    assert (Hupd : update_spaces (capacity l len) spaces j space w h
                   = Some (<[j := Rect (rect_x space + w) (rect_y space)
                                       (rect_w space - w) (rect_h space)]> spaces)).
    { unfold update_spaces.
      destruct (Z.eqb_spec w (rect_w space)) as [E|_]; [lia|]. simpl.
      rewrite Hh, Z.eqb_refl.
      rewrite (alter_as_insert _ _ _ space) by exact Hsp.
      rewrite (cut_left_exact size) by (auto; lia). reflexivity. }
    simpl. rewrite Hassert. simpl. rewrite Ew, Eh, Hscan, Hupd. reflexivity.
  - intros Hw Hh.
    assert (Hupd : update_spaces (capacity l len) spaces j space w h
                   = Some (<[j := Rect (rect_x space) (rect_y space + h)
                                       (rect_w space) (rect_h space - h)]> spaces)).
    { unfold update_spaces.
      destruct (Z.eqb_spec h (rect_h space)) as [E|_]; [lia|].
      destruct (Z.eqb_spec w (rect_w space)) as [_|E]; [|lia]. simpl.
      rewrite (alter_as_insert _ _ _ space) by exact Hsp.
      rewrite (cut_top_exact size) by (auto; lia). reflexivity. }
    simpl. rewrite Hassert. simpl. rewrite Ew, Eh, Hscan, Hupd. reflexivity.
Qed.

Lemma matching_side_cuts_in_place_witness :
  pack_loop C99 32 0 (2 * 0 + 0) 3 [Rect 0 8 32 24; Rect 8 0 24 8]
            [fresh_texture 8 8 0 0]
  = run_cons (move_to 0 (Rect 8 0 24 8) (fresh_texture 8 8 0 0), true)
      (pack_loop C99 32 0 (2 * 0 + 0) 3
         (<[1%nat := Rect (8 + (8 + (2 * 0 + 0))) 0 (24 - (8 + (2 * 0 + 0))) 8]>
            [Rect 0 8 32 24; Rect 8 0 24 8]) []).
Proof.
  refine (proj1 (matching_side_cuts_in_place C99 32 0 0 3
                   [Rect 0 8 32 24; Rect 8 0 24 8]
                   (fresh_texture 8 8 0 0) [] 1%nat (Rect 8 0 24 8)
                   _ _ _ _ _) _ _).
  - unfold config_ok, Int32.max_signed. lia.
  - unfold texture_ok, Int32.max_signed. simpl. lia.
  - repeat constructor; simpl; lia.
  - reflexivity.
  - reflexivity.
  - simpl. lia.
  - reflexivity.
Defined.

(** ** The area of the free spaces *)

Lemma free_area_app (xs ys : list blocs__rect) :
  free_area (xs ++ ys) = free_area xs + free_area ys.
Proof. induction xs as [|x xs IH]; simpl; [reflexivity|]. rewrite IH. lia. Qed.

Lemma free_area_perm (xs ys : list blocs__rect) :
  Permutation xs ys -> free_area xs = free_area ys.
Proof. induction 1; simpl; lia. Qed.

Lemma free_area_delete (xs : list blocs__rect) : forall (j : nat) (x : blocs__rect),
  xs !! j = Some x -> free_area (delete j xs) + rect_area x = free_area xs.
Proof.
  induction xs as [|y ys IH]; intros [|j] x H; simpl in *; try discriminate.
  - injection H as ->. lia.
  - specialize (IH j x H). lia.
Qed.

Lemma remainder_area size space w h :
  inside size space -> size <= Int32.max_signed ->
  0 <= w <= rect_w space -> 0 <= h <= rect_h space ->
  free_area (remainder space w h) + w * h = rect_area space.
Proof.
  intros Hin Hsize Hw Hh. unfold remainder.
  destruct (Z.eqb_spec w (rect_w space)) as [Ew|Nw];
    destruct (Z.eqb_spec h (rect_h space)) as [Eh|Nh]; simpl;
    rewrite ?(cut_left_exact size), ?(cut_top_exact size),
            ?(new_space_exact size) by (auto; lia);
    unfold rect_area; simpl; subst; lia.
Qed.

Lemma update_spaces_area size cap spaces j space w h spaces' :
  Forall (inside size) spaces -> size <= Int32.max_signed ->
  spaces !! j = Some space ->
  0 <= w <= rect_w space -> 0 <= h <= rect_h space ->
  update_spaces cap spaces j space w h = Some spaces' ->
  free_area spaces' + w * h = free_area spaces.
Proof.
  intros Hin Hsize Hsp Hw Hh Hupd.
  rewrite (free_area_perm _ _ (update_spaces_perm _ _ _ _ _ _ _ Hsp Hupd)).
  rewrite free_area_app.
  assert (Hspace : inside size space).
  { rewrite Forall_forall in Hin. apply Hin, list_elem_of_lookup. eauto. }
  pose proof (remainder_area size space w h Hspace Hsize Hw Hh).
  pose proof (free_area_delete spaces j space Hsp). lia.
Qed.

Lemma placed_area_unplaced expand border ts :
  placed_area expand border (unplaced ts) = 0.
Proof. induction ts as [|t ts IH]; simpl; [reflexivity|]. rewrite IH. lia. Qed.

Lemma pack_loop_area (l : lang) (size expand border : Z) (len : nat) todo :
  config_ok size expand border ->
  forall spaces,
  spaces_inv size spaces ->
  Forall (texture_ok expand border) todo ->
  let r := pack_loop l size expand (2 * expand + border) len spaces todo in
  run_status r = Completed ->
  free_area (run_spaces r) + placed_area expand border (run_textures r)
  = free_area spaces.
Proof.
  intros Hconfig.
  induction todo as [|t rest IH]; intros spaces Hinv Hok; simpl.
  { intros _. lia. }
  apply Forall_cons in Hok as [Ht Hrest].
  destruct (size_assertion l size (tex_rect t)); simpl; [|discriminate].
  destruct (padded_small _ _ _ _ Hconfig Ht) as [Ew Eh]. rewrite Ew, Eh.
  destruct (padded_nonneg _ _ _ _ Hconfig Ht) as [Hw0 Hh0].
  set (w := rect_w (tex_rect t) + (2 * expand + border)) in *.
  set (h := rect_h (tex_rect t) + (2 * expand + border)) in *.
  destruct (scan_spaces spaces w h (length spaces)) as [[j space]|] eqn:Hscan.
  2:{ simpl. intros Hdone. specialize (IH spaces Hinv Hrest Hdone).
      simpl in IH. lia. }
  apply scan_spaces_some in Hscan as (Hj & Hsp & Hw & Hh & _).
  assert (Hsize : size <= Int32.max_signed) by (destruct Hconfig as (?&?&?&?); lia).
  destruct (update_spaces (capacity l len) spaces j space w h)
    as [spaces'|] eqn:Hupd; simpl; [|discriminate].
  intros Hdone.
  destruct (update_spaces_inv _ _ _ _ _ _ _ _ Hinv Hsize Hsp
              (conj Hw0 Hw) (conj Hh0 Hh) Hupd) as (Hinv' & _).
  specialize (IH spaces' Hinv' Hrest Hdone). simpl in IH.
  pose proof (update_spaces_area size _ _ _ _ _ _ _ (proj1 Hinv) Hsize Hsp
                (conj Hw0 Hw) (conj Hh0 Hh) Hupd) as Harea.
  fold w h. lia.
Qed.

Lemma free_area_nonneg size spaces :
  Forall (inside size) spaces -> 0 <= free_area spaces.
Proof.
  induction 1 as [|s ss (?&?&?&?&?&?) _ IH]; simpl; [lia|].
  unfold rect_area. nia.
Qed.

(** X4.  The packer loses no pixel and hands none out twice: after a pack that
    completes, the pixels of the free spaces that are left and the pixels of
    the padded boxes of the placed textures add up to the [size * size]
    pixels of the atlas. *)
Theorem free_and_placed_area_is_atlas_area (l : lang) (S : LibrarySort l)
    (textures : list blocs__texture) (size expand border : Z) :
  sort_contract l S ->
  config_ok size expand border ->
  Forall (texture_ok expand border) textures ->
  run_status (pack_run l textures size expand border) = Completed ->
  free_area (run_spaces (pack_run l textures size expand border))
  + placed_area expand border
      (run_textures (pack_run l textures size expand border))
  = size * size.
Proof.
  intros Hsort Hconfig Hok Hdone.
  pose proof (pack_run_completed l S textures size expand border Hdone)
    as (_ & _ & E).
  rewrite E in Hdone |- *.
  rewrite (padding_of_small _ _ _ Hconfig) in Hdone |- *.
  assert (Hsorted : Forall (texture_ok expand border) (sort_textures textures)).
  { rewrite <- (proj1 Hsort textures). exact Hok. }
  rewrite (pack_loop_area l size expand border (length textures)
             (sort_textures textures) Hconfig [start_space size]
             (start_space_inv size ltac:(destruct Hconfig as (?&?&?&?); lia))
             Hsorted Hdone).
  simpl. unfold rect_area. simpl. lia.
Qed.

Lemma free_and_placed_area_is_atlas_area_witness :
  let r := pack_run Cpp17 (S := stable_library_sort Cpp17)
             [fresh_texture 8 16 0 0; fresh_texture 16 8 1 512;
              fresh_texture 8 8 2 1024] 32 1 1 in
  free_area (run_spaces r) + placed_area 1 1 (run_textures r) = 32 * 32.
Proof.
  apply (free_and_placed_area_is_atlas_area Cpp17 (stable_library_sort Cpp17)).
  - apply stable_sort_contract.
  - unfold config_ok, Int32.max_signed. lia.
  - repeat constructor; unfold Int32.max_signed; simpl; lia.
  - vm_compute. reflexivity.
Defined.

(** ** The number of free spaces, again *)


Lemma placed_count_cons t (b : bool) ts :
  placed_count ((t, b) :: ts)
  = ((if b then 1 else 0) + placed_count ts)%nat.
Proof.
  unfold placed_count. destruct b.
  - rewrite filter_cons_True by reflexivity. reflexivity.
  - rewrite filter_cons_False by (simpl; discriminate). reflexivity.
Qed.

Lemma pack_loop_spaces_placed l size expand padding len todo : forall spaces,
  (length (run_spaces (pack_loop l size expand padding len spaces todo))
   <= length spaces
      + placed_count (run_textures (pack_loop l size expand padding len spaces todo)))%nat.
Proof.
  induction todo as [|t rest IH]; intros spaces; simpl; [lia|].
  destruct (size_assertion l size (tex_rect t)); simpl; [|lia].
  destruct (scan_spaces _ _ _ _) as [[j space]|].
  - destruct (update_spaces _ _ _ _ _ _) as [spaces'|] eqn:Hupd;
      [|simpl; lia].
    apply update_spaces_length in Hupd. specialize (IH spaces').
    unfold run_cons at 2. simpl run_textures. rewrite placed_count_cons.
    simpl. lia.
  - specialize (IH spaces).
    unfold run_cons at 2. simpl run_textures. rewrite placed_count_cons.
    simpl. lia.
Qed.

(** X5.  However a pack ends, the free spaces number at most one more than the
    textures placed: the list starts with one space and a placement adds
    one at most.  (So an array for them needs one slot more than there are
    textures.) *)
Theorem free_spaces_at_most_placed_plus_one (l : lang) (S : LibrarySort l)
    (textures : list blocs__texture) (size expand border : Z) :
  (length (run_spaces (pack_run l textures size expand border))
   <= 1 + placed_count (run_textures (pack_run l textures size expand border)))%nat.
Proof.
  unfold pack_run.
  destruct (negb (max_size_ok _ _)); simpl; [lia|].
  destruct (negb (area_ok _ _)); simpl; [lia|].
  destruct (negb (has_room _ _)); simpl; [lia|].
  apply (pack_loop_spaces_placed l size expand (padding_of expand border)
           (length textures) (sort_textures textures) [start_space size]).
Qed.

(** ** The assertion at the head of the placement loop *)

Lemma pack_loop_assertion_holds (l : lang) size expand padding len todo :
  Forall (fun t => size_assertion l size (tex_rect t) = true) todo ->
  forall spaces,
  run_status (pack_loop l size expand padding len spaces todo)
  <> Aborted TextureLargerThanMax.
Proof.
  induction 1 as [|t rest Ht _ IH]; intros spaces; simpl; [discriminate|].
  rewrite Ht. simpl.
  destruct (scan_spaces _ _ _ _) as [[j space]|]; simpl; [|apply IH].
  destruct (update_spaces _ _ _ _ _ _) as [spaces'|]; simpl;
    [apply IH|discriminate].
Qed.

Lemma update_spaces_vector spaces j space w h :
  spaces !! j = Some space ->
  exists spaces', update_spaces None spaces j space w h = Some spaces'.
Proof.
  intros Hsp. unfold update_spaces.
  destruct ((w =? rect_w space) && (h =? rect_h space)).
  - apply lookup_lt_Some in Hsp.
    destruct (lookup_lt_is_Some_2 spaces (pred (length spaces)) ltac:(lia))
      as [last_space ->].
    eauto.
  - destruct (h =? rect_h space); [eauto|].
    destruct (w =? rect_w space); eauto.
Qed.

Lemma pack_loop_growing (l : lang) size expand padding len todo :
  capacity l len = None ->
  forall spaces,
  run_status (pack_loop l size expand padding len spaces todo) <> Undefined.
Proof.
  intros Hcap.
  induction todo as [|t rest IH]; intros spaces; simpl; [discriminate|].
  destruct (size_assertion l size (tex_rect t)); simpl; [|discriminate].
  destruct (scan_spaces _ _ _ _) as [[j space]|] eqn:Hscan; simpl; [|apply IH].
  apply scan_spaces_some in Hscan as (_ & Hsp & _).
  rewrite Hcap.
  destruct (update_spaces_vector spaces j space
              (Int32.add (rect_w (tex_rect t)) padding)
              (Int32.add (rect_h (tex_rect t)) padding) Hsp) as [spaces' ->].
  simpl. apply IH.
Qed.

Lemma pack_loop_vector size expand padding len todo spaces :
  run_status (pack_loop Cpp17 size expand padding len spaces todo) <> Undefined.
Proof. now apply pack_loop_growing. Qed.

Lemma pack_loop_first_failure (l : lang) size expand padding len todo :
  forall spaces,
  run_status (pack_loop l size expand padding len spaces todo)
  = Aborted TextureLargerThanMax ->
  Exists (fun t => size_assertion l size (tex_rect t) = false) todo.
Proof.
  induction todo as [|t rest IH]; intros spaces; simpl;
    [intros H; discriminate H|].
  destruct (size_assertion l size (tex_rect t)) eqn:Ht; simpl.
  2:{ intros _. apply Exists_cons_hd. exact Ht. }
  destruct (scan_spaces _ _ _ _) as [[j space]|]; simpl.
  - destruct (update_spaces _ _ _ _ _ _) as [spaces'|]; simpl;
      [|intros H; discriminate H].
    intros H. apply Exists_cons_tl. eapply IH. exact H.
  - intros H. apply Exists_cons_tl. eapply IH. exact H.
Qed.

Lemma pack_loop_completed_asserted (l : lang) size expand padding len todo :
  forall spaces,
  run_status (pack_loop l size expand padding len spaces todo) = Completed ->
  Forall (fun t => size_assertion l size (tex_rect t) = true) todo.
Proof.
  induction todo as [|t rest IH]; intros spaces; simpl; [constructor|].
  destruct (size_assertion l size (tex_rect t)) eqn:Ht; simpl;
    [|intros H; discriminate H].
  destruct (scan_spaces _ _ _ _) as [[j space]|]; simpl.
  - destruct (update_spaces _ _ _ _ _ _) as [spaces'|]; simpl;
      [|intros H; discriminate H].
    intros H. constructor; [exact Ht|]. eapply IH. exact H.
  - intros H. constructor; [exact Ht|]. eapply IH. exact H.
Qed.

Lemma pack_loop_abort_kind (l : lang) size expand padding len todo e :
  forall spaces,
  run_status (pack_loop l size expand padding len spaces todo) = Aborted e ->
  e = TextureLargerThanMax.
Proof.
  induction todo as [|t rest IH]; intros spaces; simpl;
    [intros H; discriminate H|].
  destruct (size_assertion l size (tex_rect t)) eqn:Ht; simpl;
    [|intros H; congruence].
  destruct (scan_spaces _ _ _ _) as [[j space]|]; simpl.
  - destruct (update_spaces _ _ _ _ _ _) as [spaces'|]; simpl;
      [|intros H; discriminate H].
    apply IH.
  - apply IH.
Qed.

Lemma prechecks_passed (l : lang) (S : LibrarySort l) textures size expand border :
  config_ok size expand border ->
  Forall (texture_ok expand border) textures ->
  max_size_ok (measure_all (padding_of expand border) textures) size = true ->
  Forall (fun t => rect_w (tex_rect t) + (2 * expand + border) <= size /\
                   rect_h (tex_rect t) + (2 * expand + border) <= size) textures.
Proof.
  intros Hconfig Hok Hmax.
  rewrite (padding_of_small _ _ _ Hconfig) in Hmax.
  apply (measure_max_ok size expand border textures Hconfig Hok
           {| area := 0; max_w := 0; max_h := 0 |}). exact Hmax.
Qed.

Lemma pack_run_in_loop (l : lang) (S : LibrarySort l) textures size expand border e :
  run_status (pack_run l textures size expand border) = Aborted e ->
  e <> OversizedTexture -> e <> InsufficientSpace ->
  max_size_ok (measure_all (padding_of expand border) textures) size = true /\
  pack_run l textures size expand border
  = pack_loop l size expand (padding_of expand border) (length textures)
              [start_space size] (sort_textures textures).
Proof.
  unfold pack_run.
  destruct (max_size_ok _ _); simpl; [|congruence].
  destruct (area_ok _ _); simpl; [|congruence].
  destruct (has_room _ _); simpl; [auto|discriminate].
Qed.

(** X7.  In the C program the assertion at the head of the placement loop
    ("texture larger than maximum size") never fails: a texture that would
    fail it has already failed the check of the largest padded size, before
    the loop. *)
Theorem c_loop_assertion_never_fails (S : LibrarySort C99)
    (textures : list blocs__texture) (size expand border : Z) :
  sort_contract C99 S ->
  config_ok size expand border ->
  Forall (texture_ok expand border) textures ->
  run_status (pack_run C99 textures size expand border)
  <> Aborted TextureLargerThanMax.
Proof.
  intros Hsort Hconfig Hok Hfail.
  destruct (pack_run_in_loop C99 S textures size expand border _ Hfail)
    as [Hmax E]; try discriminate.
  rewrite E in Hfail. revert Hfail.
  apply pack_loop_assertion_holds.
  rewrite <- (proj1 Hsort textures).
  pose proof (prechecks_passed C99 S textures size expand border Hconfig Hok Hmax)
    as Hfit.
  rewrite Forall_forall in Hfit, Hok. apply Forall_forall. intros t Ht.
  destruct (Hfit t Ht) as [Hw Hh]. destruct Hconfig as (?&?&?&?).
  simpl. apply andb_true_iff. rewrite !Z.leb_le. lia.
Qed.

Lemma c_loop_assertion_never_fails_witness :
  run_status (pack_run C99 (S := stable_library_sort C99)
                [fresh_texture 10 2 0 0; fresh_texture 2 2 1 80;
                 fresh_texture 2 2 2 96] 10 0 0)
  <> Aborted TextureLargerThanMax.
Proof.
  apply (c_loop_assertion_never_fails (stable_library_sort C99)).
  - apply stable_sort_contract.
  - unfold config_ok, Int32.max_signed. lia.
  - repeat constructor; unfold Int32.max_signed; simpl; lia.
Defined.

(** X8.  In the C++ program that assertion is strict ([rect.w < m_size]): it
    fails, after both pre-checks have passed, exactly for a texture as wide
    or as tall as the atlas with no padding around it, a texture the C
    program packs.  And [atlas::pack] never leaves defined behaviour: its
    vector of free spaces grows as needed. *)
Theorem cpp_loop_assertion_is_strict (S : LibrarySort Cpp17)
    (textures : list blocs__texture) (size expand border : Z) :
  sort_contract Cpp17 S ->
  config_ok size expand border ->
  Forall (texture_ok expand border) textures ->
  run_status (pack_run Cpp17 textures size expand border) <> Undefined
  /\ (run_status (pack_run Cpp17 textures size expand border)
      = Aborted TextureLargerThanMax ->
      2 * expand + border = 0 /\
      Exists (fun t => rect_w (tex_rect t) = size \/ rect_h (tex_rect t) = size)
             textures)
  /\ (max_size_ok (measure_all (padding_of expand border) textures) size = true ->
      area_ok (measure_all (padding_of expand border) textures) size = true ->
      Exists (fun t => rect_w (tex_rect t) = size \/ rect_h (tex_rect t) = size)
             textures ->
      run_status (pack_run Cpp17 textures size expand border)
      = Aborted TextureLargerThanMax).
Proof.
  intros Hsort Hconfig Hok. split; [|split].
  - unfold pack_run.
    destruct (negb (max_size_ok _ _)); simpl; [discriminate|].
    destruct (negb (area_ok _ _)); simpl; [discriminate|].
    apply pack_loop_vector.
  - intros Hfail.
    destruct (pack_run_in_loop Cpp17 S textures size expand border _ Hfail)
      as [Hmax E]; try discriminate.
    rewrite E in Hfail. apply pack_loop_first_failure in Hfail.
    pose proof (prechecks_passed Cpp17 S textures size expand border
                  Hconfig Hok Hmax) as Hfit.
    apply Exists_exists in Hfail as (t & Ht & Hfalse).
    rewrite <- (proj1 Hsort textures) in Ht.
    rewrite Forall_forall in Hfit, Hok.
    destruct (Hfit t Ht) as [Hw Hh]. destruct Hconfig as (?&?&?&?).
    simpl in Hfalse. apply andb_false_iff in Hfalse.
    rewrite !Z.ltb_ge in Hfalse.
    split; [lia|]. apply Exists_exists. exists t. split; [exact Ht|lia].
  - intros Hmax Harea Hbig. unfold pack_run. rewrite Hmax, Harea. simpl.
    assert (Hsorted : Exists (fun t => size_assertion Cpp17 size (tex_rect t) = false)
                             (sort_textures textures)).
    { apply Exists_exists in Hbig as (t & Ht & Hbig).
      apply Exists_exists. exists t. split.
      - rewrite <- (proj1 Hsort textures). exact Ht.
      - simpl. apply andb_false_iff. rewrite !Z.ltb_ge. lia. }
    pose proof (pack_loop_vector size expand (padding_of expand border)
                  (length textures) (sort_textures textures) [start_space size])
      as Hdef.
    destruct (run_status (pack_loop Cpp17 size expand (padding_of expand border)
                (length textures) [start_space size] (sort_textures textures)))
      as [| e |] eqn:Hst; [| |congruence].
    + exfalso. apply pack_loop_completed_asserted in Hst.
      apply Exists_exists in Hsorted as (t & Ht & Hfalse).
      rewrite Forall_forall in Hst. specialize (Hst t Ht). congruence.
    + f_equal. eapply pack_loop_abort_kind. exact Hst.
Qed.

Lemma cpp_loop_assertion_is_strict_witness :
  let textures := [fresh_texture 10 2 0 0; fresh_texture 2 2 1 80;
                   fresh_texture 2 2 2 96] in
  run_status (pack_run Cpp17 (S := stable_library_sort Cpp17) textures 10 0 0)
  = Aborted TextureLargerThanMax
  /\ run_status (pack_run C99 (S := stable_library_sort C99) textures 10 0 0)
  = Completed.
Proof.
  split.
  - apply (proj2 (proj2 (cpp_loop_assertion_is_strict (stable_library_sort Cpp17)
             [fresh_texture 10 2 0 0; fresh_texture 2 2 1 80;
              fresh_texture 2 2 2 96] 10 0 0
             (stable_sort_contract Cpp17)
             ltac:(unfold config_ok, Int32.max_signed; lia)
             ltac:(repeat constructor; unfold Int32.max_signed; simpl; lia)))).
    + vm_compute. reflexivity.
    + vm_compute. reflexivity.
    + apply Exists_cons_hd. left. reflexivity.
  - vm_compute. reflexivity.
Defined.

(** ** The two programs side by side *)

Lemma update_spaces_array_vector (c : nat) spaces j space w h spaces' :
  update_spaces (Some c) spaces j space w h = Some spaces' ->
  update_spaces None spaces j space w h = Some spaces'.
Proof.
  unfold update_spaces.
  destruct ((w =? rect_w space) && (h =? rect_h space)); [auto|].
  destruct (h =? rect_h space); [auto|].
  destruct (w =? rect_w space); [auto|].
  simpl. destruct (length spaces <? c)%nat; [auto|discriminate].
Qed.

Lemma pack_loop_c_cpp size expand padding len todo :
  Forall (fun t => rect_w (tex_rect t) < size /\ rect_h (tex_rect t) < size) todo ->
  forall spaces,
  run_status (pack_loop C99 size expand padding len spaces todo) = Completed ->
  pack_loop Cpp17 size expand padding len spaces todo
  = pack_loop C99 size expand padding len spaces todo.
Proof.
  induction 1 as [|t rest [Hw Hh] _ IH]; intros spaces; [reflexivity|].
  cbn [pack_loop].
  assert (E1 : size_assertion Cpp17 size (tex_rect t) = true).
  { simpl. apply andb_true_iff. rewrite !Z.ltb_lt. lia. }
  assert (E2 : size_assertion C99 size (tex_rect t) = true).
  { simpl. apply andb_true_iff. rewrite !Z.leb_le. lia. }
  rewrite E1, E2. cbn [negb].
  destruct (scan_spaces _ _ _ _) as [[j space]|].
  - destruct (update_spaces (capacity C99 len) _ _ _ _ _) as [spaces'|] eqn:Hupd.
    + cbn [capacity] in Hupd |- *.
      rewrite (update_spaces_array_vector _ _ _ _ _ _ _ Hupd).
      intros Hdone. simpl in Hdone. rewrite (IH spaces' Hdone). reflexivity.
    + intros Hdone. discriminate Hdone.
  - intros Hdone. simpl in Hdone. rewrite (IH spaces Hdone). reflexivity.
Qed.

(** X9.  When the C program packs a list of textures, each narrower and shorter
    than the atlas, and returns, the C++ program ends in the same state (the
    same positions, the same free spaces) provided its library sort leaves
    the textures in the order the C one does. *)
Theorem c_pack_is_cpp_pack (S1 : LibrarySort C99) (S2 : LibrarySort Cpp17)
    (textures : list blocs__texture) (size expand border : Z) :
  @sort_textures C99 S1 textures = @sort_textures Cpp17 S2 textures ->
  sort_contract C99 S1 ->
  Forall (fun t => rect_w (tex_rect t) < size /\ rect_h (tex_rect t) < size)
         textures ->
  run_status (pack_run C99 textures size expand border) = Completed ->
  pack_run Cpp17 textures size expand border
  = pack_run C99 textures size expand border.
Proof.
  intros Hsame Hsort Hsmall Hdone.
  pose proof (pack_run_completed C99 S1 textures size expand border Hdone)
    as (Hmax & Harea & E).
  rewrite E in Hdone |- *.
  unfold pack_run. rewrite Hmax, Harea. cbn [negb capacity has_room].
  rewrite <- Hsame.
  apply pack_loop_c_cpp; [|exact Hdone].
  rewrite <- (proj1 Hsort textures). exact Hsmall.
Qed.

Lemma c_pack_is_cpp_pack_witness :
  pack_run Cpp17 (S := stable_library_sort Cpp17)
    [fresh_texture 8 8 0 0; fresh_texture 16 8 1 256; fresh_texture 8 16 2 768]
    32 0 0
  = pack_run C99 (S := stable_library_sort C99)
    [fresh_texture 8 8 0 0; fresh_texture 16 8 1 256; fresh_texture 8 16 2 768]
    32 0 0.
Proof.
  apply (c_pack_is_cpp_pack (stable_library_sort C99) (stable_library_sort Cpp17)).
  - vm_compute. reflexivity.
  - apply stable_sort_contract.
  - repeat constructor; simpl; lia.
  - vm_compute. reflexivity.
Defined.

(** ** Registration, with the pixels *)

Lemma put_texture_next (l : lang) (done slots : list blocs__texture)
    (i : Z) (n : nat) (t : blocs__texture) :
  i = Z.of_nat (length done) ->
  array_ready l slots (S n) ->
  exists slots',
    put_texture l (done ++ slots) i t = Some ((done ++ [t]) ++ slots')
    /\ array_ready l slots' n.
Proof.
  intros Hi Hready. destruct l; simpl in Hready |- *.
  - destruct slots as [|slot slots']; [discriminate|]. exists slots'.
    rewrite length_app. simpl.
    destruct (Z.leb_spec 0 i); [|lia].
    destruct (Z.ltb_spec i (Z.of_nat (length done + S (length slots')))); [|lia].
    simpl. split; [|simpl in Hready; lia]. f_equal.
    rewrite Hi, Nat2Z.id.
    replace (length done) with (length done + 0)%nat at 1 by lia.
    rewrite insert_app_r. simpl. now rewrite <- app_assoc.
  - subst slots. exists []. rewrite !app_nil_r. auto.
Qed.

Lemma register_step (l : lang) (size : Z) (image : blocs__image)
    (rest : list blocs__image) (i : Z) (st : staging) (data : list byte) :
  image_ok l size image -> img_data image = Some data ->
  register l size (image :: rest) i st
  = match put_texture l (st_textures st) i
            (fresh_texture (img_w image) (img_h image) i (st_buffer_index st)) with
    | None => (Undefined, st)
    | Some textures' =>
        match memcpy data 0 (st_buffer_index st) (buffer_length image)
                     (st_buffer st) with
        | (Completed, buffer') =>
            register l size rest (Int32.add i 1)
              {| st_textures := textures'; st_buffer := buffer';
                 st_buffer_index :=
                   UInt32.add (st_buffer_index st) (buffer_length image) |}
        | (s, _) => (s, st)
        end
    end.
Proof.
  intros (Hw & Hh & _ & Hsz) Hdata. simpl.
  assert (Hsize : match l with
                  | C99 => negb ((img_w image <=? size) && (img_h image <=? size))
                  | Cpp17 => false
                  end = false).
  { destruct l; [|reflexivity].
    destruct Hsz as [H1 H2]. apply Z.leb_le in H1, H2. now rewrite H1, H2. }
  rewrite Hsize. unfold add_texture. rewrite Hdata.
  assert (Hsize' : match l with
                   | C99 => false
                   | Cpp17 => negb ((img_w image <? size) && (img_h image <? size))
                   end = false).
  { destruct l; [reflexivity|].
    destruct Hsz as [H1 H2]. apply Z.ltb_lt in H1, H2. now rewrite H1, H2. }
  rewrite Hsize'. unfold fresh_texture.
  destruct (put_texture l _ _ _) as [textures'|]; [|reflexivity].
  destruct (memcpy _ _ _ _ _) as [[| |] buffer']; reflexivity.
Qed.




(** ** A staging buffer too small *)

Lemma store_outside (m : list byte) (i : Z) (v : byte) :
  Z.of_nat (length m) <= i -> store m i v = None.
Proof.
  intros Hi. unfold store.
  destruct (Z.ltb_spec i (Z.of_nat (length m))); [lia|].
  now rewrite andb_false_r.
Qed.

Lemma seqZ_split (a n k : Z) :
  0 <= k <= n -> seqZ a n = seqZ a k ++ seqZ (a + k) (n - k).
Proof.
  intros Hk. replace n with (k + (n - k)) at 1 by lia.
  apply seqZ_app; lia.
Qed.

Lemma memcpy_overrun (src dst : list byte) (s d n : Z) :
  0 < n -> 0 <= s -> s + n <= Z.of_nat (length src) ->
  0 <= d -> Z.of_nat (length dst) < d + n ->
  fst (memcpy src s d n dst) = Undefined.
Proof.
  intros Hn Hs Hsn Hd Hdn. unfold memcpy.
  destruct (Z.ltb_spec n 0); [lia|].
  destruct (Z.le_gt_cases d (Z.of_nat (length dst))) as [Hin|Hout].
  - assert (Hk : exists k, k = Z.of_nat (length dst) - d) by eauto.
    destruct Hk as [k Hk].
    rewrite (seqZ_split 0 n k) by lia. rewrite run_steps_app.
    destruct (memcpy_spec src dst s d k) as (dst' & Hcpy & Hlen & _); try lia.
    unfold memcpy in Hcpy. destruct (Z.ltb_spec k 0); [lia|].
    rewrite Hcpy. simpl.
    rewrite seqZ_cons by lia. simpl. unfold copy_byte.
    destruct (load src (s + (0 + k))) as [v|]; [|reflexivity].
    rewrite store_outside by lia. reflexivity.
  - rewrite seqZ_cons by lia. simpl. unfold copy_byte.
    destruct (load src (s + 0)) as [v|]; [|reflexivity].
    rewrite store_outside by lia. reflexivity.
Qed.

Lemma register_overrun (l : lang) (size : Z) (images : list blocs__image) :
  forall (i : Z) (done slots : list blocs__texture) (buffer : list byte)
         (offset : Z),
  Forall (image_ok l size) images ->
  0 <= offset <= Z.of_nat (length buffer) ->
  Z.of_nat (length buffer) < offset + total_bytes images ->
  offset + total_bytes images <= UInt32.max_unsigned ->
  i = Z.of_nat (length done) ->
  i + Z.of_nat (length images) <= Int32.max_signed ->
  array_ready l slots (length images) ->
  fst (register l size images i (Staging (done ++ slots) buffer offset))
  = Undefined.
Proof.
  induction images as [|image rest IH];
    intros i done slots buffer offset Hok Hoff Hcap Hu32 Hi Himax Hready.
  { simpl in Hcap. lia. }
  apply Forall_cons in Hok as [Him Hrest].
  pose proof (total_bytes_nonneg l size rest Hrest) as Htot.
  pose proof Him as (Hw & Hh & (data & Hdata & Hlen) & Hsz).
  simpl in Hcap, Hu32, Himax.
  assert (Hbytes : 0 <= img_w image * img_h image * 4) by nia.
  assert (Hbl : buffer_length image = img_w image * img_h image * 4).
  { apply buffer_length_small. unfold UInt32.max_unsigned in *. lia. }
  destruct (put_texture_next l done slots i (length rest)
              (fresh_texture (img_w image) (img_h image) i offset) Hi Hready)
    as (slots' & Hput & Hready').
  rewrite (register_step l size image rest i _ data Him Hdata). simpl.
  rewrite Hput.
  destruct (Z.le_gt_cases (offset + img_w image * img_h image * 4)
                          (Z.of_nat (length buffer))) as [Hfits|Hover].
  - destruct (memcpy_spec data buffer 0 offset (buffer_length image))
      as (buffer1 & Hcpy & Hlen1 & _); try lia.
    rewrite Hcpy.
    unfold UInt32.add, UInt32.wrap. rewrite Hbl.
    rewrite Z.mod_small by (unfold UInt32.max_unsigned in Hu32; lia).
    unfold Int32.max_signed in Himax.
    rewrite int32_add_small by (apply in_range_bounds; lia).
    apply IH; auto; rewrite ?Hlen1; unfold Int32.max_signed; try lia.
    rewrite length_app. simpl. lia.
  - pose proof (memcpy_overrun data buffer 0 offset (buffer_length image)) as Hbad.
    destruct (memcpy data 0 offset (buffer_length image) buffer) as [s b].
    simpl in Hbad. rewrite Hbad by lia. reflexivity.
Qed.

(** X11.  The staging buffer has room for [atlas_size * atlas_size] pixels and the
    registration loop does not check what is left of it: when the images,
    each small enough to pass the size assertion, hold more pixels than that
    together, a [memcpy] of the loop writes past the end of the buffer.  The
    area check of the packer, which would refuse such a list, comes after
    the registration. *)
Theorem staging_buffer_overrun (l : lang) (size : Z)
    (images : list blocs__image) (slots : list blocs__texture)
    (buffer : list byte) :
  Forall (image_ok l size) images ->
  Z.of_nat (length buffer) = size * size * 4 ->
  size * size * 4 < total_bytes images ->
  total_bytes images <= UInt32.max_unsigned ->
  Z.of_nat (length images) <= Int32.max_signed ->
  array_ready l slots (length images) ->
  fst (register l size images 0 (Staging slots buffer 0)) = Undefined.
Proof.
  intros Hok Hbuf Hover Hu32 Hlen Hready.
  apply (register_overrun l size images 0 [] slots buffer 0); auto; lia.
Qed.

Lemma staging_buffer_overrun_witness :
  fst (register C99 1
         (replicate 3 (Image 1 1 (Some (grey Byte.x01)))) 0
         (Staging (replicate 3 (fresh_texture 0 0 0 0)) (grey Byte.x00) 0))
  = Undefined.
Proof.
  apply (staging_buffer_overrun C99 1).
  - repeat constructor; simpl; try lia; eexists; (split; [reflexivity|simpl; lia]).
  - reflexivity.
  - simpl. lia.
  - unfold UInt32.max_unsigned. simpl. lia.
  - unfold Int32.max_signed. simpl. lia.
  - reflexivity.
Defined.

(** ** The textures of a registration *)

Lemma registered_spec (images : list blocs__image) : forall (i offset : Z) t,
  Forall (fun image => 0 <= img_w image /\ 0 <= img_h image) images ->
  In t (registered images i offset) ->
  exists (k : nat) image,
    images !! k = Some image
    /\ name_index t = i + Z.of_nat k
    /\ rect_w (tex_rect t) = img_w image /\ rect_h (tex_rect t) = img_h image
    /\ offset <= buffer_index t
    /\ buffer_index t + img_w image * img_h image * 4
       <= offset + total_bytes images
    /\ forall buffer, staged images offset buffer ->
         forall j, 0 <= j < img_w image * img_h image * 4 ->
           load buffer (buffer_index t + j) = image_data_byte image j.
Proof.
  induction images as [|image rest IH]; intros i offset t Hok Hin;
    simpl in Hin; [contradiction|].
  apply Forall_cons in Hok as [[Hw Hh] Hrest].
  assert (Htot : 0 <= total_bytes rest).
  { clear -Hrest. induction Hrest as [|x xs [? ?] _ IH]; simpl; [lia|nia]. }
  assert (Hbytes : 0 <= img_w image * img_h image * 4) by nia.
  destruct Hin as [<-|Hin].
  - exists 0%nat, image. simpl. repeat split; try lia.
    intros buffer [Hhead _] j Hj. now apply Hhead.
  - destruct (IH _ _ _ Hrest Hin)
      as (k & image' & Hk & Hname & Hw' & Hh' & Hlo & Hhi & Hbytes').
    exists (S k), image'. simpl. repeat split; auto; try lia.
    intros buffer [_ Htail]. now apply Hbytes'.
Qed.

Lemma padded_area_registered expand border (images : list blocs__image) :
  0 <= 2 * expand + border ->
  Forall (fun image => 0 <= img_w image /\ 0 <= img_h image) images ->
  forall i offset,
  total_bytes images <= 4 * padded_area expand border (registered images i offset).
Proof.
  intros Hp. induction 1 as [|image rest [Hw Hh] _ IH]; intros i offset; simpl.
  { lia. }
  specialize (IH (i + 1) (offset + img_w image * img_h image * 4)). nia.
Qed.

(** X12.  Every list of images that the area check of the packer lets through
    had room in the staging buffer: the pixels of the images are at most the
    padded areas, which the check holds under 85/100 of the
    [atlas_size * atlas_size] pixels the buffer was allocated for. *)
Theorem area_check_bounds_staging (images : list blocs__image)
    (size expand border : Z) :
  config_ok size expand border ->
  Forall (fun image => 0 <= img_w image /\ 0 <= img_h image) images ->
  Forall (texture_ok expand border) (registered images 0 0) ->
  size * size <= Int32.max_signed ->
  padded_area expand border (registered images 0 0) <= Int32.max_signed ->
  area_ok (measure_all (padding_of expand border) (registered images 0 0)) size
  = true ->
  total_bytes images <= size * size * 4.
Proof.
  intros Hconfig Hpos Hok Hsq Hsum Harea.
  rewrite (padding_of_small _ _ _ Hconfig) in Harea.
  assert (Earea : area (measure_all (2 * expand + border) (registered images 0 0))
                  = padded_area expand border (registered images 0 0)).
  { unfold measure_all. rewrite (measure_area size); auto; simpl; lia. }
  unfold area_ok in Harea. rewrite Earea in Harea.
  pose proof (padded_area_nonneg expand border (registered images 0 0)
                ltac:(destruct Hconfig as (?&?&?&?); lia)
                ltac:(destruct Hconfig as (?&?&?&?); lia) Hok) as Hnn.
  assert (0 <= size * size) by nia.
  rewrite (int32_mul_small size size) in Harea
    by (apply in_range_bounds; unfold Int32.max_signed in *; lia).
  rewrite area_check_exact in Harea by lia. apply Z.leb_le in Harea.
  pose proof (padded_area_registered expand border images
                ltac:(destruct Hconfig as (?&?&?&?); lia) Hpos 0 0).
  lia.
Qed.

Lemma area_check_bounds_staging_witness :
  total_bytes sample_images <= 8 * 8 * 4.
Proof.
  apply (area_check_bounds_staging sample_images 8 1 0).
  - unfold config_ok, Int32.max_signed. lia.
  - repeat constructor; simpl; lia.
  - repeat constructor; unfold Int32.max_signed; simpl; lia.
  - unfold Int32.max_signed. lia.
  - unfold Int32.max_signed. simpl. lia.
  - vm_compute. reflexivity.
Defined.

(** ** From the images to the atlas *)

Lemma in_by_identity (ts ts' : list blocs__texture) (t' : blocs__texture) :
  Permutation (map identity ts) (map identity ts') ->
  In t' ts' -> exists t, In t ts /\ identity t = identity t'.
Proof.
  intros Hperm Hin.
  assert (H : In (identity t') (map identity ts)).
  { apply (Permutation_in _ (Permutation_sym Hperm)). now apply in_map. }
  apply in_map_iff in H as (t & E & Ht). eauto.
Qed.



(** ** C strings *)

Lemma byte_eqb_spec (x y : byte) : reflect (x = y) (Byte.eqb x y).
Proof.
  destruct (Byte.eqb x y) eqn:E; constructor.
  - now apply byte_dec_bl.
  - now apply eqb_false.
Qed.

Lemma strrchr_none (s : list byte) (c : byte) :
  strrchr s c = None <-> ~ In c s.
Proof.
  induction s as [|b s IH]; simpl; [tauto|].
  destruct (strrchr s c) as [i|].
  - split; [discriminate|]. intros H. exfalso.
    assert (Hn : ~ In c s) by tauto. apply IH in Hn. discriminate.
  - destruct (byte_eqb_spec b c) as [->|Hne].
    + split; [discriminate|tauto].
    + split; [|reflexivity]. intros _ [H|H]; [congruence|].
      now apply (proj1 IH).
Qed.

Lemma strrchr_last (a b : list byte) (c : byte) :
  ~ In c b -> strrchr (a ++ c :: b) c = Some (length a).
Proof.
  intros Hb. induction a as [|x a IH]; simpl.
  - apply strrchr_none in Hb. rewrite Hb.
    destruct (byte_eqb_spec c c); [reflexivity|congruence].
  - rewrite IH. reflexivity.
Qed.

Lemma strrchr_some (s : list byte) (c : byte) (i : nat) :
  strrchr s c = Some i ->
  s = take i s ++ c :: drop (S i) s /\ ~ In c (drop (S i) s).
Proof.
  revert i. induction s as [|b s IH]; intros i; simpl; [discriminate|].
  destruct (strrchr s c) as [j|] eqn:E.
  - intros H. injection H as <-. destruct (IH j eq_refl) as [Hs Hn].
    simpl. split; [f_equal; exact Hs|exact Hn].
  - destruct (byte_eqb_spec b c) as [->|Hne]; [|discriminate].
    intros H. injection H as <-. simpl. rewrite drop_0.
    split; [reflexivity|]. now apply strrchr_none.
Qed.

Lemma to_N_inj (x y : byte) : Byte.to_N x = Byte.to_N y -> x = y.
Proof.
  intros H. pose proof (Byte.of_to_N x) as Hx. rewrite H, Byte.of_to_N in Hx.
  congruence.
Qed.

Lemma strcmp_eq (a b : list byte) :
  c_string a -> c_string b -> strcmp a b = 0 <-> a = b.
Proof.
  unfold c_string.
  revert b. induction a as [|x a IH]; intros [|y b] Ha Hb; simpl.
  - tauto.
  - split; [|discriminate]. intros H. exfalso. apply Hb. left.
    symmetry. apply to_N_inj. simpl. lia.
  - split; [|discriminate]. intros H. exfalso. apply Ha. left.
    symmetry. apply to_N_inj. simpl. lia.
  - destruct (byte_eqb_spec x y) as [->|Hne].
    + rewrite IH by (simpl in *; tauto). split; congruence.
    + split; [|congruence]. intros H. exfalso. apply Hne, to_N_inj. lia.
Qed.

Lemma c_string_drop (n : nat) (s : list byte) : c_string s -> c_string (drop n s).
Proof.
  unfold c_string. intros H Hin. apply H.
  rewrite <- (take_drop n s). apply in_or_app. now right.
Qed.

Lemma not_in_tail_strrchr (file : list byte) (c : byte) :
  ~ In c (tail file) -> strrchr file c = None \/ strrchr file c = Some O.
Proof.
  destruct file as [|b rest]; simpl; [auto|].
  intros H. apply strrchr_none in H. rewrite H.
  destruct (Byte.eqb b c); auto.
Qed.

Lemma strrchr_after_stem (stem ext : list byte) (c : byte) :
  stem <> [] -> ~ In c ext ->
  exists i, strrchr (stem ++ c :: ext) c = Some (S i) /\ length stem = S i.
Proof.
  intros Hstem Hext. rewrite strrchr_last by exact Hext.
  destruct stem as [|x stem]; [congruence|]. simpl. eauto.
Qed.

Lemma strrchr_lt (s : list byte) (c : byte) (i : nat) :
  strrchr s c = Some i -> (i < length s)%nat.
Proof.
  revert i. induction s as [|b s IH]; intros i; simpl; [discriminate|].
  destruct (strrchr s c) as [j|].
  - intros H. injection H as <-. specialize (IH j eq_refl). lia.
  - destruct (Byte.eqb b c); [|discriminate]. intros H. injection H as <-. lia.
Qed.

Lemma drop_after_stem (stem ext : list byte) (c : byte) :
  drop (S (length stem)) (stem ++ c :: ext) = ext.
Proof.
  change (stem ++ c :: ext) with (stem ++ [c] ++ ext).
  rewrite app_assoc.
  replace (S (length stem)) with (length (stem ++ [c]))
    by (rewrite length_app; simpl; lia).
  apply drop_app_length.
Qed.

(** ** The extension of a file *)

Lemma file_ext_whole (file : list byte) :
  ~ In "."%byte (tail file) -> blocs__file_ext file = file.
Proof.
  intros H. unfold blocs__file_ext.
  destruct (not_in_tail_strrchr file _ H) as [-> | ->]; reflexivity.
Qed.

Lemma file_ext_after_stem (stem ext : list byte) :
  stem <> [] -> ~ In "."%byte ext ->
  blocs__file_ext (stem ++ "."%byte :: ext) = ext.
Proof.
  intros Hstem Hext. unfold blocs__file_ext.
  destruct (strrchr_after_stem stem ext _ Hstem Hext) as (i & -> & Hlen).
  rewrite <- Hlen. apply drop_after_stem.
Qed.

(** X17.  [blocs__file_ext] gives the text after the last ['.'] of the path, as
    long as there is one past the first character; a path without a ['.'],
    or whose only ['.'] is its first character, is returned whole. *)
Theorem file_ext_is_text_after_last_dot (file : list byte) :
  (~ In "."%byte (tail file) -> blocs__file_ext file = file)
  /\ (forall stem ext, file = stem ++ "."%byte :: ext -> stem <> [] ->
        ~ In "."%byte ext -> blocs__file_ext file = ext).
Proof.
  split; [apply file_ext_whole|].
  intros stem ext -> Hstem Hext. now apply file_ext_after_stem.
Qed.

Lemma ext_is_img_spec (ext : list byte) :
  c_string ext ->
  blocs__ext_is_img ext = true <-> ext = PNG_EXT \/ ext = JPG_EXT.
Proof.
  intros Hc. unfold blocs__ext_is_img.
  assert (Hpng : c_string PNG_EXT).
  { unfold c_string, PNG_EXT. simpl. intuition discriminate. }
  assert (Hjpg : c_string JPG_EXT).
  { unfold c_string, JPG_EXT. simpl. intuition discriminate. }
  rewrite orb_true_iff, !Z.eqb_eq, !strcmp_eq by assumption. reflexivity.
Qed.

(** X18.  The files [main] takes for images: those whose path ends in [".png"]
    or [".jpg"] after at least one character (lower case only), and the
    paths that are just ["png"] or ["jpg"], which have no ['.'] at all and
    are compared whole. *)
Theorem image_files_end_in_png_or_jpg (file : list byte) :
  c_string file ->
  blocs__ext_is_img (blocs__file_ext file) = true <->
  (file = PNG_EXT \/ file = JPG_EXT \/
   exists stem, stem <> [] /\
     (file = stem ++ "."%byte :: PNG_EXT \/ file = stem ++ "."%byte :: JPG_EXT)).
Proof.
  intros Hc.
  assert (Hdot : forall e, e = PNG_EXT \/ e = JPG_EXT -> ~ In "."%byte e).
  { intros e [-> | ->]; simpl; intuition discriminate. }
  split.
  - unfold blocs__file_ext.
    destruct (strrchr file "."%byte) as [[|i]|] eqn:E.
    + rewrite ext_is_img_spec by exact Hc. tauto.
    + rewrite ext_is_img_spec by (now apply c_string_drop).
      intros Himg. right. right.
      pose proof (strrchr_lt _ _ _ E) as Hlt.
      apply strrchr_some in E as [Hfile _].
      exists (take (S i) file). split.
      * intros Hnil. apply (f_equal (@length byte)) in Hnil.
        rewrite length_take in Hnil. cbn [length] in Hnil. lia.
      * destruct Himg as [H|H]; rewrite H in Hfile; auto.
    + rewrite ext_is_img_spec by exact Hc. tauto.
  - intros [->|[->|(stem & Hstem & [-> | ->])]]; try reflexivity.
    + rewrite file_ext_after_stem by (auto; apply Hdot; auto). reflexivity.
    + rewrite file_ext_after_stem by (auto; apply Hdot; auto). reflexivity.
Qed.

Lemma image_files_end_in_png_or_jpg_witness :
  let file := ["a"; "/"; "b"; "."; "p"; "n"; "g"]%byte in
  blocs__ext_is_img (blocs__file_ext file) = true <->
  (file = PNG_EXT \/ file = JPG_EXT \/
   exists stem, stem <> [] /\
     (file = stem ++ "."%byte :: PNG_EXT \/ file = stem ++ "."%byte :: JPG_EXT)).
Proof.
  apply (image_files_end_in_png_or_jpg ["a"; "/"; "b"; "."; "p"; "n"; "g"]%byte).
  unfold c_string. simpl. intuition discriminate.
Defined.

(** ** The name and the directory of a file *)

Lemma copy_to_block_tight (slack n : Z) (s : list byte) :
  slack < 2 -> n = strlen s - 1 -> copy_to_block slack n s = None.
Proof.
  intros Hs ->. unfold copy_to_block.
  destruct (Z.leb_spec (strlen s + 1) (strlen s - 1 + slack)); [lia|reflexivity].
Qed.

Lemma copy_to_block_loose (slack n : Z) (s : list byte) :
  2 <= slack -> n = strlen s - 1 -> copy_to_block slack n s = Some s.
Proof.
  intros Hs ->. unfold copy_to_block.
  destruct (Z.leb_spec (strlen s + 1) (strlen s - 1 + slack)); [reflexivity|lia].
Qed.

Lemma strlen_from_second_spec (s : list byte) (n : Z) :
  strlen_from_second s = Some n -> n = strlen s - 1.
Proof.
  destruct s as [|b s]; simpl; [discriminate|].
  intros H. injection H as <-. unfold strlen. simpl length. lia.
Qed.

(** X19.  [blocs__file_path] and [blocs__file_name] ask [malloc] for
    [strlen(file + 1)] bytes, one less than the length of the string, where
    [strlen(file) + 1] was meant; the [strcpy] that follows needs two bytes
    more than were asked.  With a block of the size asked (and of one byte
    more) every call leaves defined behaviour, whatever the path. *)
Theorem file_name_and_path_overrun_their_block (slack : Z) (file : list byte) :
  slack < 2 ->
  fst (blocs__file_path slack file) = Undefined
  /\ fst (blocs__file_name slack file) = Undefined.
Proof.
  intros Hslack. split.
  - unfold blocs__file_path.
    destruct (strlen_from_second file) as [n|] eqn:E; [|reflexivity].
    rewrite (copy_to_block_tight slack n file Hslack
               (strlen_from_second_spec _ _ E)).
    reflexivity.
  - unfold blocs__file_name. cbv zeta.
    match goal with |- context [strlen_from_second ?x] => generalize x end.
    intros fwp.
    destruct (strlen_from_second fwp) as [n|] eqn:E; [|reflexivity].
    rewrite (copy_to_block_tight slack n fwp Hslack
               (strlen_from_second_spec _ _ E)).
    reflexivity.
Qed.

Lemma file_name_and_path_overrun_their_block_witness :
  let file := ["o"; "u"; "t"; "/"; "a"; "."; "p"; "n"; "g"]%byte in
  fst (blocs__file_path 0 file) = Undefined
  /\ fst (blocs__file_name 0 file) = Undefined.
Proof.
  apply (file_name_and_path_overrun_their_block 0). lia.
Defined.

Lemma last_component (dir base : list byte) :
  dir <> [] -> ~ In "/"%byte base ->
  match strrchr (dir ++ "/"%byte :: base) "/"%byte with
  | Some 0%nat => dir ++ "/"%byte :: base
  | Some (S i) => drop (S (S i)) (dir ++ "/"%byte :: base)
  | None => dir ++ "/"%byte :: base
  end = base.
Proof.
  intros Hdir Hbase.
  destruct (strrchr_after_stem dir base _ Hdir Hbase) as (i & -> & Hlen).
  rewrite <- Hlen. apply drop_after_stem.
Qed.

Lemma whole_component (base : list byte) :
  ~ In "/"%byte base ->
  match strrchr base "/"%byte with
  | Some 0%nat => base
  | Some (S i) => drop (S (S i)) base
  | None => base
  end = base.
Proof. intros H. apply strrchr_none in H. now rewrite H. Qed.

Lemma take_stem (stem ext : list byte) (c : byte) :
  take (length stem) (stem ++ c :: ext) = stem.
Proof. apply take_app_length. Qed.

Lemma file_name_of_base (slack : Z) (file base : list byte) :
  2 <= slack -> base <> [] ->
  match strrchr file "/"%byte with
  | Some 0%nat => file
  | Some (S i) => drop (S (S i)) file
  | None => file
  end = base ->
  (~ In "."%byte (tail base) ->
   blocs__file_name slack file = (Completed, base))
  /\ (forall stem ext, base = stem ++ "."%byte :: ext -> stem <> [] ->
        ~ In "."%byte ext ->
        blocs__file_name slack file = (Completed, stem)).
Proof.
  intros Hslack Hbase Hfwp. unfold blocs__file_name. cbv zeta. rewrite Hfwp.
  destruct (strlen_from_second base) as [n|] eqn:E.
  2:{ destruct base; [congruence|discriminate]. }
  rewrite (copy_to_block_loose slack n base Hslack
             (strlen_from_second_spec _ _ E)).
  split.
  - intros Hdot.
    destruct (not_in_tail_strrchr base _ Hdot) as [-> | ->]; reflexivity.
  - intros stem ext Hb Hstem Hext. rewrite Hb.
    destruct (strrchr_after_stem stem ext _ Hstem Hext) as (i & -> & Hlen).
    rewrite <- Hlen, take_stem. reflexivity.
Qed.

Lemma leading_slash_component (base : list byte) :
  ~ In "/"%byte base ->
  match strrchr ("/"%byte :: base) "/"%byte with
  | Some 0%nat => "/"%byte :: base
  | Some (S i) => drop (S (S i)) ("/"%byte :: base)
  | None => "/"%byte :: base
  end = "/"%byte :: base.
Proof.
  intros H. pose proof (strrchr_last [] base "/"%byte H) as E.
  cbn [app] in E. rewrite E. reflexivity.
Qed.

(** X20.  With a block large enough for the copy, [blocs__file_name] gives the
    last component of the path (the text after the last ['/'], which must
    not be empty) up to its last ['.'], for a path without a ['/'] and for
    one whose last ['/'] is not its first character; a component without a
    ['.'], or whose only ['.'] comes first, is kept whole.  A path whose
    only ['/'] is its first character is not cut at the ['/']
    ([slash == file]): ["/a.png"] gives ["/a"], and ["/.png"] gives ["/"]. *)
Theorem file_name_is_last_component_without_extension (slack : Z)
    (dir base : list byte) :
  2 <= slack -> ~ In "/"%byte base ->
  (base <> [] ->
   (~ In "."%byte (tail base) ->
    blocs__file_name slack base = (Completed, base)
    /\ (dir <> [] ->
        blocs__file_name slack (dir ++ "/"%byte :: base) = (Completed, base)))
   /\ (forall stem ext, base = stem ++ "."%byte :: ext -> stem <> [] ->
         ~ In "."%byte ext ->
         blocs__file_name slack base = (Completed, stem)
         /\ (dir <> [] ->
             blocs__file_name slack (dir ++ "/"%byte :: base)
             = (Completed, stem))))
  /\ (~ In "."%byte base ->
      blocs__file_name slack ("/"%byte :: base) = (Completed, "/"%byte :: base))
  /\ (forall stem ext, base = stem ++ "."%byte :: ext -> ~ In "."%byte ext ->
        blocs__file_name slack ("/"%byte :: base)
        = (Completed, "/"%byte :: stem)).
Proof.
  intros Hslack Hslash.
  destruct (file_name_of_base slack ("/"%byte :: base) ("/"%byte :: base) Hslack
              ltac:(discriminate) (leading_slash_component base Hslash))
    as [H5 H6].
  split; [|split].
  - intros Hbase.
    destruct (file_name_of_base slack base base Hslack Hbase
                (whole_component base Hslash)) as [H3 H4].
    split.
    + intros Hdot. split; [auto|]. intros Hdir.
      apply (file_name_of_base slack (dir ++ "/"%byte :: base) base Hslack Hbase
               (last_component dir base Hdir Hslash)).
      exact Hdot.
    + intros stem ext Hb Hstem Hext. split; [eauto|]. intros Hdir.
      apply (proj2 (file_name_of_base slack (dir ++ "/"%byte :: base) base
                      Hslack Hbase (last_component dir base Hdir Hslash))
               stem ext Hb Hstem Hext).
  - intros Hdot. apply H5. exact Hdot.
  - intros stem ext Hb Hext.
    apply (H6 ("/"%byte :: stem) ext); [now rewrite Hb|discriminate|exact Hext].
Qed.

Lemma file_name_is_last_component_without_extension_witness :
  (blocs__file_name 2 ["a"; "."; "b"; "."; "p"; "n"; "g"]%byte
   = (Completed, ["a"; "."; "b"]%byte)
   /\ blocs__file_name 2 ["o"; "u"; "t"; "/"; "a"; "."; "b"; "."; "p"; "n"; "g"]%byte
      = (Completed, ["a"; "."; "b"]%byte))
  /\ blocs__file_name 2 ["/"; "a"; "."; "b"; "."; "p"; "n"; "g"]%byte
     = (Completed, ["/"; "a"; "."; "b"]%byte).
Proof.
  pose proof (file_name_is_last_component_without_extension 2
                ["o"; "u"; "t"]%byte ["a"; "."; "b"; "."; "p"; "n"; "g"]%byte
                ltac:(lia) ltac:(simpl; intuition discriminate))
    as (Hcut & _ & Hroot).
  split.
  - destruct (proj2 (Hcut ltac:(discriminate))
                ["a"; "."; "b"]%byte ["p"; "n"; "g"]%byte eq_refl
                ltac:(discriminate) ltac:(simpl; intuition discriminate))
      as [Hbare Hdir].
    split; [exact Hbare|]. apply Hdir. discriminate.
  - apply (Hroot ["a"; "."; "b"]%byte ["p"; "n"; "g"]%byte eq_refl).
    simpl. intuition discriminate.
Defined.

Lemma file_path_of_dir (slack : Z) (dir base : list byte) :
  2 <= slack -> ~ In "/"%byte base ->
  blocs__file_path slack (dir ++ "/"%byte :: base) = (Completed, dir).
Proof.
  intros Hslack Hbase. unfold blocs__file_path.
  destruct (strlen_from_second (dir ++ "/"%byte :: base)) as [n|] eqn:E.
  2:{ destruct dir; discriminate. }
  rewrite (copy_to_block_loose slack n _ Hslack (strlen_from_second_spec _ _ E)).
  rewrite strrchr_last by exact Hbase. rewrite take_stem. reflexivity.
Qed.

(** X21.  [blocs__file_path] gives the path up to its last ['/'], the ['/'] left
    out (so ["/atlas.png"] gives the empty string).  A path without a ['/']
    has no answer: [strrchr] returns the null pointer and the function
    subtracts [path] from it to index the string, whatever the size of the
    block. *)
Theorem file_path_is_text_before_last_slash (slack : Z) (file : list byte) :
  (~ In "/"%byte file -> fst (blocs__file_path slack file) = Undefined)
  /\ (2 <= slack -> forall dir base, file = dir ++ "/"%byte :: base ->
        ~ In "/"%byte base -> blocs__file_path slack file = (Completed, dir)).
Proof.
  split.
  - intros Hno. unfold blocs__file_path.
    destruct (strlen_from_second file) as [n|]; [|reflexivity].
    unfold copy_to_block.
    destruct (strlen file + 1 <=? n + slack); [|reflexivity].
    apply strrchr_none in Hno. rewrite Hno. reflexivity.
  - intros Hslack dir base -> Hbase. now apply file_path_of_dir.
Qed.

(** ** The paths of the output *)

Lemma output_path_fits (slack extra : Z) (suffix dir name : list byte) :
  0 <= slack -> strlen suffix + 2 <= extra ->
  output_path slack extra suffix dir name
  = Some (dir ++ "/"%byte :: name ++ suffix).
Proof.
  intros Hslack Hextra. unfold output_path, copy_to_block, strlen in *.
  rewrite length_app. simpl length. rewrite length_app.
  destruct (Z.leb_spec
              (Z.of_nat (length dir + S (length name + length suffix)) + 1)
              (Z.of_nat (length dir) + Z.of_nat (length name) + extra + slack));
    [reflexivity|lia].
Qed.

(** X22.  What [-o dir/stem.ext] comes to: [blocs__file_path] gives [dir],
    [blocs__file_name] gives [stem], and the two paths [main] builds from
    them, in blocks just large enough, are [dir/stem.png] and
    [dir/stem.json], whatever the extension that was given. *)
Theorem output_option_names_png_and_json (slack : Z) (dir stem ext : list byte) :
  2 <= slack -> dir <> [] -> stem <> [] ->
  ~ In "/"%byte stem -> ~ In "."%byte stem ->
  ~ In "/"%byte ext -> ~ In "."%byte ext ->
  blocs__file_path slack (dir ++ "/"%byte :: stem ++ "."%byte :: ext)
  = (Completed, dir)
  /\ blocs__file_name slack (dir ++ "/"%byte :: stem ++ "."%byte :: ext)
     = (Completed, stem)
  /\ png_output slack dir stem
     = Some (dir ++ "/"%byte :: stem ++ ["."; "p"; "n"; "g"]%byte)
  /\ json_output slack dir stem
     = Some (dir ++ "/"%byte :: stem ++ ["."; "j"; "s"; "o"; "n"]%byte).
Proof.
  intros Hslack Hdir Hstem Hs1 Hs2 He1 He2.
  assert (Hbase : ~ In "/"%byte (stem ++ "."%byte :: ext)).
  { intros H. apply in_app_or in H as [H|[H|H]]; [auto|discriminate|auto]. }
  split; [now apply file_path_of_dir|]. split.
  - assert (Hne : stem ++ "."%byte :: ext <> []) by (destruct stem; discriminate).
    apply (proj2 (file_name_of_base slack _ (stem ++ "."%byte :: ext) Hslack Hne
                    (last_component dir _ Hdir Hbase)) stem ext eq_refl Hstem He2).
  - split; apply output_path_fits; simpl; unfold strlen; simpl; lia.
Qed.

Lemma output_option_names_png_and_json_witness :
  blocs__file_path 2 ["o"; "/"; "a"; "."; "j"; "p"; "g"]%byte
  = (Completed, ["o"]%byte)
  /\ blocs__file_name 2 ["o"; "/"; "a"; "."; "j"; "p"; "g"]%byte
     = (Completed, ["a"]%byte)
  /\ png_output 2 ["o"]%byte ["a"]%byte
     = Some ["o"; "/"; "a"; "."; "p"; "n"; "g"]%byte
  /\ json_output 2 ["o"]%byte ["a"]%byte
     = Some ["o"; "/"; "a"; "."; "j"; "s"; "o"; "n"]%byte.
Proof.
  apply (output_option_names_png_and_json 2 ["o"]%byte ["a"]%byte
           ["j"; "p"; "g"]%byte).
  - lia.
  - discriminate.
  - discriminate.
  - simpl. intuition discriminate.
  - simpl. intuition discriminate.
  - simpl. intuition discriminate.
  - simpl. intuition discriminate.
Defined.

(** ** Directories *)

Lemma node_induction (P : node -> Prop) :
  P DT_REG -> P DT_other -> P (DT_DIR None) ->
  (forall entries, Forall (fun e => P (snd e)) entries ->
                   P (DT_DIR (Some entries))) ->
  forall n, P n.
Proof.
  intros Hreg Hother Hclosed Hopen.
  fix IH 1. intros [| [entries|] |];
    [exact Hreg| |exact Hclosed|exact Hother].
  apply Hopen.
  induction entries as [|e es IHes]; constructor; [apply IH | exact IHes].
Qed.

Lemma join_path_fits (path d_name : list byte) :
  join_path path d_name = Some (path ++ "/"%byte :: d_name).
Proof.
  unfold join_path, copy_to_block, strlen.
  rewrite length_app. simpl length.
  destruct (Z.leb_spec (Z.of_nat (length path + S (length d_name)) + 1)
              (Z.of_nat (length path) + Z.of_nat (length d_name) + 2 + 0));
    [reflexivity|lia].
Qed.

Lemma size_entries_cons size_dir d_name n es count :
  size_entries size_dir ((d_name, n) :: es) count
  = if is_dots d_name then size_entries size_dir es count
    else match n with
         | DT_REG => size_entries size_dir es (Int32.add count 1)
         | DT_DIR _ =>
             match size_dir n with
             | Returned c => size_entries size_dir es (Int32.add count c)
             | CouldNotOpen => CouldNotOpen
             | PastTheArray => PastTheArray
             end
         | DT_other => size_entries size_dir es count
         end.
Proof. reflexivity. Qed.

Lemma enumerate_entries_cons capacity enumerate_dir path d_name n es files :
  enumerate_entries capacity enumerate_dir path ((d_name, n) :: es) files
  = if is_dots d_name then enumerate_entries capacity enumerate_dir path es files
    else match n with
         | DT_REG =>
             match join_path path d_name with
             | Some file =>
                 if Z.of_nat (length files) <? capacity
                 then enumerate_entries capacity enumerate_dir path es
                        (files ++ [file])
                 else PastTheArray
             | None => PastTheArray
             end
         | DT_DIR _ =>
             match join_path path d_name with
             | Some npath =>
                 match enumerate_dir npath n files with
                 | Returned files' =>
                     enumerate_entries capacity enumerate_dir path es files'
                 | CouldNotOpen => CouldNotOpen
                 | PastTheArray => PastTheArray
                 end
             | None => PastTheArray
             end
         | DT_other => enumerate_entries capacity enumerate_dir path es files
         end.
Proof. reflexivity. Qed.

Lemma regular_entries_cons regular d_name n es :
  regular_entries regular ((d_name, n) :: es)
  = if is_dots d_name then regular_entries regular es
    else match n with
         | DT_REG => S (regular_entries regular es)
         | DT_DIR _ => (regular n + regular_entries regular es)%nat
         | DT_other => regular_entries regular es
         end.
Proof. reflexivity. Qed.

Lemma readable_entries_cons rd d_name n es :
  readable_entries rd ((d_name, n) :: es)
  = if is_dots d_name then readable_entries rd es
    else match n with
         | DT_DIR _ => rd n && readable_entries rd es
         | _ => readable_entries rd es
         end.
Proof. reflexivity. Qed.

Lemma size_dir_open entries :
  blocs__size_dir (DT_DIR (Some entries))
  = size_entries blocs__size_dir entries 0.
Proof. reflexivity. Qed.

Lemma enumerate_dir_open capacity entries path files :
  blocs__enumerate_dir capacity (DT_DIR (Some entries)) path files
  = enumerate_entries capacity
      (fun npath n => blocs__enumerate_dir capacity n npath) path entries files.
Proof. reflexivity. Qed.

Lemma regular_files_open entries :
  regular_files (DT_DIR (Some entries)) = regular_entries regular_files entries.
Proof. reflexivity. Qed.

Lemma readable_open entries :
  readable (DT_DIR (Some entries)) = readable_entries readable entries.
Proof. reflexivity. Qed.

Lemma size_dir_readable (n : node) :
  (readable n = true -> exists c, blocs__size_dir n = Returned c)
  /\ (readable n = false -> blocs__size_dir n = CouldNotOpen).
Proof.
  induction n as [| | |entries IH] using node_induction;
    try (split; [discriminate|reflexivity]).
  rewrite readable_open, size_dir_open.
  generalize 0 as count.
  induction IH as [|[d_name n] es [Hyes Hno] _ IHes]; intros count.
  { split; [simpl; eauto|discriminate]. }
  rewrite readable_entries_cons, size_entries_cons.
  simpl in Hyes, Hno.
  destruct (is_dots d_name); [apply IHes|].
  destruct n as [|stream|]; try apply IHes.
  destruct (readable (DT_DIR stream)) eqn:Hr.
  - destruct (Hyes eq_refl) as [c ->]. apply IHes.
  - rewrite (Hno eq_refl). split; [discriminate|reflexivity].
Qed.

Lemma size_dir_counts (n : node) :
  readable n = true ->
  Z.of_nat (regular_files n) <= Int32.max_signed ->
  blocs__size_dir n = Returned (Z.of_nat (regular_files n)).
Proof.
  induction n as [| | |entries IH] using node_induction;
    try discriminate.
  rewrite readable_open, size_dir_open, regular_files_open.
  assert (H : forall count, 0 <= count ->
    readable_entries readable entries = true ->
    count + Z.of_nat (regular_entries regular_files entries) <= Int32.max_signed ->
    size_entries blocs__size_dir entries count
    = Returned (count + Z.of_nat (regular_entries regular_files entries))).
  2:{ intros Hr Hmax. rewrite H; auto; try lia. }
  induction IH as [|[d_name n] es Hn _ IHes]; intros count Hc Hr Hmax.
  { simpl. f_equal. lia. }
  rewrite readable_entries_cons in Hr. rewrite regular_entries_cons in Hmax.
  rewrite size_entries_cons, regular_entries_cons.
  simpl in Hn. unfold Int32.max_signed in *.
  destruct (is_dots d_name); [now apply IHes|].
  destruct n as [|stream|].
  - rewrite int32_add_small by (apply in_range_bounds; lia).
    rewrite IHes; auto; try lia. f_equal. lia.
  - apply andb_true_iff in Hr as [Hr1 Hr2].
    rewrite Hn by (auto; lia).
    rewrite int32_add_small by (apply in_range_bounds; lia).
    rewrite IHes; auto; try lia. f_equal. lia.
  - now apply IHes.
Qed.

Lemma enumerate_dir_lists (capacity : Z) (n : node) :
  readable n = true ->
  forall path files,
  Z.of_nat (length files) + Z.of_nat (regular_files n) <= capacity ->
  exists new,
    blocs__enumerate_dir capacity n path files = Returned (files ++ new)
    /\ length new = regular_files n
    /\ Forall (fun f => exists rest, f = path ++ "/"%byte :: rest) new.
Proof.
  induction n as [| | |entries IH] using node_induction;
    try discriminate.
  rewrite readable_open, regular_files_open.
  intros Hr path files. rewrite enumerate_dir_open. revert Hr path files.
  induction IH as [|[d_name n] es Hn _ IHes]; intros Hr path files Hcap.
  { exists []. simpl. rewrite app_nil_r. auto. }
  rewrite readable_entries_cons in Hr. rewrite regular_entries_cons in Hcap.
  rewrite enumerate_entries_cons, regular_entries_cons.
  simpl in Hn.
  destruct (is_dots d_name); [now apply IHes|].
  rewrite join_path_fits.
  destruct n as [|stream|].
  - destruct (Z.ltb_spec (Z.of_nat (length files)) capacity); [|lia].
    destruct (IHes Hr path (files ++ [path ++ "/"%byte :: d_name]))
      as (new & Hrun & Hlen & Hpre).
    { rewrite length_app. simpl. lia. }
    exists ((path ++ "/"%byte :: d_name) :: new).
    rewrite Hrun, <- app_assoc. simpl. repeat split; auto.
    constructor; eauto.
  - apply andb_true_iff in Hr as [Hr1 Hr2].
    destruct (Hn Hr1 (path ++ "/"%byte :: d_name) files) as (new1 & Hrun1 & Hlen1 & Hpre1).
    { lia. }
    rewrite Hrun1.
    destruct (IHes Hr2 path (files ++ new1)) as (new2 & Hrun2 & Hlen2 & Hpre2).
    { rewrite length_app. lia. }
    exists (new1 ++ new2). rewrite Hrun2, <- app_assoc.
    repeat split; auto.
    + rewrite length_app. lia.
    + apply Forall_app. split; [|exact Hpre2].
      eapply Forall_impl; [exact Hpre1|]. simpl.
      intros f [rest ->]. exists (d_name ++ "/"%byte :: rest).
      rewrite <- app_assoc. reflexivity.
  - now apply IHes.
Qed.

(** X24.  [main] sizes the array of file names with [blocs__size_dir] and fills
    it with [blocs__enumerate_dir]: when the first walk returns [n], the
    second, over the same directories, returns having written exactly [n]
    names, none of them past the array, each of them a path below the
    directory it was given. *)
Theorem enumerate_fills_the_array (at_path : node) (path : list byte) (n : Z) :
  blocs__size_dir at_path = Returned n ->
  Z.of_nat (regular_files at_path) <= Int32.max_signed ->
  exists files,
    blocs__enumerate_dir n at_path path [] = Returned files
    /\ Z.of_nat (length files) = n
    /\ Forall (fun f => exists rest, f = path ++ "/"%byte :: rest) files.
Proof.
  intros Hsize Hmax.
  destruct (readable at_path) eqn:Hr.
  2:{ rewrite (proj2 (size_dir_readable at_path) Hr) in Hsize. discriminate. }
  rewrite (size_dir_counts at_path Hr Hmax) in Hsize. injection Hsize as <-.
  destruct (enumerate_dir_lists (Z.of_nat (regular_files at_path)) at_path Hr path [])
    as (new & Hrun & Hlen & Hpre).
  { simpl. lia. }
  exists new. simpl in Hrun. rewrite Hrun, Hlen. auto.
Qed.

(** X23.  [blocs__size_dir] aborts ("could not count files in directory") if and
    only if the path is not a directory that [opendir] opens or a directory
    below it, reached without going through ["."] or [".."], is not;
    otherwise it returns. *)
Theorem size_dir_aborts_on_a_closed_directory (at_path : node) :
  (blocs__size_dir at_path = CouldNotOpen <-> readable at_path = false)
  /\ ((exists n, blocs__size_dir at_path = Returned n) <-> readable at_path = true).
Proof.
  destruct (size_dir_readable at_path) as [Hyes Hno].
  destruct (readable at_path) eqn:Hr.
  - destruct (Hyes eq_refl) as [c Hc]. rewrite Hc. split; split; eauto; discriminate.
  - rewrite (Hno eq_refl). split; split; auto; try discriminate.
    intros [n Hn]. discriminate.
Qed.

Lemma enumerate_fills_the_array_witness :
  let sub := DT_DIR (Some [(["."]%byte, DT_DIR None);
                           (["b"]%byte, DT_REG); (["l"]%byte, DT_other)]) in
  let top := DT_DIR (Some [(["."; "."]%byte, DT_DIR None);
                           (["a"]%byte, DT_REG); (["s"]%byte, sub)]) in
  exists files,
    blocs__enumerate_dir 2 top ["d"]%byte [] = Returned files
    /\ Z.of_nat (length files) = 2
    /\ Forall (fun f => exists rest, f = ["d"]%byte ++ "/"%byte :: rest) files.
Proof.
  cbv zeta.
  apply (enumerate_fills_the_array
           (DT_DIR (Some [(["."; "."]%byte, DT_DIR None);
                          (["a"]%byte, DT_REG);
                          (["s"]%byte,
                           DT_DIR (Some [(["."]%byte, DT_DIR None);
                                         (["b"]%byte, DT_REG);
                                         (["l"]%byte, DT_other)]))]))
           ["d"]%byte 2).
  - reflexivity.
  - unfold Int32.max_signed. simpl. lia.
Defined.

(** X25.  [blocs__enumerate_dir] itself does not look at the size of the array:
    given fewer free slots than the directories hold regular files, it
    writes a name past the array. *)
Theorem enumerate_does_not_check_the_array (capacity : Z) (at_path : node) :
  readable at_path = true ->
  forall (path : list byte) (files : list (list byte)),
  Z.of_nat (length files) <= capacity ->
  capacity < Z.of_nat (length files) + Z.of_nat (regular_files at_path) ->
  blocs__enumerate_dir capacity at_path path files = PastTheArray.
Proof.
  induction at_path as [| | |entries IH] using node_induction;
    try discriminate.
  rewrite readable_open, regular_files_open.
  intros Hr path files. rewrite enumerate_dir_open. revert Hr path files.
  induction IH as [|[d_name n] es Hn _ IHes]; intros Hr path files Hin Hcap.
  { simpl in Hcap. lia. }
  rewrite readable_entries_cons in Hr. rewrite regular_entries_cons in Hcap.
  rewrite enumerate_entries_cons.
  simpl in Hn.
  destruct (is_dots d_name); [now apply IHes|].
  rewrite join_path_fits.
  destruct n as [|stream|].
  - destruct (Z.ltb_spec (Z.of_nat (length files)) capacity); [|reflexivity].
    apply IHes; [exact Hr| |]; rewrite length_app; simpl; lia.
  - apply andb_true_iff in Hr as [Hr1 Hr2].
    destruct (Z.lt_ge_cases capacity
                (Z.of_nat (length files) + Z.of_nat (regular_files (DT_DIR stream))))
      as [Hover|Hfits].
    + rewrite (Hn Hr1 _ files Hin Hover). reflexivity.
    + destruct (enumerate_dir_lists capacity (DT_DIR stream) Hr1
                  (path ++ "/"%byte :: d_name) files ltac:(lia))
        as (new1 & -> & Hlen1 & _).
      apply IHes; [exact Hr2| |]; rewrite length_app; lia.
  - now apply IHes.
Qed.

Lemma enumerate_does_not_check_the_array_witness :
  blocs__enumerate_dir 1
    (DT_DIR (Some [(["a"]%byte, DT_REG); (["b"]%byte, DT_REG)])) ["d"]%byte []
  = PastTheArray.
Proof.
  apply (enumerate_does_not_check_the_array 1
           (DT_DIR (Some [(["a"]%byte, DT_REG); (["b"]%byte, DT_REG)]))).
  - reflexivity.
  - simpl. lia.
  - simpl. lia.
Defined.

(** ** Unloading the images *)

Lemma last_snoc_take (images : list blocs__image) (x : blocs__image) :
  last images = Some x -> images = take (pred (length images)) images ++ [x].
Proof.
  intros H. destruct images as [|y ys] using rev_ind; [discriminate|].
  rewrite last_snoc in H. injection H as ->.
  rewrite length_app. simpl. rewrite Nat.add_1_r. simpl.
  rewrite take_app_length. reflexivity.
Qed.

Lemma cpp_unload_loop_spec (fuel : nat) : forall (i : Z) (images unloaded : list blocs__image),
  0 <= i ->
  Forall (fun image => img_data image <> None) images ->
  Z.of_nat (length images) <= Int32.max_signed ->
  Z.of_nat (length images) - i <= Z.of_nat fuel ->
  let m := Z.of_nat (length images) in
  let q := Z.to_nat (if i <? m then m - (m - i + 1) / 2 else m) in
  cpp_unload_loop fuel false i images unloaded
  = Cleaned (take q images) (unloaded ++ rev (drop q images)).
Proof.
  induction fuel as [|fuel IH]; intros i images unloaded Hi Hok Hmax Hfuel m q.
  - simpl. subst m q. destruct (Z.ltb_spec i (Z.of_nat (length images))); [lia|].
    rewrite Nat2Z.id, firstn_all, drop_all. simpl. now rewrite app_nil_r.
  - simpl. subst q. fold m.
    destruct (Z.ltb_spec i m) as [Hlt|Hge].
    2:{ subst m. rewrite Nat2Z.id, firstn_all, drop_all. simpl.
        now rewrite app_nil_r. }
    destruct (last images) as [x|] eqn:Hlast.
    2:{ apply last_None in Hlast. subst images. simpl in m. lia. }
    pose proof (last_snoc_take images x Hlast) as Himg.
    set (images' := take (pred (length images)) images) in *.
    assert (Hlen' : Z.of_nat (length images') = m - 1).
    { unfold images'. rewrite length_take. lia. }
    assert (Hx : img_data x <> None).
    { rewrite Forall_forall in Hok. apply Hok. rewrite Himg.
      apply elem_of_app. right. now left. }
    destruct (img_data x) as [d|] eqn:Hd; [|congruence].
    unfold Int32.max_signed in Hmax.
    rewrite int32_add_small by (apply in_range_bounds; lia).
    rewrite IH; try lia.
    2:{ rewrite Himg in Hok. apply Forall_app in Hok. tauto. }
    2:{ unfold Int32.max_signed. lia. }
    rewrite Hlen'.
    set (q := Z.to_nat (m - (m - i + 1) / 2)).
    assert (Hq : Z.to_nat (if i + 1 <? m - 1
                           then m - 1 - (m - 1 - (i + 1) + 1) / 2 else m - 1) = q).
    { unfold q. destruct (Z.ltb_spec (i + 1) (m - 1)).
      - f_equal. replace (m - i + 1) with ((m - 1 - (i + 1) + 1) + 1 * 2) by lia.
        rewrite Z.div_add by lia. lia.
      - f_equal. assert (m - i = 1 \/ m - i = 2) as [E|E] by lia.
        + replace (m - i + 1) with 2 by lia. change (2 / 2) with 1. lia.
        + replace (m - i + 1) with 3 by lia. change (3 / 2) with 1. lia. }
    rewrite Hq.
    assert (Hqle : (q <= length images')%nat).
    { unfold q. assert (1 <= (m - i + 1) / 2).
      { apply Z.div_le_lower_bound; lia. }
      lia. }
    clearbody images'. rewrite Himg.
    rewrite take_app_le by exact Hqle.
    rewrite drop_app_le by exact Hqle.
    rewrite rev_app_distr. simpl. rewrite <- app_assoc. reflexivity.
Qed.

Lemma c_unload_loop_spec (images : list blocs__image) : forall unloaded,
  Forall (fun image => img_data image <> None) images ->
  c_unload_loop false images unloaded = Cleaned [] (unloaded ++ images).
Proof.
  induction images as [|x xs IH]; intros unloaded Hok; simpl.
  { now rewrite app_nil_r. }
  apply Forall_cons in Hok as [Hx Hxs].
  destruct (img_data x); [|congruence].
  rewrite IH by exact Hxs. rewrite <- app_assoc. reflexivity.
Qed.

(** X29.  The clean-up loop of the C++ [main] compares its counter with
    [images.size()] while it pops the vector: it stops half way.  Of [n]
    loaded images the last [n - n/2] are unloaded, last first, and the first
    [n/2] are still in the vector, never unloaded.  The loop of the C [main]
    unloads them all. *)
Theorem cpp_cleanup_unloads_half (images : list blocs__image) :
  Forall (fun image => img_data image <> None) images ->
  Z.of_nat (length images) <= Int32.max_signed ->
  cpp_unload false images
  = Cleaned (take (length images / 2) images)
            (rev (drop (length images / 2) images))
  /\ c_unload_loop false images [] = Cleaned [] images.
Proof.
  intros Hok Hmax. split; [|now apply c_unload_loop_spec].
  unfold cpp_unload.
  rewrite cpp_unload_loop_spec; auto; try lia. simpl.
  assert (E : Z.to_nat (if 0 <? Z.of_nat (length images)
                        then Z.of_nat (length images)
                             - (Z.of_nat (length images) - 0 + 1) / 2
                        else Z.of_nat (length images))
              = (length images / 2)%nat).
  { destruct (Z.ltb_spec 0 (Z.of_nat (length images))) as [Hpos|Hz].
    - apply Nat2Z.inj. rewrite Nat2Z.inj_div.
      generalize (Z.of_nat (length images)) Hpos. intros n Hn.
      rewrite Z2Nat.id.
      + pose proof (Z.div_mod n 2 ltac:(lia)).
        pose proof (Z.mod_pos_bound n 2 ltac:(lia)).
        pose proof (Z.div_mod (n - 0 + 1) 2 ltac:(lia)).
        pose proof (Z.mod_pos_bound (n - 0 + 1) 2 ltac:(lia)).
        lia.
      + pose proof (Z.div_mod (n - 0 + 1) 2 ltac:(lia)).
        pose proof (Z.mod_pos_bound (n - 0 + 1) 2 ltac:(lia)).
        lia.
    - assert (length images = 0)%nat as -> by lia. reflexivity. }
  rewrite E. reflexivity.
Qed.

Lemma cpp_cleanup_unloads_half_witness :
  cpp_unload false sample_images
  = Cleaned (take (length sample_images / 2) sample_images)
            (rev (drop (length sample_images / 2) sample_images))
  /\ c_unload_loop false sample_images [] = Cleaned [] sample_images.
Proof.
  apply (cpp_cleanup_unloads_half sample_images).
  - repeat constructor; discriminate.
  - unfold Int32.max_signed. simpl. lia.
Defined.

(** ** [write_binary] *)

Lemma uint8_to_N (z : Z) : Z.of_N (Byte.to_N (uint8 z)) = z mod 256.
Proof.
  unfold uint8.
  pose proof (Z.mod_pos_bound z 256 ltac:(lia)) as Hb.
  pose proof (Byte.to_of_N_option_map (Z.to_N (z mod 256))) as H.
  destruct (N.leb_spec (Z.to_N (z mod 256)) 255) as [_|Hgt]; [|lia].
  destruct (Byte.of_N (Z.to_N (z mod 256))) as [b|]; [|discriminate].
  simpl in H. injection H as ->. lia.
Qed.

Lemma write_binary_bytes (value : Z) :
  Z.of_N (Byte.to_N (uint8 (Z.land value 255)))
  + 256 * Z.of_N (Byte.to_N (uint8 (Z.land (Z.shiftr value 8) 255)))
  = value mod 65536.
Proof.
  rewrite !uint8_to_N.
  change 255 with (Z.ones 8). rewrite !Z.land_ones by lia.
  rewrite Z.shiftr_div_pow2 by lia.
  change (2 ^ 8) with 256. rewrite !Z.mod_mod by lia.
  change 65536 with (256 * 256). rewrite Z.rem_mul_r by lia. reflexivity.
Qed.

(** X30.  [write_binary] puts a 16-bit value on the stream as two bytes, the low
    one first, in two's complement; the bytes written before are kept, and
    two different values never give the same two bytes. *)
Theorem write_binary_is_little_endian (stream : list byte) (value : Z) :
  - 32768 <= value <= 32767 ->
  (exists lo hi,
     write_binary stream value = stream ++ [lo; hi]
     /\ Z.of_N (Byte.to_N lo) + 256 * Z.of_N (Byte.to_N hi) = value mod 65536)
  /\ (forall value', - 32768 <= value' <= 32767 ->
        write_binary stream value = write_binary stream value' ->
        value = value').
Proof.
  intros Hv. split.
  - eexists _, _. split; [reflexivity|]. apply write_binary_bytes.
  - intros value' Hv' E. unfold write_binary in E.
    apply app_inv_head in E. injection E as Elo Ehi.
    pose proof (write_binary_bytes value) as H1.
    pose proof (write_binary_bytes value') as H2.
    rewrite Elo, Ehi in H1. rewrite H1 in H2.
    pose proof (Z.div_mod value 65536 ltac:(lia)).
    pose proof (Z.div_mod value' 65536 ltac:(lia)).
    pose proof (Z.mod_pos_bound value 65536 ltac:(lia)).
    pose proof (Z.mod_pos_bound value' 65536 ltac:(lia)).
    lia.
Qed.

Lemma write_binary_is_little_endian_witness :
  (exists lo hi,
     write_binary [] (-2) = [] ++ [lo; hi]
     /\ Z.of_N (Byte.to_N lo) + 256 * Z.of_N (Byte.to_N hi) = (-2) mod 65536)
  /\ (forall value', - 32768 <= value' <= 32767 ->
        write_binary [] (-2) = write_binary [] value' -> -2 = value').
Proof.
  apply (write_binary_is_little_endian [] (-2)). lia.
Defined.

(** ** Filling an image with a colour *)

Lemma store_inside (m : list byte) (i : Z) (v : byte) :
  0 <= i < Z.of_nat (length m) -> store m i v = Some (<[Z.to_nat i := v]> m).
Proof.
  intros Hi. unfold store.
  destruct (Z.leb_spec 0 i); [|lia].
  destruct (Z.ltb_spec i (Z.of_nat (length m))); [|lia]. reflexivity.
Qed.

Lemma load_insert_eq (m : list byte) (i : Z) (v : byte) :
  0 <= i < Z.of_nat (length m) -> load (<[Z.to_nat i := v]> m) i = Some v.
Proof.
  intros Hi. unfold load. destruct (Z.leb_spec 0 i); [|lia].
  apply list_lookup_insert_eq. lia.
Qed.

Lemma load_insert_ne (m : list byte) (i k : Z) (v : byte) :
  0 <= i -> i <> k -> load (<[Z.to_nat i := v]> m) k = load m k.
Proof.
  intros Hi Hne. unfold load. destruct (Z.leb_spec 0 k); [|reflexivity].
  apply list_lookup_insert_ne. lia.
Qed.

Lemma put_pixel (r g b a : byte) (i : Z) (data : list byte) :
  0 <= i -> i + 4 <= Z.of_nat (length data) -> i + 4 <= Int32.max_signed ->
  exists data',
    run_steps (put_byte i) [(0, r); (1, g); (2, b); (3, a)] data
    = (Completed, data')
    /\ length data' = length data
    /\ load data' i = Some r /\ load data' (i + 1) = Some g
    /\ load data' (i + 2) = Some b /\ load data' (i + 3) = Some a
    /\ forall k, ~ (i <= k < i + 4) -> load data' k = load data k.
Proof.
  intros Hi Hlen Hmax. unfold Int32.max_signed in Hmax.
  simpl. unfold put_byte. simpl.
  rewrite !int32_add_small by (apply in_range_bounds; lia).
  rewrite store_inside by lia. simpl.
  rewrite store_inside by (rewrite length_insert; lia). simpl.
  rewrite store_inside by (rewrite !length_insert; lia). simpl.
  rewrite store_inside by (rewrite !length_insert; lia). simpl.
  eexists. split; [reflexivity|].
  split; [now rewrite !length_insert|].
  replace (i + 0) with i by lia.
  repeat split.
  - rewrite !load_insert_ne by lia. apply load_insert_eq. lia.
  - rewrite !load_insert_ne by lia.
    apply load_insert_eq. rewrite length_insert. lia.
  - rewrite !load_insert_ne by lia.
    apply load_insert_eq. rewrite !length_insert. lia.
  - apply load_insert_eq. rewrite !length_insert. lia.
  - intros k Hk. rewrite !load_insert_ne by lia. reflexivity.
Qed.

Lemma run_steps_cons {A B : Type} (f : B -> A -> status * A) (x : B)
    (xs : list B) (a : A) :
  run_steps f (x :: xs) a = and_then (f x a) (run_steps f xs).
Proof. reflexivity. Qed.

Lemma fill_steps (r g b a : byte) (n : nat) : forall (i : Z) (data : list byte),
  0 <= i -> i + 4 * Z.of_nat n <= Z.of_nat (length data) ->
  i + 4 * Z.of_nat n <= Int32.max_signed ->
  exists data',
    run_steps (fun i => run_steps (put_byte i) [(0, r); (1, g); (2, b); (3, a)])
              (counters n i 4) data
    = (Completed, data')
    /\ length data' = length data
    /\ (forall p, 0 <= p < Z.of_nat n ->
          load data' (i + 4 * p) = Some r /\ load data' (i + 4 * p + 1) = Some g
          /\ load data' (i + 4 * p + 2) = Some b
          /\ load data' (i + 4 * p + 3) = Some a)
    /\ forall k, ~ (i <= k < i + 4 * Z.of_nat n) -> load data' k = load data k.
Proof.
  induction n as [|n IH]; intros i data Hi Hlen Hmax.
  { exists data. simpl. split; [reflexivity|]. split; [reflexivity|].
    split; [intros p Hp; lia|auto]. }
  cbn [counters]. rewrite run_steps_cons.
  destruct (put_pixel r g b a i data) as (d1 & -> & Hl1 & Hr & Hg & Hb & Ha & Hf1);
    try lia.
  cbn [and_then].
  destruct (IH (i + 4) d1) as (d2 & -> & Hl2 & Hpix & Hf2); try lia.
  exists d2. split; [reflexivity|]. split; [lia|]. split.
  - intros p Hp. destruct (Z.eq_dec p 0) as [->|Hne].
    + replace (i + 4 * 0) with i by lia.
      rewrite !Hf2 by lia. auto.
    + destruct (Hpix (p - 1) ltac:(lia)) as (H1 & H2 & H3 & H4).
      replace (i + 4 + 4 * (p - 1)) with (i + 4 * p) in * by lia. auto.
  - intros k Hk. rewrite Hf2 by lia. apply Hf1. lia.
Qed.

(** X28.  [blocs__fill_color] gives every pixel of the image the colour
    [(r, g, b, a)], whatever the block held before. *)
Theorem fill_color_paints_every_pixel (image : blocs__image) (r g b a : byte)
    (block : list byte) :
  0 <= img_w image -> 0 <= img_h image ->
  img_w image * img_h image * 4 <= Int32.max_signed ->
  Z.of_nat (length block) = img_w image * img_h image * 4 ->
  exists filled,
    blocs__fill_color image r g b a block = (Completed, filled)
    /\ img_w filled = img_w image /\ img_h filled = img_h image
    /\ forall px py, 0 <= px < img_w image -> 0 <= py < img_h image ->
         image_byte filled px py 0 = Some r /\ image_byte filled px py 1 = Some g
         /\ image_byte filled px py 2 = Some b /\ image_byte filled px py 3 = Some a.
Proof.
  intros Hw Hh Hmax Hlen. unfold blocs__fill_color.
  assert (Hwh : 0 <= img_w image * img_h image) by nia.
  unfold Int32.max_signed in Hmax.
  rewrite (int32_mul_small (img_w image)) by (apply in_range_bounds; lia).
  rewrite int32_mul_small by (apply in_range_bounds; unfold CHANNELS; lia).
  rewrite (for_loop_counters _ 0 _ CHANNELS (Z.to_nat (img_w image * img_h image)))
    by (unfold CHANNELS, Int32.max_signed, Int32.min_signed; lia).
  destruct (fill_steps r g b a (Z.to_nat (img_w image * img_h image)) 0 block)
    as (data & Hrun & Hl & Hpix & _); try (unfold Int32.max_signed; lia).
  unfold CHANNELS. rewrite Hrun.
  eexists. split; [reflexivity|]. simpl. split; [reflexivity|].
  split; [reflexivity|].
  intros px py Hpx Hpy. unfold image_byte. simpl.
  destruct (Hpix (px + py * img_w image) ltac:(nia)) as (H1 & H2 & H3 & H4).
  unfold CHANNELS.
  replace ((px + py * img_w image) * 4 + 0)
    with (0 + 4 * (px + py * img_w image)) by lia.
  replace ((px + py * img_w image) * 4 + 1)
    with (0 + 4 * (px + py * img_w image) + 1) by lia.
  replace ((px + py * img_w image) * 4 + 2)
    with (0 + 4 * (px + py * img_w image) + 2) by lia.
  replace ((px + py * img_w image) * 4 + 3)
    with (0 + 4 * (px + py * img_w image) + 3) by lia.
  auto.
Qed.

Lemma fill_color_paints_every_pixel_witness :
  exists filled,
    blocs__fill_color (Image 2 1 None) Byte.x0a Byte.x0b Byte.x0c Byte.xff
                      (replicate 8 Byte.x00)
    = (Completed, filled)
    /\ img_w filled = 2 /\ img_h filled = 1
    /\ forall px py, 0 <= px < 2 -> 0 <= py < 1 ->
         image_byte filled px py 0 = Some Byte.x0a
         /\ image_byte filled px py 1 = Some Byte.x0b
         /\ image_byte filled px py 2 = Some Byte.x0c
         /\ image_byte filled px py 3 = Some Byte.xff.
Proof.
  apply (fill_color_paints_every_pixel (Image 2 1 None) Byte.x0a Byte.x0b
           Byte.x0c Byte.xff (replicate 8 Byte.x00)).
  - simpl. lia.
  - simpl. lia.
  - unfold Int32.max_signed. simpl. lia.
  - reflexivity.
Defined.

(** ** [blocs__set_pixels] on its own *)

Section SetPixels.
Variables (W H : Z) (buffer : list byte) (offset : Z) (dst : blocs__rect).
Hypothesis HW : 0 <= W.
Hypothesis Hsmall : 4 * W * H <= Int32.max_signed.
Hypothesis HHmax : H <= Int32.max_signed.
Hypothesis Hx : 0 <= rect_x dst.
Hypothesis Hy : 0 <= rect_y dst.
Hypothesis Hw : 0 <= rect_w dst.
Hypothesis Hh : 0 <= rect_h dst.
Hypothesis Hxw : rect_x dst + rect_w dst <= W.
Hypothesis Hyh : rect_y dst + rect_h dst <= H.
Hypothesis Hoff : 0 <= offset.
Hypothesis Hsrc : offset + rect_w dst * rect_h dst * 4 <= Z.of_nat (length buffer).

(** one turn of the loop of [blocs__set_pixels] *)
Let copy_row (y : Z) : list byte -> status * list byte :=
  memcpy buffer
    (offset + Int32.mul (Int32.mul y (rect_w dst)) CHANNELS)
    (Int32.mul (Int32.add (rect_x dst)
                  (Int32.mul (Int32.add (rect_y dst) y) W)) CHANNELS)
    (Int32.mul (rect_w dst) CHANNELS).

Lemma set_rows (n : nat) : forall (y1 : Z) (data : list byte),
  0 <= y1 -> y1 + Z.of_nat n <= rect_h dst ->
  Z.of_nat (length data) = W * H * 4 ->
  exists data',
    run_steps copy_row (counters n y1 1) data = (Completed, data')
    /\ length data' = length data
    /\ (forall dx dy c, 0 <= dx < rect_w dst -> y1 <= dy < y1 + Z.of_nat n ->
          0 <= c < 4 ->
          load data' (byte_index W (rect_x dst + dx) (rect_y dst + dy) c)
          = load buffer (offset + (dx + dy * rect_w dst) * 4 + c))
    /\ (forall px py c, 0 <= px < W -> 0 <= c < 4 ->
          ~ (rect_x dst <= px < rect_x dst + rect_w dst
             /\ rect_y dst + y1 <= py < rect_y dst + y1 + Z.of_nat n) ->
          load data' (byte_index W px py c) = load data (byte_index W px py c)).
Proof.
  induction n as [|n IH]; intros y1 data Hy1 Hn Hlen.
  { exists data. simpl. split; [reflexivity|]. split; [reflexivity|].
    split; [intros; lia|auto]. }
  cbn [counters run_steps].
  assert (HH : 0 < H) by lia.
  assert (Hrow : 0 <= rect_x dst + (rect_y dst + y1) * W
                 /\ rect_x dst + (rect_y dst + y1) * W + rect_w dst <= W * H).
  { split; [nia|]. 
    assert ((rect_y dst + y1 + 1) * W <= H * W) by (apply Z.mul_le_mono_nonneg_r; lia).
    lia. }
  assert (Hfrom : 0 <= y1 * rect_w dst /\ y1 * rect_w dst + rect_w dst
                  <= rect_w dst * rect_h dst).
  { split; [nia|].
    assert ((y1 + 1) * rect_w dst <= rect_h dst * rect_w dst)
      by (apply Z.mul_le_mono_nonneg_r; lia).
    lia. }
  assert (HWH : 0 <= W * H) by nia.
  assert (Hwh : rect_w dst * rect_h dst <= W * H).
  { transitivity (W * rect_h dst); [apply Z.mul_le_mono_nonneg_r; lia|].
    apply Z.mul_le_mono_nonneg_l; lia. }
  assert (HyW : 0 <= (rect_y dst + y1) * W /\ (rect_y dst + y1) * W <= W * H).
  { split; [nia|]. rewrite (Z.mul_comm W H).
    apply Z.mul_le_mono_nonneg_r; lia. }
  unfold Int32.max_signed in Hsmall, HHmax.
  unfold copy_row at 1. unfold CHANNELS.
  rewrite (int32_mul_small y1) by (apply in_range_bounds; lia).
  rewrite (int32_mul_small (y1 * rect_w dst)) by (apply in_range_bounds; lia).
  rewrite (int32_add_small (rect_y dst)) by (apply in_range_bounds; lia).
  rewrite (int32_mul_small (rect_y dst + y1)) by (apply in_range_bounds; lia).
  rewrite (int32_add_small (rect_x dst)) by (apply in_range_bounds; lia).
  rewrite (int32_mul_small _ 4) by (apply in_range_bounds; lia).
  rewrite (int32_mul_small (rect_w dst)) by (apply in_range_bounds; lia).
  destruct (memcpy_spec buffer data (offset + y1 * rect_w dst * 4)
              ((rect_x dst + (rect_y dst + y1) * W) * 4) (rect_w dst * 4))
    as (d1 & -> & Hl1 & Hf1 & Hv1); try lia.
  cbn [and_then].
  destruct (IH (y1 + 1) d1) as (d2 & -> & Hl2 & Hv2 & Hf2); try lia.
  exists d2. split; [reflexivity|]. split; [lia|]. split.
  - intros dx dy c Hdx Hdy Hc.
    destruct (Z.eq_dec dy y1) as [->|Hne].
    + rewrite Hf2 by lia.
      unfold byte_index, CHANNELS.
      replace ((rect_x dst + dx + (rect_y dst + y1) * W) * 4 + c)
        with ((rect_x dst + (rect_y dst + y1) * W) * 4 + (dx * 4 + c)) by lia.
      rewrite Hv1 by lia. f_equal. lia.
    + apply Hv2; lia.
  - intros px py c Hpx Hc Hout.
    rewrite Hf2 by lia.
    apply Hf1. unfold byte_index, CHANNELS. intros Hk.
    assert (Hpix : rect_x dst + (rect_y dst + y1) * W <= px + py * W
                   < rect_x dst + (rect_y dst + y1) * W + rect_w dst) by lia.
    assert (py = rect_y dst + y1).
    { destruct (Z.lt_trichotomy py (rect_y dst + y1)) as [Hlt | [Heq | Hgt]];
        [|exact Heq|].
      - pose proof (Z.mul_le_mono_nonneg_r py (rect_y dst + y1 - 1) W
                      ltac:(lia) ltac:(lia)).
        lia.
      - pose proof (Z.mul_le_mono_nonneg_r (rect_y dst + y1 + 1) py W
                      ltac:(lia) ltac:(lia)).
        lia. }
    subst py. lia.
Qed.
End SetPixels.

(** X13.  [blocs__set_pixels] on an image of any size: when the rectangle lies
    in the image and the source holds its [w * h] pixels, the call returns,
    the pixels of the rectangle are those of the source, row after row, and
    every other pixel of the image is as it was.  When the rectangle
    reaches past the right or the bottom edge the call aborts and the image
    is untouched. *)
Theorem set_pixels_copies_and_keeps (image : blocs__image) (data : list byte)
    (buffer : list byte) (offset : Z) (dst : blocs__rect) :
  img_data image = Some data ->
  0 <= img_w image <= Int32.max_signed -> img_h image <= Int32.max_signed ->
  4 * img_w image * img_h image <= Int32.max_signed ->
  Z.of_nat (length data) = img_w image * img_h image * 4 ->
  0 <= rect_x dst -> 0 <= rect_y dst -> 0 <= rect_w dst -> 0 <= rect_h dst ->
  0 <= offset ->
  offset + rect_w dst * rect_h dst * 4 <= Z.of_nat (length buffer) ->
  (rect_x dst + rect_w dst <= img_w image ->
   rect_y dst + rect_h dst <= img_h image ->
   exists blitted,
     blocs__set_pixels image buffer offset dst = (Completed, blitted)
     /\ img_w blitted = img_w image /\ img_h blitted = img_h image
     /\ (forall dx dy c, 0 <= dx < rect_w dst -> 0 <= dy < rect_h dst ->
           0 <= c < 4 ->
           image_byte blitted (rect_x dst + dx) (rect_y dst + dy) c
           = load buffer (offset + (dx + dy * rect_w dst) * 4 + c))
     /\ (forall px py c, 0 <= px < img_w image -> 0 <= c < 4 ->
           ~ covers dst px py ->
           image_byte blitted px py c = image_byte image px py c))
  /\ (img_w image < rect_x dst + rect_w dst \/
      img_h image < rect_y dst + rect_h dst ->
      rect_x dst + rect_w dst <= Int32.max_signed ->
      rect_y dst + rect_h dst <= Int32.max_signed ->
      blocs__set_pixels image buffer offset dst
      = (Aborted PixelsLargerThanImage, image)).
Proof.
  intros Hdata [HW HWmax] HH Hsmall Hlen Hx Hy Hw Hh Hoff Hsrc. split.
  - intros Hxw Hyh. unfold blocs__set_pixels.
    pose proof HH as HH'. pose proof HWmax as HW'.
    unfold Int32.max_signed in HH', HW'.
    rewrite !int32_add_small by (apply in_range_bounds; lia).
    destruct (Z.leb_spec (rect_x dst + rect_w dst) (img_w image)); [|lia].
    destruct (Z.leb_spec (rect_y dst + rect_h dst) (img_h image)); [|lia].
    simpl negb. cbv iota. rewrite Hdata.
    rewrite (for_loop_counters _ 0 _ 1 (Z.to_nat (rect_h dst)))
      by (unfold Int32.max_signed, Int32.min_signed; lia).
    destruct (set_rows (img_w image) (img_h image) buffer offset dst
                HW Hsmall HH Hx Hy Hw Hh Hxw Hyh Hoff Hsrc
                (Z.to_nat (rect_h dst)) 0 data)
      as (data' & Hrun & Hl & Hv & Hf); try lia.
    cbv zeta. rewrite Hrun.
    eexists. split; [reflexivity|]. simpl. split; [reflexivity|].
    split; [reflexivity|]. split.
    + intros dx dy c Hdx Hdy Hc. unfold image_byte. simpl.
      apply (Hv dx dy c); lia.
    + intros px py c Hpx Hc Hout. unfold image_byte. simpl. rewrite Hdata.
      apply (Hf px py c); auto. unfold covers in Hout. lia.
  - intros Hbig Hxmax Hymax. unfold blocs__set_pixels.
    unfold Int32.max_signed in Hxmax, Hymax.
    rewrite !int32_add_small by (apply in_range_bounds; lia).
    destruct Hbig as [Hbig|Hbig].
    + destruct (Z.leb_spec (rect_x dst + rect_w dst) (img_w image)); [lia|].
      reflexivity.
    + destruct (Z.leb_spec (rect_y dst + rect_h dst) (img_h image)); [lia|].
      rewrite andb_false_r. reflexivity.
Qed.

Lemma set_pixels_copies_and_keeps_witness :
  let image := Image 3 2 (Some (replicate 24 Byte.x00)) in
  let dst := Rect 1 0 2 2 in
  (1 + 2 <= 3 -> 0 + 2 <= 2 ->
   exists blitted,
     blocs__set_pixels image sample_buffer 0 dst = (Completed, blitted)
     /\ img_w blitted = 3 /\ img_h blitted = 2
     /\ (forall dx dy c, 0 <= dx < 2 -> 0 <= dy < 2 -> 0 <= c < 4 ->
           image_byte blitted (1 + dx) (0 + dy) c
           = load sample_buffer (0 + (dx + dy * 2) * 4 + c))
     /\ (forall px py c, 0 <= px < 3 -> 0 <= c < 4 -> ~ covers dst px py ->
           image_byte blitted px py c = image_byte image px py c))
  /\ (3 < 1 + 2 \/ 2 < 0 + 2 ->
      1 + 2 <= Int32.max_signed -> 0 + 2 <= Int32.max_signed ->
      blocs__set_pixels image sample_buffer 0 dst
      = (Aborted PixelsLargerThanImage, image)).
Proof.
  apply (set_pixels_copies_and_keeps (Image 3 2 (Some (replicate 24 Byte.x00)))
           (replicate 24 Byte.x00) sample_buffer 0 (Rect 1 0 2 2)).
  - reflexivity.
  - unfold Int32.max_signed. simpl. lia.
  - unfold Int32.max_signed. simpl. lia.
  - unfold Int32.max_signed. simpl. lia.
  - reflexivity.
  - simpl. lia.
  - simpl. lia.
  - simpl. lia.
  - simpl. lia.
  - lia.
  - simpl. lia.
Defined.

(** ** The first placement *)

(** X6.  After a pack that completes, the first texture of the placement order
    (a tallest one) was placed, in the corner of the atlas: at
    [(expand, expand)]. *)
Theorem first_texture_sits_in_the_corner (l : lang) (S : LibrarySort l)
    (textures : list blocs__texture) (size expand border : Z)
    (first : blocs__texture * bool) (others : list (blocs__texture * bool)) :
  sort_contract l S ->
  config_ok size expand border ->
  Forall (texture_ok expand border) textures ->
  run_status (pack_run l textures size expand border) = Completed ->
  run_textures (pack_run l textures size expand border) = first :: others ->
  snd first = true
  /\ rect_x (tex_rect (fst first)) = expand
  /\ rect_y (tex_rect (fst first)) = expand.
Proof.
  intros Hsort Hconfig Hok Hdone Hrun.
  pose proof (pack_run_completed l S textures size expand border Hdone)
    as (Hmax & _ & E).
  rewrite E in Hdone, Hrun.
  pose proof (prechecks_passed l S textures size expand border Hconfig Hok Hmax)
    as Hfit.
  rewrite (proj1 Hsort textures) in Hfit, Hok.
  rewrite (padding_of_small _ _ _ Hconfig) in Hdone, Hrun.
  destruct (sort_textures textures) as [|t ts]; [discriminate|].
  apply Forall_cons in Hfit as [[Hw Hh] _].
  apply Forall_cons in Hok as [Ht _].
  simpl in Hdone, Hrun.
  destruct (size_assertion l size (tex_rect t)); simpl in Hdone, Hrun;
    [|discriminate].
  destruct (padded_small _ _ _ _ Hconfig Ht) as [Ew Eh].
  rewrite Ew, Eh in Hdone, Hrun.
  destruct (Z.gtb_spec (rect_w (tex_rect t) + (2 * expand + border)) size);
    [lia|].
  destruct (Z.gtb_spec (rect_h (tex_rect t) + (2 * expand + border)) size);
    [lia|].
  simpl in Hdone, Hrun.
  destruct (update_spaces _ _ _ _ _ _) as [spaces'|]; simpl in Hdone, Hrun;
    [|discriminate].
  injection Hrun as <- _. simpl.
  destruct Hconfig as (He & Hb & Hs & Hp). unfold Int32.max_signed in *.
  rewrite !int32_add_small by (apply in_range_bounds; lia). auto.
Qed.

Lemma first_texture_sits_in_the_corner_witness :
  snd (Texture (Rect 1 1 8 16) 0 0, true) = true
  /\ rect_x (tex_rect (fst (Texture (Rect 1 1 8 16) 0 0, true))) = 1
  /\ rect_y (tex_rect (fst (Texture (Rect 1 1 8 16) 0 0, true))) = 1.
Proof.
  apply (first_texture_sits_in_the_corner Cpp17 (stable_library_sort Cpp17)
           [fresh_texture 8 16 0 0; fresh_texture 16 8 1 512;
            fresh_texture 8 8 2 1024] 32 1 1
           (Texture (Rect 1 1 8 16) 0 0, true)
           [(Texture (Rect 12 1 16 8) 1 512, true);
            (Texture (Rect 1 20 8 8) 2 1024, true)]).
  - apply stable_sort_contract.
  - unfold config_ok, Int32.max_signed. lia.
  - repeat constructor; unfold Int32.max_signed; simpl; lia.
  - vm_compute. reflexivity.
  - vm_compute. reflexivity.
Defined.

(** ** The demo *)

Section DemoFacts.
Variables (rand : nat -> Z) (heads : Z -> bool)
          (rand_box : Z -> Z -> Z -> blocs__image).
Hypothesis rand_range : forall n, 0 <= rand n <= Int32.max_signed.

Lemma add_box_grows w h : grows 1 1 (fun l => add_box rand rand_box l w h).
Proof.
  intros sv. eexists. split; [reflexivity|]. simpl.
  rewrite length_app. simpl. split; [lia|]. unfold add_box. simpl.
  split; intros Hlen.
  - destruct (Nat.ltb_spec (length (demo_images sv)) 1000); [reflexivity|lia].
  - destruct (Nat.ltb_spec (length (demo_images sv)) 1000); [lia|reflexivity].
Qed.

Lemma add_boxes_grows w h (n : nat) : grows n n (fun l => add_boxes rand rand_box l n w h).
Proof.
  induction n as [|n IH]; intros sv.
  { exists sv. simpl. repeat split; auto; lia. }
  destruct (add_box_grows w h sv) as (s1 & E1 & Hl1 & Hc1 & Hn1).
  destruct (IH s1) as (s2 & E2 & Hl2 & Hc2 & Hn2).
  cbn beta in *.
  exists s2. cbn [add_boxes]. rewrite E1. split; [exact E2|].
  split; [lia|]. split; intros Hlen.
  - rewrite Hc1 by lia. now apply Hc2.
  - destruct (le_lt_dec (length (demo_images s1)) 1000) as [Hle|Hgt].
    + rewrite Hc1 by exact Hle. apply Hn2. lia.
    + rewrite Hn1 by lia. reflexivity.
Qed.

Lemma maybe_box_grows w h : grows 0 1 (fun l => maybe_box rand heads rand_box l w h).
Proof.
  intros sv. unfold maybe_box.
  destruct (heads (rand (rand_calls sv))).
  - destruct (add_box_grows w h
                {| rand_calls := S (rand_calls sv); demo_images := demo_images sv |})
      as (s1 & E1 & Hl1 & Hc1 & Hn1).
    cbn beta in *. cbn [demo_images] in *.
    exists s1. repeat split; auto; lia.
  - eexists. split; [reflexivity|]. cbn [demo_images].
    repeat split; auto; lia.
Qed.

Lemma some_boxes_grows base k w h :
  0 <= base -> 0 < k -> base + k <= 1000 ->
  grows (Z.to_nat (base + 1)) (Z.to_nat (base + k))
        (fun l => some_boxes rand rand_box l base k w h).
Proof.
  intros Hbase Hk Hsmall sv. unfold some_boxes.
  pose proof (rand_range (rand_calls sv)) as Hr.
  rewrite Z.rem_mod_nonneg by lia.
  pose proof (Z.mod_pos_bound (rand (rand_calls sv)) k Hk) as Hm.
  rewrite int32_add_small by (apply in_range_bounds; lia).
  destruct (add_boxes_grows w h
              (Z.to_nat (base + rand (rand_calls sv) mod k + 1))
              {| rand_calls := S (rand_calls sv); demo_images := demo_images sv |})
    as (s1 & E1 & Hl1 & Hc1 & Hn1).
  cbn beta in *. cbn [demo_images] in *.
  exists s1. repeat split; auto; lia.
Qed.

Lemma then_grows lo hi lo' hi' f g :
  grows lo hi f -> grows lo' hi' g ->
  grows (lo + lo') (hi + hi') (fun l sv => then_boxes (f l sv) (g l)).
Proof.
  intros Hf Hg sv.
  destruct (Hf sv) as (s1 & E1 & Hl1 & Hc1 & Hn1).
  destruct (Hg s1) as (s2 & E2 & Hl2 & Hc2 & Hn2).
  exists s2. rewrite E1. simpl. split; [exact E2|]. split; [lia|].
  split; intros Hlen.
  - rewrite Hc1 by lia. simpl. now apply Hc2.
  - destruct (le_lt_dec (length (demo_images s1)) 1000) as [Hle|Hgt].
    + rewrite Hc1 by exact Hle. simpl. apply Hn2. lia.
    + rewrite Hn1 by lia. reflexivity.
Qed.
End DemoFacts.

(** X27.  The demo makes between 857 and 1705 boxes, whatever [rand()] returns.
    The C++ program keeps them in a vector.  The C program writes them to a
    block of 1000 images: it stays in the block when the boxes are at most
    1000 and writes past its end when they are more. *)
Theorem demo_overruns_its_thousand_images (rand : nat -> Z) (heads : Z -> bool)
    (rand_box : Z -> Z -> Z -> blocs__image) :
  (forall n, 0 <= rand n <= Int32.max_signed) ->
  exists st,
    demo_boxes rand heads rand_box Cpp17 = Some st
    /\ (857 <= length (demo_images st) <= 1705)%nat
    /\ ((length (demo_images st) <= 1000)%nat ->
        demo_boxes rand heads rand_box C99 = Some st)
    /\ ((1000 < length (demo_images st))%nat ->
        demo_boxes rand heads rand_box C99 = None).
Proof.
  intros Hrand.
  pose proof (then_grows _ _ _ _ _ _
    (then_grows _ _ _ _ _ _
    (then_grows _ _ _ _ _ _
    (then_grows _ _ _ _ _ _
    (then_grows _ _ _ _ _ _
    (then_grows _ _ _ _ _ _
    (then_grows _ _ _ _ _ _
    (then_grows _ _ _ _ _ _
    (then_grows _ _ _ _ _ _
    (then_grows _ _ _ _ _ _
    (then_grows _ _ _ _ _ _
      (maybe_box_grows rand heads rand_box 400 80)
      (maybe_box_grows rand heads rand_box 80 400))
      (maybe_box_grows rand heads rand_box 250 250))
      (maybe_box_grows rand heads rand_box 100 250))
      (maybe_box_grows rand heads rand_box 250 100))
      (some_boxes_grows rand rand_box Hrand 0 20 100 100
         ltac:(lia) ltac:(lia) ltac:(lia)))
      (some_boxes_grows rand rand_box Hrand 0 10 60 60
         ltac:(lia) ltac:(lia) ltac:(lia)))
      (some_boxes_grows rand rand_box Hrand 0 30 50 50
         ltac:(lia) ltac:(lia) ltac:(lia)))
      (some_boxes_grows rand rand_box Hrand 0 40 50 20
         ltac:(lia) ltac:(lia) ltac:(lia)))
      (some_boxes_grows rand rand_box Hrand 50 50 20 50
         ltac:(lia) ltac:(lia) ltac:(lia)))
      (some_boxes_grows rand rand_box Hrand 300 200 10 10
         ltac:(lia) ltac:(lia) ltac:(lia)))
      (some_boxes_grows rand rand_box Hrand 500 500 5 5
         ltac:(lia) ltac:(lia) ltac:(lia))) as H.
  destruct (H {| rand_calls := 0; demo_images := [] |})
    as (st & E & Hlen & Hc & Hn).
  exists st. split; [exact E|]. simpl in Hlen.
  split; [lia|]. split; [exact Hc|].
  intros Hbig. apply Hn. simpl. lia.
Qed.

Lemma demo_overruns_its_thousand_images_witness :
  exists st,
    demo_boxes (fun _ => 499) (fun _ => true) (fun w h _ => Image w h None) Cpp17
    = Some st
    /\ (857 <= length (demo_images st) <= 1705)%nat
    /\ ((length (demo_images st) <= 1000)%nat ->
        demo_boxes (fun _ => 499) (fun _ => true) (fun w h _ => Image w h None) C99
        = Some st)
    /\ ((1000 < length (demo_images st))%nat ->
        demo_boxes (fun _ => 499) (fun _ => true) (fun w h _ => Image w h None) C99
        = None).
Proof.
  apply (demo_overruns_its_thousand_images (fun _ => 499) (fun _ => true)
           (fun w h _ => Image w h None)).
  intros n. unfold Int32.max_signed. lia.
Defined.

(** a sequence of [rand()] on which the C demo leaves its block: 1575 boxes *)
Lemma demo_of_1575_boxes :
  option_map (fun st => length (demo_images st))
    (demo_boxes (fun _ => 499) (fun _ => true) (fun w h _ => Image w h None) Cpp17)
  = Some 1575%nat
  /\ demo_boxes (fun _ => 499) (fun _ => true) (fun w h _ => Image w h None) C99
     = None.
Proof. split; vm_compute; reflexivity. Qed.

(** ** The description of the atlas *)

Lemma save_textures_run (names : list (list byte)) (textures : list blocs__texture) :
  Z.of_nat (length textures) <= Int32.max_signed ->
  Forall (fun t => name_of names t <> None) textures ->
  forall (rest done : list blocs__texture) (text : list byte),
  textures = done ++ rest ->
  run_steps (save_texture textures (Z.of_nat (length textures)) names)
            (counters (length rest) (Z.of_nat (length done)) 1) text
  = (Completed, text ++ json_entries names rest).
Proof.
  intros Hmax Hnames.
  induction rest as [|t rest IH]; intros done text Hsplit.
  { simpl. now rewrite app_nil_r. }
  cbn [length counters run_steps].
  assert (Hi : textures !! length done = Some t).
  { rewrite Hsplit. rewrite lookup_app_r by lia.
    now rewrite Nat.sub_diag. }
  unfold save_texture at 1.
  destruct (Z.leb_spec 0 (Z.of_nat (length done))); [|lia].
  rewrite Nat2Z.id, Hi.
  assert (Ht : name_of names t <> None).
  { rewrite Forall_forall in Hnames. apply Hnames.
    apply list_elem_of_lookup. eauto. }
  destruct (name_of names t) as [name|] eqn:Hname; [|congruence].
  cbn [and_then].
  unfold Int32.max_signed in Hmax.
  assert (Hlen : length textures = (length done + S (length rest))%nat).
  { rewrite Hsplit, length_app. reflexivity. }
  rewrite int32_sub_small by (apply in_range_bounds; lia).
  replace (Z.of_nat (length done) + 1) with (Z.of_nat (length (done ++ [t])))
    by (rewrite length_app; simpl; lia).
  rewrite (IH (done ++ [t])) by (rewrite <- app_assoc; exact Hsplit).
  f_equal. rewrite <- !app_assoc. f_equal.
  cbn [json_entries]. rewrite Hname. simpl default. f_equal.
  destruct rest as [|t' rest'].
  - destruct (Z.eqb_spec (Z.of_nat (length done)) (Z.of_nat (length textures) - 1));
      [reflexivity|simpl in Hlen; lia].
  - destruct (Z.eqb_spec (Z.of_nat (length done)) (Z.of_nat (length textures) - 1));
      [simpl in Hlen; lia|]. simpl. reflexivity.
Qed.

Lemma save_json_text (atlas_bmp : blocs__image) (textures : list blocs__texture)
    (names : list (list byte)) :
  Z.of_nat (length textures) <= Int32.max_signed ->
  Forall (fun t => name_of names t <> None) textures ->
  blocs__save_json true atlas_bmp textures (Z.of_nat (length textures)) names
  = (Completed,
     json_header atlas_bmp (Z.of_nat (length textures))
     ++ json_entries names textures ++ json_footer).
Proof.
  intros Hmax Hnames. unfold blocs__save_json.
  rewrite (for_loop_counters _ 0 _ 1 (length textures))
    by (unfold Int32.min_signed; lia).
  rewrite (save_textures_run names textures Hmax Hnames textures [] _ eq_refl).
  simpl. now rewrite <- app_assoc.
Qed.

(** X15.  [blocs__save_json] writes the size of the atlas and the number of
    textures, then one entry for each texture, in the order of the array,
    with the name its [name_index] points to in [names] and its rectangle;
    a [",\n"] separates two entries and none follows the last.  The names
    must be there: every [name_index] has to be an index of [names]. *)
Theorem save_json_writes_every_texture (atlas_bmp : blocs__image)
    (textures : list blocs__texture) (names : list (list byte)) :
  Z.of_nat (length textures) <= Int32.max_signed ->
  Forall (fun t => 0 <= name_index t < Z.of_nat (length names)) textures ->
  blocs__save_json true atlas_bmp textures (Z.of_nat (length textures)) names
  = (Completed,
     json_header atlas_bmp (Z.of_nat (length textures))
     ++ json_entries names textures ++ json_footer).
Proof.
  intros Hmax Hnames. apply save_json_text; [exact Hmax|].
  eapply Forall_impl; [exact Hnames|]. simpl. intros t Ht. unfold name_of.
  destruct (Z.leb_spec 0 (name_index t)); [|lia].
  destruct (lookup_lt_is_Some_2 names (Z.to_nat (name_index t)) ltac:(lia))
    as [name ->].
  discriminate.
Qed.

Lemma save_json_writes_every_texture_witness :
  blocs__save_json true (Image 8 8 None) sample_textures
    (Z.of_nat (length sample_textures))
    [["a"]%byte; ["b"]%byte; ["c"]%byte]
  = (Completed,
     json_header (Image 8 8 None) (Z.of_nat (length sample_textures))
     ++ json_entries [["a"]%byte; ["b"]%byte; ["c"]%byte] sample_textures
     ++ json_footer).
Proof.
  apply (save_json_writes_every_texture (Image 8 8 None) sample_textures
           [["a"]%byte; ["b"]%byte; ["c"]%byte]).
  - unfold Int32.max_signed. simpl. lia.
  - repeat constructor; simpl; lia.
Defined.

Lemma registered_length (images : list blocs__image) : forall i offset,
  length (registered images i offset) = length images.
Proof.
  induction images as [|image rest IH]; intros i offset; simpl;
    [reflexivity|]. now rewrite IH.
Qed.

(** X16.  The names follow the textures through the packing.  [main] keeps the
    name of the [i]-th image in [names[i]] and registers the image under
    the name index [i]; the packer sorts the textures, and each one keeps
    its index.  So [blocs__save_json], given the textures as the packer
    left them, finds every name in [names], and describes each texture
    under the name, and with the size, of the image it was made of. *)
Theorem json_names_follow_the_textures (l : lang) (S : LibrarySort l)
    (images : list blocs__image) (names : list (list byte))
    (atlas_bmp : blocs__image) (size expand border : Z) :
  sort_contract l S ->
  Forall (fun image => 0 <= img_w image /\ 0 <= img_h image) images ->
  length names = length images ->
  Z.of_nat (length images) <= Int32.max_signed ->
  run_status (pack_run l (registered images 0 0) size expand border) = Completed ->
  blocs__save_json true atlas_bmp
    (placement_order (pack_run l (registered images 0 0) size expand border))
    (Z.of_nat (length images)) names
  = (Completed,
     json_header atlas_bmp (Z.of_nat (length images))
     ++ json_entries names
          (placement_order (pack_run l (registered images 0 0) size expand border))
     ++ json_footer)
  /\ forall t,
       In t (placement_order
               (pack_run l (registered images 0 0) size expand border)) ->
       exists image name,
         images !! Z.to_nat (name_index t) = Some image
         /\ name_of names t = Some name
         /\ names !! Z.to_nat (name_index t) = Some name
         /\ rect_w (tex_rect t) = img_w image
         /\ rect_h (tex_rect t) = img_h image.
Proof.
  intros Hsort Hnn Hnames Hmax Hdone.
  set (r := pack_run l (registered images 0 0) size expand border) in *.
  pose proof (pack_run_identity l S _ size expand border Hsort Hdone) as Hperm.
  fold r in Hperm.
  assert (Hlen : length (placement_order r) = length images).
  { apply Permutation_length in Hperm. rewrite !length_map in Hperm.
    rewrite <- Hperm. apply registered_length. }
  assert (Hfrom : forall t, In t (placement_order r) ->
            exists (k : nat) image,
              images !! k = Some image /\ name_index t = Z.of_nat k
              /\ rect_w (tex_rect t) = img_w image
              /\ rect_h (tex_rect t) = img_h image).
  { intros t Ht.
    destruct (in_by_identity (registered images 0 0) (placement_order r) t Hperm Ht)
      as (t0 & Ht0 & Eid).
    destruct (registered_spec images 0 0 t0 Hnn Ht0)
      as (k & image & Hk & Hname & Hw & Hh & _).
    unfold identity in Eid. injection Eid as Ew Eh En Eb.
    exists k, image. repeat split; auto; try congruence. lia. }
  split.
  - rewrite <- Hlen. apply save_json_text; [lia|].
    apply Forall_forall. intros t Ht. apply list_elem_of_In in Ht.
    destruct (Hfrom t Ht) as (k & image & Hk & Hname & _).
    unfold name_of. rewrite Hname.
    destruct (Z.leb_spec 0 (Z.of_nat k)); [|lia]. rewrite Nat2Z.id.
    apply lookup_lt_Some in Hk.
    destruct (lookup_lt_is_Some_2 names k ltac:(lia)) as [name ->].
    discriminate.
  - intros t Ht.
    destruct (Hfrom t Ht) as (k & image & Hk & Hname & Hw & Hh).
    pose proof (lookup_lt_Some _ _ _ Hk) as Hlt.
    destruct (lookup_lt_is_Some_2 names k ltac:(lia)) as [name Hn].
    exists image, name. unfold name_of. rewrite Hname, Nat2Z.id.
    destruct (Z.leb_spec 0 (Z.of_nat k)); [|lia]. auto.
Qed.

Lemma json_names_follow_the_textures_witness :
  let names := [["a"]%byte; ["b"]%byte; ["c"]%byte] in
  let r := pack_run Cpp17 (S := stable_library_sort Cpp17)
                    (registered sample_images 0 0) 8 1 0 in
  blocs__save_json true (Image 8 8 None) (placement_order r)
    (Z.of_nat (length sample_images)) names
  = (Completed,
     json_header (Image 8 8 None) (Z.of_nat (length sample_images))
     ++ json_entries names (placement_order r) ++ json_footer)
  /\ forall t,
       In t (placement_order r) ->
       exists image name,
         sample_images !! Z.to_nat (name_index t) = Some image
         /\ name_of names t = Some name
         /\ names !! Z.to_nat (name_index t) = Some name
         /\ rect_w (tex_rect t) = img_w image
         /\ rect_h (tex_rect t) = img_h image.
Proof.
  cbv zeta.
  apply (json_names_follow_the_textures Cpp17 (stable_library_sort Cpp17)
           sample_images [["a"]%byte; ["b"]%byte; ["c"]%byte] (Image 8 8 None)
           8 1 0).
  - apply stable_sort_contract.
  - repeat constructor; simpl; lia.
  - reflexivity.
  - unfold Int32.max_signed. simpl. lia.
  - vm_compute. reflexivity.
Defined.

(** ** The command line *)

Lemma parse_options_app (slack : Z) (n : nat) :
  forall (args more : list (list byte)) (s s1 : settings),
  (length args <= n)%nat ->
  parse_options slack args s = Parsed s1 ->
  parse_options slack (args ++ more) s = parse_options slack more s1
  /\ input_dir s1 = input_dir s /\ demo s1 = demo s.
Proof.
  induction n as [|n IH]; intros args more s s1 Hlen Hparse.
  { destruct args; [|simpl in Hlen; lia]. simpl in *.
    injection Hparse as <-. auto. }
  destruct args as [|arg rest].
  { simpl in *. injection Hparse as <-. auto. }
  simpl in Hlen. cbn [parse_options app] in *.
  repeat match type of Hparse with
  | (if ?c then _ else _) = _ => destruct c
  end;
  try discriminate;
  try (destruct rest as [|value rest']; [discriminate|];
       cbn [app]; simpl in Hlen);
  try (destruct (blocs__file_path slack value) as [[| |] dir];
       try discriminate;
       destruct (blocs__file_name slack value) as [[| |] name];
       try discriminate);
  try (destruct (atoi value) as [v|]; [|discriminate]);
  match goal with
  | H : parse_options _ ?r ?s' = Parsed _ |- _ =>
      destruct (IH r more s' s1 ltac:(lia) H) as (E & E1 & E2);
      simpl in E1, E2; auto
  end.
Qed.

(** X26.  The options are read from left to right and each changes the settings
    the ones before it left: parsing [args ++ more] is parsing [more] from
    the settings [args] gave.  So the last [-s] decides the size.  No option
    changes the input directory or turns the demo on: [-d] counts only as
    the first argument. *)
Theorem options_are_read_in_order (slack : Z) (args more : list (list byte))
    (s s1 : settings) :
  parse_options slack args s = Parsed s1 ->
  parse_options slack (args ++ more) s = parse_options slack more s1
  /\ (forall value n, atoi value = Some n ->
        exists s2, parse_options slack (args ++ [["-"; "s"]%byte; value]) s
                   = Parsed s2 /\ atlas_size s2 = n)
  /\ input_dir s1 = input_dir s /\ demo s1 = demo s.
Proof.
  intros Hparse.
  destruct (parse_options_app slack (length args) args more s s1
              (Nat.le_refl _) Hparse) as (E & E1 & E2).
  split; [exact E|]. split; [|auto].
  intros value n Hn.
  destruct (parse_options_app slack (length args) args
              [["-"; "s"]%byte; value] s s1 (Nat.le_refl _) Hparse) as (E' & _).
  rewrite E'. simpl. rewrite Hn. eexists. split; reflexivity.
Qed.

Lemma options_are_read_in_order_witness :
  let args := [["-"; "s"]%byte; ["6"; "4"]%byte; ["-"; "v"]%byte] in
  let more := [["-"; "e"]%byte; ["2"]%byte] in
  let s := Settings ["i"; "n"]%byte ["."]%byte ["a"]%byte 0 0 4096 0 0 0 in
  let s1 := Settings ["i"; "n"]%byte ["."]%byte ["a"]%byte 1 0 64 0 0 0 in
  parse_options 2 (args ++ more) s = parse_options 2 more s1
  /\ (forall value n, atoi value = Some n ->
        exists s2, parse_options 2 (args ++ [["-"; "s"]%byte; value]) s
                   = Parsed s2 /\ atlas_size s2 = n)
  /\ input_dir s1 = input_dir s /\ demo s1 = demo s.
Proof.
  cbv zeta.
  apply (options_are_read_in_order 2
           [["-"; "s"]%byte; ["6"; "4"]%byte; ["-"; "v"]%byte]
           [["-"; "e"]%byte; ["2"]%byte]).
  vm_compute. reflexivity.
Defined.
